(** * The peer-connection orchestration core ([WebRTCService])

    A shallow embedding of the class [WebRTCService] (the live-streaming
    service of the web client) and of the browser objects it drives.

    The service is a mutable object whose methods are called by the UI
    layer and whose closures are called back by the browser (connection
    state changes, timers, inbound tracks, data channels).  Here the
    fields of the class and the browser objects they refer to form one
    [State]; every method and every callback is a function on [State].

    Conventions of the embedding:
    - JavaScript is single-threaded: a method or callback is one
      transition.  An [async] method is run to completion in one
      transition; the outcome of each fallible browser call it awaits
      ([setRemoteDescription], [getUserMedia], ...) is an argument supplied
      by the environment.
    - Browser objects live in heaps indexed by handles, so that aliasing
      (a connection captured by a timer closure after it left the
      registry) is kept.
    - Calls into the browser that matter to the observable behaviour and
      callbacks into the UI layer are appended to [trace], in order.
    - Console output is not part of the state.  Timers whose callbacks
      only write to the console are left out; they are listed where the
      source creates them. *)

From Stdlib Require Import Ascii.
From stdpp Require Import gmap strings list fin_maps pretty.

Set Default Proof Using "Type".
Set Warnings "-clear-no-such-hyp".

(** ** JavaScript values *)

(** A property of an init dictionary is absent, [null], or has a value. *)
Inductive JsOpt (A : Type) : Type :=
| Undefined
| Null
| Val (a : A).
Arguments Undefined {A}.
Arguments Null {A}.
Arguments Val {A} a.

(** What a template literal prints for such a property. *)
Definition template {A} (show : A → string) (o : JsOpt A) : string :=
  match o with
  | Undefined => "undefined"
  | Null => "null"
  | Val a => show a
  end.

(** Truthiness of an optional string: absent, [null] and [""] are falsy. *)
Definition truthy (o : JsOpt string) : bool :=
  match o with
  | Val s => negb (String.eqb s "")
  | _ => false
  end.

(** ** ICE candidates *)

Record RTCIceCandidateInit := {
  candidate : JsOpt string;
  sdpMLineIndex : JsOpt N;
  sdpMid : JsOpt string;
  usernameFragment : JsOpt string;
}.

(** [addIceCandidate], first lines:
    [candidate.candidate ? `${candidate.candidate}:${candidate.sdpMLineIndex}:${candidate.sdpMid}` : 'null-candidate'] *)
Definition candidateFingerprint (c : RTCIceCandidateInit) : string :=
  if truthy (candidate c)
  then template id (candidate c) +:+ ":" +:+
       template pretty (sdpMLineIndex c) +:+ ":" +:+
       template id (sdpMid c)
  else "null-candidate".

(** The deduplication key the specification names. *)
Definition dedupKey (c : RTCIceCandidateInit)
  : JsOpt string * JsOpt N * JsOpt string :=
  (candidate c, sdpMLineIndex c, sdpMid c).

Example fingerprint_host :
  candidateFingerprint
    {| candidate := Val "candidate:1 1 UDP 2122 10.0.0.1 5000 typ host";
       sdpMLineIndex := Val 0%N; sdpMid := Val "0";
       usernameFragment := Undefined |}
  = "candidate:1 1 UDP 2122 10.0.0.1 5000 typ host:0:0".
Proof. vm_compute. reflexivity. Qed.

(** ** Media tracks and streams *)

Abbreviation Handle := nat (only parsing).

Inductive TrackKind := audio | video.

Global Instance TrackKind_eq_dec : EqDecision TrackKind.
Proof. solve_decision. Defined.

(** The identity of a track ([id], [kind]) never changes.  Its mutable
    properties [enabled] and [readyState] are kept in the state
    ([trackEnabled], [trackEnded]) because a track is shared by the local
    stream and by the senders of every connection. *)
Record MediaStreamTrack := {
  track_id : nat;
  track_kind : TrackKind;
}.

Global Instance MediaStreamTrack_eq_dec : EqDecision MediaStreamTrack.
Proof. solve_decision. Defined.

Record MediaStream := {
  stream_id : string;
  getTracks : list MediaStreamTrack;
}.

Definition is_kind (k : TrackKind) (t : MediaStreamTrack) : bool :=
  bool_decide (track_kind t = k).

Definition getAudioTracks (m : MediaStream) : list MediaStreamTrack :=
  List.filter (is_kind audio) (getTracks m).

Definition getVideoTracks (m : MediaStream) : list MediaStreamTrack :=
  List.filter (is_kind video) (getTracks m).

(** ** Peer connections (browser objects) *)

Inductive RTCSignalingState :=
| stable
| have_local_offer
| have_remote_offer
| have_local_pranswer
| have_remote_pranswer
| signaling_closed.

Inductive RTCPeerConnectionState :=
| state_new
| connecting
| connected
| disconnected
| failed
| state_closed.

Inductive RTCIceConnectionState :=
| ice_new
| ice_checking
| ice_connected
| ice_completed
| ice_failed
| ice_disconnected
| ice_closed.

Global Instance RTCSignalingState_eq_dec : EqDecision RTCSignalingState.
Proof. solve_decision. Defined.
Global Instance RTCPeerConnectionState_eq_dec : EqDecision RTCPeerConnectionState.
Proof. solve_decision. Defined.
Global Instance RTCIceConnectionState_eq_dec : EqDecision RTCIceConnectionState.
Proof. solve_decision. Defined.

Definition show_signalingState (st : RTCSignalingState) : string :=
  match st with
  | stable => "stable"
  | have_local_offer => "have-local-offer"
  | have_remote_offer => "have-remote-offer"
  | have_local_pranswer => "have-local-pranswer"
  | have_remote_pranswer => "have-remote-pranswer"
  | signaling_closed => "closed"
  end.

Inductive RTCSdpType := offer | answer | pranswer.

Record RTCSessionDescriptionInit := {
  sdp_type : RTCSdpType;
  sdp : string;
}.

Inductive RTCRtpTransceiverDirection := sendrecv | sendonly | recvonly | inactive.

(** A transceiver: the kind of its receiver track, its direction and the
    track of its sender ([None] for [sender.track === null]). *)
Record RTCRtpTransceiver := {
  receiver_kind : TrackKind;
  direction : RTCRtpTransceiverDirection;
  sender_track : option MediaStreamTrack;
}.

(** A connection, with what the closures installed on it by
    [createPeerConnection] captured: the [peerId] argument and the
    [connectionTimeout] timer. *)
Record RTCPeerConnection := {
  pc_peerId : string;
  pc_connectionTimeout : Handle;
  signalingState : RTCSignalingState;
  connectionState : RTCPeerConnectionState;
  iceConnectionState : RTCIceConnectionState;
  localDescription : option RTCSessionDescriptionInit;
  remoteDescription : option RTCSessionDescriptionInit;
  getTransceivers : list RTCRtpTransceiver;
}.

(** [pc.getSenders()]: one sender per transceiver. *)
Definition getSenders (pc : RTCPeerConnection) : list (option MediaStreamTrack) :=
  sender_track <$> getTransceivers pc.

(** ** Other browser objects *)

Inductive RTCDataChannelState := channel_connecting | channel_open | channel_closed.

(** A data channel with the [peerId] its handlers captured in
    [setupDataChannel]. *)
Record RTCDataChannel := {
  channel_peerId : string;
  readyState : RTCDataChannelState;
}.

(** The hidden [<audio>] element playing one viewer's microphone. *)
Record HTMLAudioElement := {
  element_id : string;
  srcObject : option MediaStream;
  muted : bool;
  paused : bool;
}.

(** Pending timers, by the closure they run.  [HealthCheck] is a
    [setInterval]; the others are [setTimeout]s. *)
Inductive TimerCallback :=
| ConnectionTimeout (pc : Handle)
| HealthCheck (pc : Handle)
| StuckConnecting (pc : Handle)
| FirefoxNudge (pc : Handle)
| VideoStatsCheck (pc : Handle) (track : MediaStreamTrack)
| IceRetry (pc : Handle) (c : RTCIceCandidateInit).

Definition is_interval (cb : TimerCallback) : bool :=
  match cb with
  | HealthCheck _ => true
  | _ => false
  end.

(** ** Signaling messages handed to [onMessageCallback] *)

Inductive StreamMessage :=
| webrtc_ice (streamId from to : string) (c : RTCIceCandidateInit)
| webrtc_offer (from to : string) (o : RTCSessionDescriptionInit)
    (streamId : string) (isRenegotiation : bool).

(** ** Calls into the browser and callbacks into the UI layer, in the
    order they are made *)

Inductive Effect :=
| PcSetLocalDescription (pc : Handle) (d : RTCSessionDescriptionInit)
| PcSetRemoteDescription (pc : Handle) (d : RTCSessionDescriptionInit)
| PcAddIceCandidate (pc : Handle) (c : RTCIceCandidateInit)
| PcRestartIce (pc : Handle)
| PcGetStats (pc : Handle)
| CbMessage (m : StreamMessage)
| CbStream (peerId : string) (m : MediaStream)
| CbPeerState (peerId : string) (st : RTCPeerConnectionState).

(** ** The state: the fields of [WebRTCService] and the browser heaps *)

Record State := {
  (* class fields *)
  peerConnections : gmap string Handle;
  localStream : option MediaStream;
  screenStream : option MediaStream;
  dataChannels : gmap string Handle;
  myAddress : string;
  currentStreamId : string;
  myClientId : string;
  serverClientId : string;
  isFirefox : bool;
  onMessageCallback : bool;
  onStreamCallback : bool;
  onPeerStateCallback : bool;
  healthCheckIntervals : gmap string Handle;
  queuedIceCandidates : gmap string (list RTCIceCandidateInit);
  processedCandidates : gmap string (gset string);
  viewerAudioTracks : gmap string MediaStreamTrack;
  viewerAudioElements : gmap string Handle;
  (* browser *)
  pcs : gmap Handle RTCPeerConnection;
  channels : gmap Handle RTCDataChannel;
  timers : gmap Handle TimerCallback;
  nextHandle : Handle;
  trackEnabled : gmap nat bool;
  trackEnded : gset nat;
  audioElements : gmap Handle HTMLAudioElement;
  body : list Handle;
  trace : list Effect;
}.

(** Field updates: [set_f v s] is [s] after the assignment [this.f = v]
    (or after the in-place mutation of the object [f] refers to). *)

Definition set_peerConnections (v : gmap string Handle) (s : State) : State :=
  Build_State v (localStream s) (screenStream s) (dataChannels s) (myAddress
    s) (currentStreamId s) (myClientId s) (serverClientId s) (isFirefox s)
    (onMessageCallback s) (onStreamCallback s) (onPeerStateCallback s)
    (healthCheckIntervals s) (queuedIceCandidates s) (processedCandidates s)
    (viewerAudioTracks s) (viewerAudioElements s) (pcs s) (channels s)
    (timers s) (nextHandle s) (trackEnabled s) (trackEnded s) (audioElements
    s) (body s) (trace s).

Definition set_localStream (v : option MediaStream) (s : State) : State :=
  Build_State (peerConnections s) v (screenStream s) (dataChannels s)
    (myAddress s) (currentStreamId s) (myClientId s) (serverClientId s)
    (isFirefox s) (onMessageCallback s) (onStreamCallback s)
    (onPeerStateCallback s) (healthCheckIntervals s) (queuedIceCandidates s)
    (processedCandidates s) (viewerAudioTracks s) (viewerAudioElements s)
    (pcs s) (channels s) (timers s) (nextHandle s) (trackEnabled s)
    (trackEnded s) (audioElements s) (body s) (trace s).

Definition set_screenStream (v : option MediaStream) (s : State) : State :=
  Build_State (peerConnections s) (localStream s) v (dataChannels s)
    (myAddress s) (currentStreamId s) (myClientId s) (serverClientId s)
    (isFirefox s) (onMessageCallback s) (onStreamCallback s)
    (onPeerStateCallback s) (healthCheckIntervals s) (queuedIceCandidates s)
    (processedCandidates s) (viewerAudioTracks s) (viewerAudioElements s)
    (pcs s) (channels s) (timers s) (nextHandle s) (trackEnabled s)
    (trackEnded s) (audioElements s) (body s) (trace s).

Definition set_dataChannels (v : gmap string Handle) (s : State) : State :=
  Build_State (peerConnections s) (localStream s) (screenStream s) v
    (myAddress s) (currentStreamId s) (myClientId s) (serverClientId s)
    (isFirefox s) (onMessageCallback s) (onStreamCallback s)
    (onPeerStateCallback s) (healthCheckIntervals s) (queuedIceCandidates s)
    (processedCandidates s) (viewerAudioTracks s) (viewerAudioElements s)
    (pcs s) (channels s) (timers s) (nextHandle s) (trackEnabled s)
    (trackEnded s) (audioElements s) (body s) (trace s).

Definition set_myAddress (v : string) (s : State) : State :=
  Build_State (peerConnections s) (localStream s) (screenStream s)
    (dataChannels s) v (currentStreamId s) (myClientId s) (serverClientId s)
    (isFirefox s) (onMessageCallback s) (onStreamCallback s)
    (onPeerStateCallback s) (healthCheckIntervals s) (queuedIceCandidates s)
    (processedCandidates s) (viewerAudioTracks s) (viewerAudioElements s)
    (pcs s) (channels s) (timers s) (nextHandle s) (trackEnabled s)
    (trackEnded s) (audioElements s) (body s) (trace s).

Definition set_currentStreamId (v : string) (s : State) : State :=
  Build_State (peerConnections s) (localStream s) (screenStream s)
    (dataChannels s) (myAddress s) v (myClientId s) (serverClientId s)
    (isFirefox s) (onMessageCallback s) (onStreamCallback s)
    (onPeerStateCallback s) (healthCheckIntervals s) (queuedIceCandidates s)
    (processedCandidates s) (viewerAudioTracks s) (viewerAudioElements s)
    (pcs s) (channels s) (timers s) (nextHandle s) (trackEnabled s)
    (trackEnded s) (audioElements s) (body s) (trace s).

Definition set_myClientId (v : string) (s : State) : State :=
  Build_State (peerConnections s) (localStream s) (screenStream s)
    (dataChannels s) (myAddress s) (currentStreamId s) v (serverClientId s)
    (isFirefox s) (onMessageCallback s) (onStreamCallback s)
    (onPeerStateCallback s) (healthCheckIntervals s) (queuedIceCandidates s)
    (processedCandidates s) (viewerAudioTracks s) (viewerAudioElements s)
    (pcs s) (channels s) (timers s) (nextHandle s) (trackEnabled s)
    (trackEnded s) (audioElements s) (body s) (trace s).

Definition set_serverClientId (v : string) (s : State) : State :=
  Build_State (peerConnections s) (localStream s) (screenStream s)
    (dataChannels s) (myAddress s) (currentStreamId s) (myClientId s) v
    (isFirefox s) (onMessageCallback s) (onStreamCallback s)
    (onPeerStateCallback s) (healthCheckIntervals s) (queuedIceCandidates s)
    (processedCandidates s) (viewerAudioTracks s) (viewerAudioElements s)
    (pcs s) (channels s) (timers s) (nextHandle s) (trackEnabled s)
    (trackEnded s) (audioElements s) (body s) (trace s).

Definition set_onMessageCallback (v : bool) (s : State) : State :=
  Build_State (peerConnections s) (localStream s) (screenStream s)
    (dataChannels s) (myAddress s) (currentStreamId s) (myClientId s)
    (serverClientId s) (isFirefox s) v (onStreamCallback s)
    (onPeerStateCallback s) (healthCheckIntervals s) (queuedIceCandidates s)
    (processedCandidates s) (viewerAudioTracks s) (viewerAudioElements s)
    (pcs s) (channels s) (timers s) (nextHandle s) (trackEnabled s)
    (trackEnded s) (audioElements s) (body s) (trace s).

Definition set_onStreamCallback (v : bool) (s : State) : State :=
  Build_State (peerConnections s) (localStream s) (screenStream s)
    (dataChannels s) (myAddress s) (currentStreamId s) (myClientId s)
    (serverClientId s) (isFirefox s) (onMessageCallback s) v
    (onPeerStateCallback s) (healthCheckIntervals s) (queuedIceCandidates s)
    (processedCandidates s) (viewerAudioTracks s) (viewerAudioElements s)
    (pcs s) (channels s) (timers s) (nextHandle s) (trackEnabled s)
    (trackEnded s) (audioElements s) (body s) (trace s).

Definition set_onPeerStateCallback (v : bool) (s : State) : State :=
  Build_State (peerConnections s) (localStream s) (screenStream s)
    (dataChannels s) (myAddress s) (currentStreamId s) (myClientId s)
    (serverClientId s) (isFirefox s) (onMessageCallback s) (onStreamCallback
    s) v (healthCheckIntervals s) (queuedIceCandidates s)
    (processedCandidates s) (viewerAudioTracks s) (viewerAudioElements s)
    (pcs s) (channels s) (timers s) (nextHandle s) (trackEnabled s)
    (trackEnded s) (audioElements s) (body s) (trace s).

Definition set_healthCheckIntervals (v : gmap string Handle) (s : State) : State :=
  Build_State (peerConnections s) (localStream s) (screenStream s)
    (dataChannels s) (myAddress s) (currentStreamId s) (myClientId s)
    (serverClientId s) (isFirefox s) (onMessageCallback s) (onStreamCallback
    s) (onPeerStateCallback s) v (queuedIceCandidates s)
    (processedCandidates s) (viewerAudioTracks s) (viewerAudioElements s)
    (pcs s) (channels s) (timers s) (nextHandle s) (trackEnabled s)
    (trackEnded s) (audioElements s) (body s) (trace s).

Definition set_queuedIceCandidates (v : gmap string (list RTCIceCandidateInit)) (s : State) : State :=
  Build_State (peerConnections s) (localStream s) (screenStream s)
    (dataChannels s) (myAddress s) (currentStreamId s) (myClientId s)
    (serverClientId s) (isFirefox s) (onMessageCallback s) (onStreamCallback
    s) (onPeerStateCallback s) (healthCheckIntervals s) v
    (processedCandidates s) (viewerAudioTracks s) (viewerAudioElements s)
    (pcs s) (channels s) (timers s) (nextHandle s) (trackEnabled s)
    (trackEnded s) (audioElements s) (body s) (trace s).

Definition set_processedCandidates (v : gmap string (gset string)) (s : State) : State :=
  Build_State (peerConnections s) (localStream s) (screenStream s)
    (dataChannels s) (myAddress s) (currentStreamId s) (myClientId s)
    (serverClientId s) (isFirefox s) (onMessageCallback s) (onStreamCallback
    s) (onPeerStateCallback s) (healthCheckIntervals s) (queuedIceCandidates
    s) v (viewerAudioTracks s) (viewerAudioElements s) (pcs s) (channels s)
    (timers s) (nextHandle s) (trackEnabled s) (trackEnded s) (audioElements
    s) (body s) (trace s).

Definition set_viewerAudioTracks (v : gmap string MediaStreamTrack) (s : State) : State :=
  Build_State (peerConnections s) (localStream s) (screenStream s)
    (dataChannels s) (myAddress s) (currentStreamId s) (myClientId s)
    (serverClientId s) (isFirefox s) (onMessageCallback s) (onStreamCallback
    s) (onPeerStateCallback s) (healthCheckIntervals s) (queuedIceCandidates
    s) (processedCandidates s) v (viewerAudioElements s) (pcs s) (channels
    s) (timers s) (nextHandle s) (trackEnabled s) (trackEnded s)
    (audioElements s) (body s) (trace s).

Definition set_viewerAudioElements (v : gmap string Handle) (s : State) : State :=
  Build_State (peerConnections s) (localStream s) (screenStream s)
    (dataChannels s) (myAddress s) (currentStreamId s) (myClientId s)
    (serverClientId s) (isFirefox s) (onMessageCallback s) (onStreamCallback
    s) (onPeerStateCallback s) (healthCheckIntervals s) (queuedIceCandidates
    s) (processedCandidates s) (viewerAudioTracks s) v (pcs s) (channels s)
    (timers s) (nextHandle s) (trackEnabled s) (trackEnded s) (audioElements
    s) (body s) (trace s).

Definition set_pcs (v : gmap Handle RTCPeerConnection) (s : State) : State :=
  Build_State (peerConnections s) (localStream s) (screenStream s)
    (dataChannels s) (myAddress s) (currentStreamId s) (myClientId s)
    (serverClientId s) (isFirefox s) (onMessageCallback s) (onStreamCallback
    s) (onPeerStateCallback s) (healthCheckIntervals s) (queuedIceCandidates
    s) (processedCandidates s) (viewerAudioTracks s) (viewerAudioElements s)
    v (channels s) (timers s) (nextHandle s) (trackEnabled s) (trackEnded s)
    (audioElements s) (body s) (trace s).

Definition set_channels (v : gmap Handle RTCDataChannel) (s : State) : State :=
  Build_State (peerConnections s) (localStream s) (screenStream s)
    (dataChannels s) (myAddress s) (currentStreamId s) (myClientId s)
    (serverClientId s) (isFirefox s) (onMessageCallback s) (onStreamCallback
    s) (onPeerStateCallback s) (healthCheckIntervals s) (queuedIceCandidates
    s) (processedCandidates s) (viewerAudioTracks s) (viewerAudioElements s)
    (pcs s) v (timers s) (nextHandle s) (trackEnabled s) (trackEnded s)
    (audioElements s) (body s) (trace s).

Definition set_timers (v : gmap Handle TimerCallback) (s : State) : State :=
  Build_State (peerConnections s) (localStream s) (screenStream s)
    (dataChannels s) (myAddress s) (currentStreamId s) (myClientId s)
    (serverClientId s) (isFirefox s) (onMessageCallback s) (onStreamCallback
    s) (onPeerStateCallback s) (healthCheckIntervals s) (queuedIceCandidates
    s) (processedCandidates s) (viewerAudioTracks s) (viewerAudioElements s)
    (pcs s) (channels s) v (nextHandle s) (trackEnabled s) (trackEnded s)
    (audioElements s) (body s) (trace s).

Definition set_nextHandle (v : Handle) (s : State) : State :=
  Build_State (peerConnections s) (localStream s) (screenStream s)
    (dataChannels s) (myAddress s) (currentStreamId s) (myClientId s)
    (serverClientId s) (isFirefox s) (onMessageCallback s) (onStreamCallback
    s) (onPeerStateCallback s) (healthCheckIntervals s) (queuedIceCandidates
    s) (processedCandidates s) (viewerAudioTracks s) (viewerAudioElements s)
    (pcs s) (channels s) (timers s) v (trackEnabled s) (trackEnded s)
    (audioElements s) (body s) (trace s).

Definition set_trackEnabled (v : gmap nat bool) (s : State) : State :=
  Build_State (peerConnections s) (localStream s) (screenStream s)
    (dataChannels s) (myAddress s) (currentStreamId s) (myClientId s)
    (serverClientId s) (isFirefox s) (onMessageCallback s) (onStreamCallback
    s) (onPeerStateCallback s) (healthCheckIntervals s) (queuedIceCandidates
    s) (processedCandidates s) (viewerAudioTracks s) (viewerAudioElements s)
    (pcs s) (channels s) (timers s) (nextHandle s) v (trackEnded s)
    (audioElements s) (body s) (trace s).

Definition set_trackEnded (v : gset nat) (s : State) : State :=
  Build_State (peerConnections s) (localStream s) (screenStream s)
    (dataChannels s) (myAddress s) (currentStreamId s) (myClientId s)
    (serverClientId s) (isFirefox s) (onMessageCallback s) (onStreamCallback
    s) (onPeerStateCallback s) (healthCheckIntervals s) (queuedIceCandidates
    s) (processedCandidates s) (viewerAudioTracks s) (viewerAudioElements s)
    (pcs s) (channels s) (timers s) (nextHandle s) (trackEnabled s) v
    (audioElements s) (body s) (trace s).

Definition set_audioElements (v : gmap Handle HTMLAudioElement) (s : State) : State :=
  Build_State (peerConnections s) (localStream s) (screenStream s)
    (dataChannels s) (myAddress s) (currentStreamId s) (myClientId s)
    (serverClientId s) (isFirefox s) (onMessageCallback s) (onStreamCallback
    s) (onPeerStateCallback s) (healthCheckIntervals s) (queuedIceCandidates
    s) (processedCandidates s) (viewerAudioTracks s) (viewerAudioElements s)
    (pcs s) (channels s) (timers s) (nextHandle s) (trackEnabled s)
    (trackEnded s) v (body s) (trace s).

Definition set_body (v : list Handle) (s : State) : State :=
  Build_State (peerConnections s) (localStream s) (screenStream s)
    (dataChannels s) (myAddress s) (currentStreamId s) (myClientId s)
    (serverClientId s) (isFirefox s) (onMessageCallback s) (onStreamCallback
    s) (onPeerStateCallback s) (healthCheckIntervals s) (queuedIceCandidates
    s) (processedCandidates s) (viewerAudioTracks s) (viewerAudioElements s)
    (pcs s) (channels s) (timers s) (nextHandle s) (trackEnabled s)
    (trackEnded s) (audioElements s) v (trace s).

Definition set_trace (v : list Effect) (s : State) : State :=
  Build_State (peerConnections s) (localStream s) (screenStream s)
    (dataChannels s) (myAddress s) (currentStreamId s) (myClientId s)
    (serverClientId s) (isFirefox s) (onMessageCallback s) (onStreamCallback
    s) (onPeerStateCallback s) (healthCheckIntervals s) (queuedIceCandidates
    s) (processedCandidates s) (viewerAudioTracks s) (viewerAudioElements s)
    (pcs s) (channels s) (timers s) (nextHandle s) (trackEnabled s)
    (trackEnded s) (audioElements s) (body s) v.

(** ** Primitives *)

(** The completion of a call: a normal return or a thrown [Error]. *)
Inductive Completion (A : Type) : Type :=
| Returned (a : A)
| Threw (message : string).
Arguments Returned {A} a.
Arguments Threw {A} message.

(** How the browser settles a promise the service awaits (or a call that
    may throw): supplied by the environment. *)
Inductive Settled (A : Type) : Type :=
| Resolves (a : A)
| Rejects (message : string).
Arguments Resolves {A} a.
Arguments Rejects {A} message.

Definition emit (e : Effect) (s : State) : State :=
  set_trace (trace s ++ [e]) s.

(** In-place mutation of the connection behind a handle. *)
Definition updatePc (h : Handle) (f : RTCPeerConnection → RTCPeerConnection)
    (s : State) : State :=
  set_pcs (alter f h (pcs s)) s.

(** [this.peerConnections.get(peerId)], with the object it refers to. *)
Definition getPc (peerId : string) (s : State) : option (Handle * RTCPeerConnection) :=
  match peerConnections s !! peerId with
  | Some h =>
      match pcs s !! h with
      | Some pc => Some (h, pc)
      | None => None
      end
  | None => None
  end.

(** [new ...()]: a fresh handle. *)
Definition fresh (s : State) : Handle * State :=
  (nextHandle s, set_nextHandle (S (nextHandle s)) s).

(** [setTimeout(cb, ...)] and [setInterval(cb, ...)]: the timer id. *)
Definition setTimer (cb : TimerCallback) (s : State) : Handle * State :=
  let '(id, s) := fresh s in
  (id, set_timers (<[id := cb]> (timers s)) s).

(** [clearTimeout(id)] and [clearInterval(id)]. *)
Definition clearTimer (id : Handle) (s : State) : State :=
  set_timers (delete id (timers s)) s.

(** *** Browser side of the connection methods

    Whether a call succeeds is decided by the environment; these are the
    state changes of a successful call. *)

Definition pc_setRemoteDescription (d : RTCSessionDescriptionInit)
    (pc : RTCPeerConnection) : RTCPeerConnection :=
  {| pc_peerId := pc_peerId pc;
     pc_connectionTimeout := pc_connectionTimeout pc;
     signalingState := match sdp_type d with
                       | offer => have_remote_offer
                       | answer => stable
                       | pranswer => have_remote_pranswer
                       end;
     connectionState := connectionState pc;
     iceConnectionState := iceConnectionState pc;
     localDescription := localDescription pc;
     remoteDescription := Some d;
     getTransceivers := getTransceivers pc |}.

Definition pc_setLocalDescription (d : RTCSessionDescriptionInit)
    (pc : RTCPeerConnection) : RTCPeerConnection :=
  {| pc_peerId := pc_peerId pc;
     pc_connectionTimeout := pc_connectionTimeout pc;
     signalingState := match sdp_type d with
                       | offer => have_local_offer
                       | answer => stable
                       | pranswer => have_local_pranswer
                       end;
     connectionState := connectionState pc;
     iceConnectionState := iceConnectionState pc;
     localDescription := Some d;
     remoteDescription := remoteDescription pc;
     getTransceivers := getTransceivers pc |}.

(** [pc.close()]. *)
Definition pc_close (pc : RTCPeerConnection) : RTCPeerConnection :=
  {| pc_peerId := pc_peerId pc;
     pc_connectionTimeout := pc_connectionTimeout pc;
     signalingState := signaling_closed;
     connectionState := state_closed;
     iceConnectionState := ice_closed;
     localDescription := localDescription pc;
     remoteDescription := remoteDescription pc;
     getTransceivers := getTransceivers pc |}.

Definition pc_set_connectionState (st : RTCPeerConnectionState)
    (pc : RTCPeerConnection) : RTCPeerConnection :=
  {| pc_peerId := pc_peerId pc;
     pc_connectionTimeout := pc_connectionTimeout pc;
     signalingState := signalingState pc;
     connectionState := st;
     iceConnectionState := iceConnectionState pc;
     localDescription := localDescription pc;
     remoteDescription := remoteDescription pc;
     getTransceivers := getTransceivers pc |}.

Definition pc_set_iceConnectionState (st : RTCIceConnectionState)
    (pc : RTCPeerConnection) : RTCPeerConnection :=
  {| pc_peerId := pc_peerId pc;
     pc_connectionTimeout := pc_connectionTimeout pc;
     signalingState := signalingState pc;
     connectionState := connectionState pc;
     iceConnectionState := st;
     localDescription := localDescription pc;
     remoteDescription := remoteDescription pc;
     getTransceivers := getTransceivers pc |}.

Definition pc_set_transceivers (ts : list RTCRtpTransceiver)
    (pc : RTCPeerConnection) : RTCPeerConnection :=
  {| pc_peerId := pc_peerId pc;
     pc_connectionTimeout := pc_connectionTimeout pc;
     signalingState := signalingState pc;
     connectionState := connectionState pc;
     iceConnectionState := iceConnectionState pc;
     localDescription := localDescription pc;
     remoteDescription := remoteDescription pc;
     getTransceivers := ts |}.

(** [pc.addTrack(track, stream)]: a new sending transceiver.  (The reuse
    of an idle transceiver by the browser is not modelled.) *)
Definition pc_addTrack (t : MediaStreamTrack) (pc : RTCPeerConnection)
    : RTCPeerConnection :=
  pc_set_transceivers
    (getTransceivers pc ++
       [{| receiver_kind := track_kind t; direction := sendrecv;
           sender_track := Some t |}]) pc.

(** [pc.addTransceiver(kind, { direction })]. *)
Definition pc_addTransceiver (k : TrackKind) (d : RTCRtpTransceiverDirection)
    (pc : RTCPeerConnection) : RTCPeerConnection :=
  pc_set_transceivers
    (getTransceivers pc ++
       [{| receiver_kind := k; direction := d; sender_track := None |}]) pc.

Definition set_sender_track (t : option MediaStreamTrack)
    (tr : RTCRtpTransceiver) : RTCRtpTransceiver :=
  {| receiver_kind := receiver_kind tr; direction := direction tr;
     sender_track := t |}.

(** ** Strings as JavaScript sees them *)

(** [s.split(sep)] for a one-character separator. *)
Fixpoint split (sep : ascii) (s : string) : list string :=
  match s with
  | EmptyString => [""]
  | String a r =>
      if Ascii.eqb a sep then "" :: split sep r
      else match split sep r with
           | w :: ws => String a w :: ws
           | [] => [String a ""]
           end
  end.

Definition is_digit (a : ascii) : bool :=
  let n := nat_of_ascii a in Nat.leb 48 n && Nat.leb n 57.

Definition is_hex_digit (a : ascii) : bool :=
  let n := nat_of_ascii a in
  is_digit a || (Nat.leb 65 n && Nat.leb n 70) || (Nat.leb 97 n && Nat.leb n 102).

(** White space skipped by [parseInt] (the ASCII part of it). *)
Definition is_white_space (a : ascii) : bool :=
  let n := nat_of_ascii a in
  (Nat.leb 9 n && Nat.leb n 13) || Nat.eqb n 32.

Fixpoint trimStart (s : string) : string :=
  match s with
  | String a r => if is_white_space a then trimStart r else s
  | EmptyString => s
  end.

(** [isNaN(parseInt(s))]: no digit after the optional sign and the
    optional [0x] prefix. *)
Definition parseInt_isNaN (s : string) : bool :=
  let s := trimStart s in
  let s := match s with
           | String "+" r | String "-" r => r
           | _ => s
           end in
  match s with
  | String "0" (String ("x" | "X") r) =>
      match r with
      | String d _ => negb (is_hex_digit d)
      | EmptyString => true
      end
  | String d _ => negb (is_digit d)
  | EmptyString => true
  end.

(** [hay.includes(needle)]. *)
Fixpoint includes (needle hay : string) : bool :=
  String.prefix needle hay ||
  match hay with
  | String _ r => includes needle r
  | EmptyString => false
  end.

Definition nonempty (s : string) : bool := negb (String.eqb s "").

(** [isValidFirefoxCandidate]: at least eight space-separated parts,
    with the fields Firefox insists on. *)
Definition isValidFirefoxCandidate (cand : string) : bool :=
  match split " " cand with
  | p0 :: p1 :: p2 :: p3 :: p4 :: p5 :: p6 :: p7 :: _ =>
      let hasFoundation := nonempty p0 in
      let hasComponent := nonempty p1 && negb (parseInt_isNaN p1) in
      let hasProtocol := nonempty p2 && (String.eqb p2 "UDP" || String.eqb p2 "TCP") in
      let hasPriority := nonempty p3 && negb (parseInt_isNaN p3) in
      let hasAddress := nonempty p4 in
      let hasPort := nonempty p5 && negb (parseInt_isNaN p5) in
      let hasType := String.eqb p6 "typ" in
      let hasCandidateType :=
        nonempty p7 &&
        bool_decide (p7 ∈ ["host"; "srflx"; "prflx"; "relay"]) in
      hasFoundation && hasComponent && hasProtocol && hasPriority &&
      hasAddress && hasPort && hasType && hasCandidateType
  | _ => false
  end.

Example firefox_candidate_ok :
  isValidFirefoxCandidate "842163049 1 UDP 1677729535 10.0.0.1 5000 typ srflx raddr 0.0.0.0"
  = true.
Proof. vm_compute. reflexivity. Qed.

Example firefox_candidate_lowercase_udp :
  isValidFirefoxCandidate "842163049 1 udp 1677729535 10.0.0.1 5000 typ srflx" = false.
Proof. vm_compute. reflexivity. Qed.

(** ** The ICE candidate queue *)

(** [processQueuedIceCandidates(peerId)].  Each [pc.addIceCandidate] of
    the loop is inside its own [try]/[catch]: a rejection is logged and
    the loop goes on, so the loop is the sequence of the calls. *)
Definition processQueuedIceCandidates (peerId : string) (s : State) : State :=
  match queuedIceCandidates s !! peerId with
  | None | Some [] => s
  | Some queuedCandidates =>
      match getPc peerId s with
      | None => s
      | Some (h, pc) =>
          match remoteDescription pc with
          | None => s
          | Some _ =>
              let s := foldl (λ s c, emit (PcAddIceCandidate h c) s) s
                         queuedCandidates in
              set_queuedIceCandidates (delete peerId (queuedIceCandidates s)) s
          end
      end
  end.

(** [addIceCandidate(peerId, candidate)].  [added] is how the browser
    settles the direct [pc.addIceCandidate(candidate)], if it is reached. *)
Definition addIceCandidate (peerId : string) (c : RTCIceCandidateInit)
    (added : Settled unit) (s : State) : State :=
  match getPc peerId s with
  | None => s
  | Some (h, pc) =>
      let candidateFingerprint := candidateFingerprint c in
      let '(processedSet, s) :=
        match processedCandidates s !! peerId with
        | Some set => (set, s)
        | None =>
            (∅, set_processedCandidates (<[peerId := ∅]> (processedCandidates s)) s)
        end in
      if decide (candidateFingerprint ∈ processedSet) then s
      else
        let s := set_processedCandidates
                   (<[peerId := processedSet ∪ {[candidateFingerprint]}]>
                      (processedCandidates s)) s in
        match remoteDescription pc with
        | None =>
            let queue := default [] (queuedIceCandidates s !! peerId) in
            set_queuedIceCandidates
              (<[peerId := queue ++ [c]]> (queuedIceCandidates s)) s
        | Some _ =>
            if isFirefox s && truthy (candidate c) &&
               negb (isValidFirefoxCandidate (template id (candidate c)))
            then s
            else
              let s := emit (PcAddIceCandidate h c) s in
              match added with
              | Resolves _ => s
              | Rejects message =>
                  if isFirefox s && includes "InvalidStateError" message
                  then (setTimer (IceRetry h c) s).2
                  else s
              end
        end
  end.

(** ** Offer/answer *)

(** [createOffer(peerId)].  [created] settles [pc.createOffer], [applied]
    the first [pc.setLocalDescription]; on Firefox [modifiedSdp] is what
    [optimizeSDPForFirefox(offer.sdp)] returns (a regular-expression
    rewrite of the SDP text, which is opaque here) and [reapplied] settles
    the second [pc.setLocalDescription]. *)
Definition createOffer (peerId : string)
    (created : Settled RTCSessionDescriptionInit) (applied : Settled unit)
    (modifiedSdp : string) (reapplied : Settled unit) (s : State)
    : Completion RTCSessionDescriptionInit * State :=
  match getPc peerId s with
  | None => (Threw "Peer connection not found", s)
  | Some (h, pc) =>
      let rethrow message :=
        if isFirefox s then Threw ("Firefox offer creation failed: " +:+ message)
        else Threw message in
      match created with
      | Rejects message => (rethrow message, s)
      | Resolves o =>
          let s := emit (PcSetLocalDescription h o) s in
          match applied with
          | Rejects message => (rethrow message, s)
          | Resolves _ =>
              let s := updatePc h (pc_setLocalDescription o) s in
              if isFirefox s && nonempty (sdp o) &&
                 negb (String.eqb modifiedSdp (sdp o))
              then
                let modifiedOffer := {| sdp_type := sdp_type o; sdp := modifiedSdp |} in
                let s := emit (PcSetLocalDescription h modifiedOffer) s in
                match reapplied with
                | Rejects message => (rethrow message, s)
                | Resolves _ =>
                    (Returned modifiedOffer,
                     updatePc h (pc_setLocalDescription modifiedOffer) s)
                end
              else (Returned o, s)
          end
      end
  end.

(** [createAnswer(peerId, offer)].  [applied] settles
    [pc.setRemoteDescription(offer)], [created] settles [pc.createAnswer]
    and [appliedLocal] settles [pc.setLocalDescription(answer)]. *)
Definition createAnswer (peerId : string) (o : RTCSessionDescriptionInit)
    (applied : Settled unit) (created : Settled RTCSessionDescriptionInit)
    (appliedLocal : Settled unit) (s : State)
    : Completion RTCSessionDescriptionInit * State :=
  match getPc peerId s with
  | None => (Threw "Peer connection not found", s)
  | Some (h, pc) =>
      if decide (signalingState pc = signaling_closed)
      then (Threw "Cannot create answer - peer connection is closed", s)
      else
        let afterRemote : Completion unit * State :=
          if decide (signalingState pc = stable ∨ signalingState pc = have_local_offer)
          then
            let s := emit (PcSetRemoteDescription h o) s in
            match applied with
            | Rejects message => (Threw message, s)
            | Resolves _ =>
                let s := updatePc h (pc_setRemoteDescription o) s in
                (Returned (), processQueuedIceCandidates peerId s)
            end
          else (Returned (), s) in
        match afterRemote with
        | (Threw message, s) => (Threw message, s)
        | (Returned _, s) =>
            match created with
            | Rejects message => (Threw message, s)
            | Resolves a =>
                let s := emit (PcSetLocalDescription h a) s in
                match appliedLocal with
                | Rejects message => (Threw message, s)
                | Resolves _ =>
                    (Returned a, updatePc h (pc_setLocalDescription a) s)
                end
            end
        end
  end.

(** [handleAnswer(peerId, answer)].  [applied] settles
    [pc.setRemoteDescription(answer)]. *)
Definition handleAnswer (peerId : string) (a : RTCSessionDescriptionInit)
    (applied : Settled unit) (s : State) : Completion unit * State :=
  match getPc peerId s with
  | None => (Threw ("Peer connection not found for peerId: " +:+ peerId), s)
  | Some (h, pc) =>
      if decide (signalingState pc ≠ have_local_offer) then
        if decide (signalingState pc = stable) then (Returned (), s)
        else if decide (signalingState pc = signaling_closed) then (Returned (), s)
        else (Threw ("Cannot set answer - peer connection in " +:+
                     show_signalingState (signalingState pc) +:+ " state"), s)
      else
        let s := emit (PcSetRemoteDescription h a) s in
        match applied with
        | Rejects message => (Threw message, s)
        | Resolves _ =>
            let s := updatePc h (pc_setRemoteDescription a) s in
            (Returned (), processQueuedIceCandidates peerId s)
        end
  end.

(** [renegotiate(peerId)]: a new offer, sent through [onMessageCallback]
    with [isRenegotiation: true].  [created] settles [pc.createOffer] and
    [applied] settles [pc.setLocalDescription]. *)
Definition renegotiate (peerId : string)
    (created : Settled RTCSessionDescriptionInit) (applied : Settled unit)
    (s : State) : Completion unit * State :=
  match getPc peerId s with
  | None => (Returned (), s)
  | Some (h, pc) =>
      match created with
      | Rejects message => (Threw message, s)
      | Resolves o =>
          let s := emit (PcSetLocalDescription h o) s in
          match applied with
          | Rejects message => (Threw message, s)
          | Resolves _ =>
              let s := updatePc h (pc_setLocalDescription o) s in
              (Returned (),
               if onMessageCallback s
               then emit (CbMessage (webrtc_offer (myClientId s) peerId o
                                       (currentStreamId s) true)) s
               else s)
          end
      end
  end.

(** ** Local media: tracks, screen share *)

(** [m.forEach((v, k) => ...)] over a [Map] of the service.  The bodies
    used below touch only the object [v] refers to, so the order of the
    iteration does not show in the result. *)
Definition forEach {V} (m : gmap string V) (body : string → V → State → State)
    (s : State) : State :=
  foldl (λ s kv, body kv.1 kv.2 s) s (map_to_list m).

(** [tracks.forEach(track => track.enabled = enabled)]. *)
Definition setEnabled (enabled : bool) (tracks : list MediaStreamTrack)
    (s : State) : State :=
  foldl (λ s t, set_trackEnabled (<[track_id t := enabled]> (trackEnabled s)) s)
    s tracks.

(** [tracks.forEach(track => track.stop())]. *)
Definition stopTracks (tracks : list MediaStreamTrack) (s : State) : State :=
  foldl (λ s t, set_trackEnded (trackEnded s ∪ {[track_id t]}) s) s tracks.

(** [track.enabled]; a track is enabled when it is created. *)
Definition enabled (t : MediaStreamTrack) (s : State) : bool :=
  default true (trackEnabled s !! track_id t).

(** [track.readyState === 'live']. *)
Definition live (t : MediaStreamTrack) (s : State) : bool :=
  bool_decide (track_id t ∉ trackEnded s).

(** [s.track?.kind === 'video'] for the sender of a transceiver. *)
Definition is_video_sender (tr : RTCRtpTransceiver) : bool :=
  match sender_track tr with
  | Some t => is_kind video t
  | None => false
  end.

(** [pc.getSenders().find(s => s.track?.kind === 'video')] followed by a
    successful [sender.replaceTrack(newTrack)]. *)
Fixpoint replaceVideoSender (newTrack : MediaStreamTrack)
    (trs : list RTCRtpTransceiver) : list RTCRtpTransceiver :=
  match trs with
  | [] => []
  | tr :: rest =>
      if is_video_sender tr then set_sender_track (Some newTrack) tr :: rest
      else tr :: replaceVideoSender newTrack rest
  end.

(** The body of the loop of [replaceVideoTrack] for one connection.
    [replaced] settles [sender.replaceTrack(newTrack)]; a rejection is
    caught and logged. *)
Definition replaceVideoTrackOn (newTrack : MediaStreamTrack)
    (replaced : Handle → Settled unit) (h : Handle) (s : State) : State :=
  match replaced h with
  | Resolves _ =>
      updatePc h (λ pc, pc_set_transceivers
                          (replaceVideoSender newTrack (getTransceivers pc)) pc) s
  | Rejects _ => s
  end.

(** [replaceVideoTrack(newTrack)]. *)
Definition replaceVideoTrack (newTrack : MediaStreamTrack)
    (replaced : Handle → Settled unit) (s : State) : State :=
  forEach (peerConnections s)
    (λ peerId h, replaceVideoTrackOn newTrack replaced h) s.

(** [stopScreenShare()]. *)
Definition stopScreenShare (replaced : Handle → Settled unit) (s : State) : State :=
  match screenStream s with
  | Some screen =>
      let s := stopTracks (getTracks screen) s in
      let s := set_screenStream None s in
      match localStream s with
      | Some ls =>
          match getVideoTracks ls with
          | videoTrack :: _ => replaceVideoTrack videoTrack replaced s
          | [] => s
          end
      | None => s
      end
  | None => s
  end.

(** [initializeScreenShare()].  [captured] settles [getDisplayMedia]. *)
Definition initializeScreenShare (captured : Settled MediaStream)
    (replaced : Handle → Settled unit) (s : State)
    : Completion MediaStream * State :=
  match captured with
  | Rejects message => (Threw message, s)
  | Resolves screen =>
      let s := set_screenStream (Some screen) s in
      match getVideoTracks screen with
      | screenTrack :: _ =>
          (Returned screen, replaceVideoTrack screenTrack replaced s)
      | [] => (Returned screen, s)
      end
  end.

(** [toggleAudio(enabled)]. *)
Definition toggleAudio (enabled : bool) (s : State) : State :=
  match localStream s with
  | Some ls => setEnabled enabled (getAudioTracks ls) s
  | None => s
  end.

(** [toggleVideo(enabled)]. *)
Definition toggleVideo (enabled : bool) (s : State) : State :=
  match localStream s, screenStream s with
  | Some ls, None => setEnabled enabled (getVideoTracks ls) s
  | _, _ => s
  end.

(** ** Session set-up *)

(** [setCallbacks]: which callbacks the UI layer registered. *)
Definition setCallbacks (onMessage onStream onPeerState : bool) (s : State) : State :=
  set_onPeerStateCallback onPeerState
    (set_onStreamCallback onStream (set_onMessageCallback onMessage s)).

(** [setClientInfo(address, streamId, clientId?)].  [generated] is the
    random [client-...] id made up when no (non-empty) id is given. *)
Definition setClientInfo (address streamId : string) (clientId : JsOpt string)
    (generated : string) (s : State) : State :=
  let s := set_currentStreamId streamId (set_myAddress address s) in
  if truthy clientId
  then set_myClientId (template id clientId)
         (set_serverClientId (template id clientId) s)
  else set_myClientId generated s.

(** [setServerClientId(clientId)]. *)
Definition setServerClientId (clientId : string) (s : State) : State :=
  set_myClientId clientId (set_serverClientId clientId s).

(** What [getUserMedia] answers: a stream or a [DOMException]. *)
Inductive MediaResult :=
| GotStream (m : MediaStream)
| MediaError (name message : string).

(** The [getUserMedia] attempts of [initializeLocalStream]: one on other
    browsers; on Firefox a second one after a failure, and a third one
    when the first failed with [OverconstrainedError] and the second
    failed too.  [first], [second], [third] are the answers to the
    attempts in the order they are made. *)
Definition acquireUserMedia (firefox : bool) (first second third : MediaResult)
    : MediaResult :=
  if firefox then
    match first with
    | GotStream _ => first
    | MediaError name _ =>
        if String.eqb name "OverconstrainedError" then
          match second with
          | GotStream _ => second
          | MediaError _ _ => third
          end
        else second
    end
  else first.

(** The [catch] of [initializeLocalStream]: the message of the error
    thrown to the caller. *)
Definition classifyMediaError (firefox : bool) (name message : string) : string :=
  if firefox && String.eqb name "AbortError"
  then "Firefox camera initialization interrupted. Please try again."
  else if firefox && String.eqb name "NotReadableError"
  then "Camera is in use by another Firefox tab or application. Please close other tabs using the camera."
  else if firefox && includes "Requested device not found" message
  then "Camera not found. Please check that your camera is connected and not in use by other applications."
  else if String.eqb name "NotAllowedError"
  then "Camera access was denied. Please allow camera permissions and refresh the page."
  else if String.eqb name "NotFoundError"
  then "No camera found. Please connect a camera and try again."
  else if String.eqb name "NotReadableError"
  then "Camera is already in use by another application."
  else if String.eqb name "OverconstrainedError"
  then "Camera does not support the requested settings. Please try again."
  else message.

(** [initializeLocalStream(constraints)]. *)
Definition initializeLocalStream (first second third : MediaResult) (s : State)
    : Completion MediaStream * State :=
  match acquireUserMedia (isFirefox s) first second third with
  | GotStream m =>
      let s := set_localStream (Some m) s in
      (Returned m, setEnabled true (getTracks m) s)
  | MediaError name message =>
      (Threw (classifyMediaError (isFirefox s) name message), s)
  end.

(** ** The registry *)

Definition new_RTCPeerConnection (peerId : string) (connectionTimeout : Handle)
    (trs : list RTCRtpTransceiver) : RTCPeerConnection :=
  {| pc_peerId := peerId;
     pc_connectionTimeout := connectionTimeout;
     signalingState := stable;
     connectionState := state_new;
     iceConnectionState := ice_new;
     localDescription := None;
     remoteDescription := None;
     getTransceivers := trs |}.

Definition sending (t : MediaStreamTrack) : RTCRtpTransceiver :=
  {| receiver_kind := track_kind t; direction := sendrecv; sender_track := Some t |}.

(** "Add local stream tracks" of [createPeerConnection]: the transceivers
    the new connection starts with.  With a local stream, its first audio
    track and the active video track (screen share takes priority), both
    forced enabled; without one, receive-side transceivers for a viewer. *)
Definition addLocalTracks (isInitiator : bool) (s : State)
    : list RTCRtpTransceiver * State :=
  match localStream s with
  | Some ls =>
      let activeVideoTrack :=
        match screenStream s with
        | Some screen => head (getVideoTracks screen)
        | None => head (getVideoTracks ls)
        end in
      let audioTrack := head (getAudioTracks ls) in
      (from_option (λ a, [sending a]) [] audioTrack ++
       from_option (λ v, [sending v]) [] activeVideoTrack,
       setEnabled true (option_list audioTrack ++ option_list activeVideoTrack) s)
  | None =>
      if negb isInitiator
      then ([ {| receiver_kind := audio; direction := sendrecv; sender_track := None |};
              {| receiver_kind := video; direction := recvonly; sender_track := None |} ],
            s)
      else ([], s)
  end.

(** [new RTCPeerConnection(...)] with its first transceivers. *)
Definition storePc (h : Handle) (pc : RTCPeerConnection) (s : State) : State :=
  set_pcs (<[h := pc]> (pcs s)) s.

(** "Create data channel for low-latency communication": by the
    initiator; the other side waits for [ondatachannel]. *)
Definition createDataChannel (peerId : string) (isInitiator : bool) (s : State) : State :=
  if isInitiator then
    let '(ch, s) := fresh s in
    set_channels (<[ch := {| channel_peerId := peerId;
                             readyState := channel_connecting |}]> (channels s)) s
  else s.

(** [this.peerConnections.set(peerId, pc)]. *)
Definition storePeerConnection (peerId : string) (h : Handle) (s : State) : State :=
  set_peerConnections (<[peerId := h]> (peerConnections s)) s.

(** [createPeerConnection(peerId, isInitiator)].  There is no look-up of
    [peerId] in the registry; the source says:
    "Duplicate connection checking should be handled upstream".

    Left out: the [checkTrack] interval (1 s, cleared after 10 s) and the
    transceiver dump (3 s), which only write to the console. *)
Definition createPeerConnection (peerId : string) (isInitiator : bool) (s : State)
    : Handle * State :=
  let '(h, s) := fresh s in
  let '(trs, s) := addLocalTracks isInitiator s in
  (* connection timeout: 10 s, 15 s on Firefox *)
  let '(connectionTimeout, s) := setTimer (ConnectionTimeout h) s in
  let s := storePc h (new_RTCPeerConnection peerId connectionTimeout trs) s in
  let s := createDataChannel peerId isInitiator s in
  (* store the peer connection with the exact peerId *)
  (h, storePeerConnection peerId h s).

(** The clean-up of a viewer's [<audio>] element, as [removePeer] and
    [cleanupViewerAudioElement] both do it. *)
Definition pause_and_detach (el : HTMLAudioElement) : HTMLAudioElement :=
  {| element_id := element_id el; srcObject := None; muted := muted el;
     paused := true |}.

(** [audioEl.pause(); audioEl.srcObject = null;] and the removal from
    the document. *)
Definition detachAudioElement (el : Handle) (s : State) : State :=
  set_body (List.filter (λ e, negb (Nat.eqb e el)) (body s))
    (set_audioElements (alter pause_and_detach el (audioElements s)) s).

Definition removeAudioElement (peerId : string) (s : State) : State :=
  match viewerAudioElements s !! peerId with
  | Some el =>
      set_viewerAudioElements (delete peerId (viewerAudioElements s))
        (detachAudioElement el s)
  | None => s
  end.

(** [cleanupViewerAudioElement(peerId)]. *)
Definition cleanupViewerAudioElement (peerId : string) (s : State) : State :=
  removeAudioElement peerId s.

Definition channel_close (c : RTCDataChannel) : RTCDataChannel :=
  {| channel_peerId := channel_peerId c; readyState := channel_closed |}.

(** The blocks of [removePeer], in the order of the source. *)

(** [if (pc) { pc.close(); this.peerConnections.delete(peerId); }] *)
Definition closePeerConnection (peerId : string) (s : State) : State :=
  match peerConnections s !! peerId with
  | Some h => set_peerConnections (delete peerId (peerConnections s))
                (updatePc h pc_close s)
  | None => s
  end.

(** [if (channel) { channel.close(); this.dataChannels.delete(peerId); }] *)
Definition closeDataChannel (peerId : string) (s : State) : State :=
  match dataChannels s !! peerId with
  | Some ch => set_dataChannels (delete peerId (dataChannels s))
                 (set_channels (alter channel_close ch (channels s)) s)
  | None => s
  end.

(** "Clean up health check interval".  (Timer ids are non-zero in a
    browser, so [if (healthCheckInterval)] tests that one is stored.) *)
Definition clearHealthCheck (peerId : string) (s : State) : State :=
  match healthCheckIntervals s !! peerId with
  | Some healthCheckInterval =>
      set_healthCheckIntervals (delete peerId (healthCheckIntervals s))
        (clearTimer healthCheckInterval s)
  | None => s
  end.

(** "Clean up queued ICE candidates" and "processed candidates tracking". *)
Definition forgetCandidates (peerId : string) (s : State) : State :=
  set_processedCandidates (delete peerId (processedCandidates s))
    (set_queuedIceCandidates (delete peerId (queuedIceCandidates s)) s).

(** "Clean up viewer audio tracks". *)
Definition forgetViewerAudioTrack (peerId : string) (s : State) : State :=
  set_viewerAudioTracks (delete peerId (viewerAudioTracks s)) s.

(** [removePeer(peerId)]. *)
Definition removePeer (peerId : string) (s : State) : State :=
  let s := closePeerConnection peerId s in
  let s := closeDataChannel peerId s in
  let s := clearHealthCheck peerId s in
  let s := forgetCandidates peerId s in
  let s := removeAudioElement peerId s in
  forgetViewerAudioTrack peerId s.

(** ** Viewer audio back-channel *)

(** [transceivers.find(t => t.receiver.track?.kind === 'audio' &&
    (t.direction === 'sendrecv' || t.direction === 'sendonly'))],
    with the position of the transceiver found. *)
Definition is_sending_audio (tr : RTCRtpTransceiver) : bool :=
  match receiver_kind tr, direction tr with
  | audio, (sendrecv | sendonly) => true
  | _, _ => false
  end.

Fixpoint find_index {A} (p : A → bool) (l : list A) : option (nat * A) :=
  match l with
  | [] => None
  | x :: r =>
      if p x then Some (0, x)
      else match find_index p r with
           | Some (i, y) => Some (S i, y)
           | None => None
           end
  end.

(** The attachment step of [enableViewerAudio]: reuse the audio
    transceiver found when its sender has no track, else [pc.addTrack]. *)
Definition attachAudio (audioTrack : MediaStreamTrack) (pc : RTCPeerConnection)
    : RTCPeerConnection :=
  match find_index is_sending_audio (getTransceivers pc) with
  | Some (i, audioTransceiver) =>
      match sender_track audioTransceiver with
      | None =>
          pc_set_transceivers
            (<[i := set_sender_track (Some audioTrack) audioTransceiver]>
               (getTransceivers pc)) pc
      | Some _ => pc_addTrack audioTrack pc
      end
  | None => pc_addTrack audioTrack pc
  end.

(** [enableViewerAudio(peerId, audioTrack, stream)].  [attached] settles
    the [replaceTrack] or [addTrack] call, [created] and [applied] the
    two calls of [renegotiate]. *)
Definition enableViewerAudio (peerId : string) (audioTrack : MediaStreamTrack)
    (attached : Settled unit) (created : Settled RTCSessionDescriptionInit)
    (applied : Settled unit) (s : State) : Completion unit * State :=
  match getPc peerId s with
  | None => (Returned (), s)
  | Some (h, pc) =>
      let s := set_viewerAudioTracks (<[peerId := audioTrack]> (viewerAudioTracks s)) s in
      match attached with
      | Rejects message => (Threw message, s)
      | Resolves _ =>
          let s := updatePc h (attachAudio audioTrack) s in
          renegotiate peerId created applied s
      end
  end.

(** [pc.removeTrack(sender)] for the sender carrying [t]: the sender
    loses its track and the transceiver stops sending. *)
Fixpoint pc_removeTrack (t : MediaStreamTrack) (trs : list RTCRtpTransceiver)
    : list RTCRtpTransceiver :=
  match trs with
  | [] => []
  | tr :: rest =>
      if decide (sender_track tr = Some t)
      then {| receiver_kind := receiver_kind tr;
              direction := match direction tr with
                           | sendrecv => recvonly
                           | sendonly => inactive
                           | d => d
                           end;
              sender_track := None |} :: rest
      else tr :: pc_removeTrack t rest
  end.

(** [disableViewerAudio(peerId)]. *)
Definition disableViewerAudio (peerId : string)
    (created : Settled RTCSessionDescriptionInit) (applied : Settled unit)
    (s : State) : Completion unit * State :=
  match getPc peerId s with
  | None => (Returned (), s)
  | Some (h, pc) =>
      match viewerAudioTracks s !! peerId with
      | None => (Returned (), s)
      | Some audioTrack =>
          let s := updatePc h (λ pc, pc_set_transceivers
                                       (pc_removeTrack audioTrack (getTransceivers pc)) pc) s in
          let s := stopTracks [audioTrack] s in
          let s := set_viewerAudioTracks (delete peerId (viewerAudioTracks s)) s in
          renegotiate peerId created applied s
      end
  end.

(** ** Callbacks installed by [createPeerConnection]

    Each takes the handle of the connection its closure captured. *)

(** The blocks of [pc.ontrack], in the order of the source. *)

(** "Force track to be active and check connection stats": a look at the
    statistics 2 s after a video track arrived. *)
Definition checkVideoStats (h : Handle) (track : MediaStreamTrack) (s : State) : State :=
  (setTimer (VideoStatsCheck h track) s).2.

(** [new Audio()], appended to the document and playing [stream]. *)
Definition createAudioElement (peerId : string) (stream : MediaStream)
    (is_paused : bool) (s : State) : State :=
  let '(el, s) := fresh s in
  set_viewerAudioElements (<[peerId := el]> (viewerAudioElements s))
    (set_audioElements
       (<[el := {| element_id := "viewer-audio-" +:+ peerId;
                   srcObject := Some stream;
                   muted := false;
                   paused := is_paused |}]> (audioElements s))
       (set_body (body s ++ [el]) s)).

(** "Update existing audio element with new stream". *)
Definition updateAudioElement (existingAudioEl : Handle) (stream : MediaStream)
    (is_paused : bool) (s : State) : State :=
  set_audioElements
    (alter (λ el, {| element_id := element_id el;
                     srcObject := Some stream;
                     muted := false;
                     paused := is_paused |})
       existingAudioEl (audioElements s)) s.

(** "Handle viewer audio tracks - auto-play for broadcaster": only with a
    local stream (this side is the broadcaster) and a stream in the event. *)
Definition playViewerAudio (peerId : string) (stream0 : option MediaStream)
    (played : Settled unit) (s : State) : State :=
  let is_paused := match played with Resolves _ => false | Rejects _ => true end in
  match localStream s, stream0 with
  | Some _, Some stream =>
      match viewerAudioElements s !! peerId with
      | None => createAudioElement peerId stream is_paused s
      | Some existingAudioEl => updateAudioElement existingAudioEl stream is_paused s
      end
  | _, _ => s
  end.

(** [this.onStreamCallback(peerId, event.streams[0])], if both are there. *)
Definition notifyStream (peerId : string) (stream0 : option MediaStream)
    (s : State) : State :=
  match onStreamCallback s, stream0 with
  | true, Some stream => emit (CbStream peerId stream) s
  | _, _ => s
  end.

(** [pc.ontrack], for [event.track] and [event.streams[0]].  [played]
    settles [audio.play()].

    Left out: the mute/unmute/ended handlers put on the track (console
    only, but for [onunmute], which is [track_onunmute] below), the
    [checkUnmute] interval, and the retry of [audio.play()] on the
    next click. *)
Definition ontrack (h : Handle) (track : MediaStreamTrack)
    (stream0 : option MediaStream) (played : Settled unit) (s : State) : State :=
  match pcs s !! h with
  | None => s
  | Some pc =>
      let peerId := pc_peerId pc in
      let s :=
        match track_kind track with
        | video => checkVideoStats h track s
        | audio => playViewerAudio peerId stream0 played s
        end in
      notifyStream peerId stream0 s
  end.

(** [track.onunmute] of a received track. *)
Definition track_onunmute (h : Handle) (track : MediaStreamTrack)
    (stream0 : option MediaStream) (s : State) : State :=
  match pcs s !! h with
  | None => s
  | Some pc =>
      match track_kind track, onStreamCallback s, stream0 with
      | video, true, Some stream => emit (CbStream (pc_peerId pc) stream) s
      | _, _, _ => s
      end
  end.

(** [a || b || c] on strings: the first non-empty one, else the last. *)
Definition or_else (a b : string) : string := if nonempty a then a else b.

(** [pc.onicecandidate], for [event.candidate]. *)
Definition onicecandidate (h : Handle) (c : option RTCIceCandidateInit)
    (s : State) : State :=
  match pcs s !! h, c, onMessageCallback s with
  | Some pc, Some c, true =>
      emit (CbMessage (webrtc_ice (currentStreamId s)
                         (or_else (serverClientId s)
                            (or_else (myClientId s) (myAddress s)))
                         (pc_peerId pc) c)) s
  | _, _, _ => s
  end.

(** [pc.oniceconnectionstatechange].

    Left out: the Firefox "ICE checking timeout" (10 s), console only. *)
Definition oniceconnectionstatechange (h : Handle) (s : State) : State :=
  match pcs s !! h with
  | None => s
  | Some pc =>
      if decide (iceConnectionState pc = ice_connected ∧ connectionState pc = connecting)
      then if isFirefox s then (setTimer (FirefoxNudge h) s).2 else s
      else s
  end.

(** ** The registry, continued: [removePeer] is above; here is the
    connection state callback that calls it. *)

(** The blocks of [pc.onconnectionstatechange], in the order of the
    source. *)

(** "Clear timeout on successful connection", and on failure. *)
Definition clearConnectionTimeout (pc : RTCPeerConnection) (s : State) : State :=
  match connectionState pc with
  | connected | failed => clearTimer (pc_connectionTimeout pc) s
  | _ => s
  end.

(** "Additional debugging for stuck connections": a look at the
    statistics 5 s later. *)
Definition watchStuckConnection (h : Handle) (pc : RTCPeerConnection) (s : State)
    : State :=
  match connectionState pc with
  | connecting => (setTimer (StuckConnecting h) s).2
  | _ => s
  end.

(** "Set up periodic connection health monitoring" and "store interval
    for cleanup": a new interval at every call, stored under [peerId]
    over the one stored before. *)
Definition startHealthCheck (h : Handle) (peerId : string) (s : State) : State :=
  let '(healthCheckInterval, s) := setTimer (HealthCheck h) s in
  set_healthCheckIntervals
    (<[peerId := healthCheckInterval]> (healthCheckIntervals s)) s.

(** [this.onPeerStateCallback(peerId, pc.connectionState)], if set. *)
Definition reportPeerState (peerId : string) (st : RTCPeerConnectionState)
    (s : State) : State :=
  if onPeerStateCallback s then emit (CbPeerState peerId st) s else s.

(** [if (failed || disconnected) this.removePeer(peerId)]. *)
Definition removeLostPeer (peerId : string) (st : RTCPeerConnectionState)
    (s : State) : State :=
  match st with
  | failed | disconnected => removePeer peerId s
  | _ => s
  end.

(** [pc.onconnectionstatechange]. *)
Definition onconnectionstatechange (h : Handle) (s : State) : State :=
  match pcs s !! h with
  | None => s
  | Some pc =>
      let peerId := pc_peerId pc in
      let s := clearConnectionTimeout pc s in
      let s := watchStuckConnection h pc s in
      let s := startHealthCheck h peerId s in
      let s := reportPeerState peerId (connectionState pc) s in
      removeLostPeer peerId (connectionState pc) s
  end.

(** ** Timers *)

(** The timer [id] fires.  A timeout is gone once it has fired; an
    interval stays until it is cleared. *)
Definition fireTimer (id : Handle) (s : State) : State :=
  match timers s !! id with
  | None => s
  | Some cb =>
      let s := if is_interval cb then s else clearTimer id s in
      match cb with
      | ConnectionTimeout h =>
          match pcs s !! h with
          | Some pc =>
              if decide (connectionState pc = connecting ∨
                         iceConnectionState pc = ice_checking)
              then if isFirefox s then emit (PcRestartIce h) s else s
              else s
          | None => s
          end
      | HealthCheck h =>
          match pcs s !! h with
          | Some pc =>
              match connectionState pc with
              | connected => emit (PcGetStats h) s
              | failed | state_closed => clearTimer id s
              | _ => s
              end
          | None => s
          end
      | StuckConnecting h | FirefoxNudge h =>
          match pcs s !! h with
          | Some pc =>
              match connectionState pc with
              | connecting => emit (PcGetStats h) s
              | _ => s
              end
          | None => s
          end
      | VideoStatsCheck h track =>
          let s := if negb (enabled track s) && live track s
                   then setEnabled true [track] s else s in
          emit (PcGetStats h) s
      | IceRetry h c => emit (PcAddIceCandidate h c) s
      end
  end.

(** ** Data channels *)

(** [pc.ondatachannel]: the channel opened by the remote side, set up
    with the [peerId] of the connection. *)
Definition ondatachannel (h : Handle) (s : State) : State :=
  match pcs s !! h with
  | None => s
  | Some pc =>
      let '(ch, s) := fresh s in
      set_channels (<[ch := {| channel_peerId := pc_peerId pc;
                               readyState := channel_connecting |}]> (channels s)) s
  end.

(** [channel.onopen]. *)
Definition channel_onopen (ch : Handle) (s : State) : State :=
  match channels s !! ch with
  | None => s
  | Some c =>
      let s := set_channels
                 (<[ch := {| channel_peerId := channel_peerId c;
                             readyState := channel_open |}]> (channels s)) s in
      set_dataChannels (<[channel_peerId c := ch]> (dataChannels s)) s
  end.

(** [channel.onclose]. *)
Definition channel_onclose (ch : Handle) (s : State) : State :=
  match channels s !! ch with
  | None => s
  | Some c =>
      let s := set_channels (alter channel_close ch (channels s)) s in
      set_dataChannels (delete (channel_peerId c) (dataChannels s)) s
  end.

(** ** Statistics and teardown *)

(** [getStreamStats(peerId)]. *)
Definition getStreamStats (peerId : string) (s : State) : State :=
  match getPc peerId s with
  | Some (h, _) => emit (PcGetStats h) s
  | None => s
  end.

(** [this.m.forEach(...)] for a map [m] of the service. *)
Definition forEachOf {V} (m : State → gmap string V)
    (body : string → V → State → State) (s : State) : State :=
  forEach (m s) body s.

(** The blocks of [cleanup], in the order of the source. *)

Definition stopLocalStream (s : State) : State :=
  match localStream s with
  | Some ls => set_localStream None (stopTracks (getTracks ls) s)
  | None => s
  end.

Definition stopScreenStream (s : State) : State :=
  match screenStream s with
  | Some screen => set_screenStream None (stopTracks (getTracks screen) s)
  | None => s
  end.

Definition closeChannel (ch : Handle) (s : State) : State :=
  set_channels (alter channel_close ch (channels s)) s.

(** [cleanup()].  [generated] is the new random client id. *)
Definition cleanup (generated : string) (s : State) : State :=
  (* stop all streams *)
  let s := stopLocalStream s in
  let s := stopScreenStream s in
  (* close all peer connections *)
  let s := forEachOf peerConnections (λ _ h, updatePc h pc_close) s in
  let s := set_peerConnections ∅ s in
  (* close all data channels *)
  let s := forEachOf dataChannels (λ _ ch, closeChannel ch) s in
  let s := set_dataChannels ∅ s in
  (* clear all health check intervals *)
  let s := forEachOf healthCheckIntervals (λ _ interval, clearTimer interval) s in
  let s := set_healthCheckIntervals ∅ s in
  let s := set_queuedIceCandidates ∅ s in
  let s := set_processedCandidates ∅ s in
  (* clean up all viewer audio elements *)
  let s := forEachOf viewerAudioElements (λ _ el, detachAudioElement el) s in
  let s := set_viewerAudioElements ∅ s in
  (* clear viewer audio tracks *)
  let s := forEachOf viewerAudioTracks (λ _ track, stopTracks [track]) s in
  let s := set_viewerAudioTracks ∅ s in
  (* reset client identifiers *)
  let s := set_currentStreamId "" s in
  let s := set_serverClientId "" s in
  set_myClientId generated s.

(** A freshly constructed service, on Firefox or not. *)
Definition initial (firefox : bool) : State :=
  {| peerConnections := ∅; localStream := None; screenStream := None;
     dataChannels := ∅; myAddress := ""; currentStreamId := "";
     myClientId := ""; serverClientId := ""; isFirefox := firefox;
     onMessageCallback := false; onStreamCallback := false;
     onPeerStateCallback := false; healthCheckIntervals := ∅;
     queuedIceCandidates := ∅; processedCandidates := ∅;
     viewerAudioTracks := ∅; viewerAudioElements := ∅;
     pcs := ∅; channels := ∅; timers := ∅; nextHandle := 1;
     trackEnabled := ∅; trackEnded := ∅; audioElements := ∅; body := [];
     trace := [] |}.

(** ** Everything that can happen to the service *)

(** Calls of the public methods by the UI layer, and callbacks from the
    browser.  The arguments that are not arguments of the method are the
    answers of the browser to the calls the method makes.

    The browser fires the state callbacks of a connection only while the
    connection is not closed, and [ScreenTrackEnded] stands for the
    [onended] handler [initializeScreenShare] puts on the screen track.

    Left out: [updateStreamQuality], [sendDataChannelMessage],
    [broadcastDataChannelMessage] and [initializeViewerMic], which change
    nothing in [State]. *)
Inductive Event :=
| SetCallbacks (onMessage onStream onPeerState : bool)
| SetClientInfo (address streamId : string) (clientId : JsOpt string)
    (generated : string)
| SetServerClientId (clientId : string)
| InitializeLocalStream (first second third : MediaResult)
| InitializeScreenShare (captured : Settled MediaStream)
    (replaced : Handle → Settled unit)
| CreatePeerConnection (peerId : string) (isInitiator : bool)
| CreateOffer (peerId : string) (created : Settled RTCSessionDescriptionInit)
    (applied : Settled unit) (modifiedSdp : string) (reapplied : Settled unit)
| CreateAnswer (peerId : string) (o : RTCSessionDescriptionInit)
    (applied : Settled unit) (created : Settled RTCSessionDescriptionInit)
    (appliedLocal : Settled unit)
| HandleAnswer (peerId : string) (a : RTCSessionDescriptionInit)
    (applied : Settled unit)
| AddIceCandidate (peerId : string) (c : RTCIceCandidateInit)
    (added : Settled unit)
| ReplaceVideoTrack (newTrack : MediaStreamTrack)
    (replaced : Handle → Settled unit)
| StopScreenShare (replaced : Handle → Settled unit)
| ToggleAudio (enabled : bool)
| ToggleVideo (enabled : bool)
| EnableViewerAudio (peerId : string) (audioTrack : MediaStreamTrack)
    (attached : Settled unit) (created : Settled RTCSessionDescriptionInit)
    (applied : Settled unit)
| DisableViewerAudio (peerId : string)
    (created : Settled RTCSessionDescriptionInit) (applied : Settled unit)
| CleanupViewerAudioElement (peerId : string)
| RemovePeer (peerId : string)
| GetStreamStats (peerId : string)
| Cleanup (generated : string)
| OnTrack (pc : Handle) (track : MediaStreamTrack) (stream0 : option MediaStream)
    (played : Settled unit)
| TrackUnmute (pc : Handle) (track : MediaStreamTrack)
    (stream0 : option MediaStream)
| OnIceCandidate (pc : Handle) (c : option RTCIceCandidateInit)
| IceConnectionStateChange (pc : Handle) (st : RTCIceConnectionState)
| ConnectionStateChange (pc : Handle) (st : RTCPeerConnectionState)
| OnDataChannel (pc : Handle)
| ChannelOpen (ch : Handle)
| ChannelClose (ch : Handle)
| ScreenTrackEnded (replaced : Handle → Settled unit)
| TimerFires (id : Handle).

(** Is the connection behind [h] still open? *)
Definition is_open (h : Handle) (s : State) : bool :=
  match pcs s !! h with
  | Some pc => negb (bool_decide (signalingState pc = signaling_closed))
  | None => false
  end.

Definition step (e : Event) (s : State) : State :=
  match e with
  | SetCallbacks m st ps => setCallbacks m st ps s
  | SetClientInfo a sid cid g => setClientInfo a sid cid g s
  | SetServerClientId cid => setServerClientId cid s
  | InitializeLocalStream r1 r2 r3 => (initializeLocalStream r1 r2 r3 s).2
  | InitializeScreenShare captured replaced =>
      (initializeScreenShare captured replaced s).2
  | CreatePeerConnection p i => (createPeerConnection p i s).2
  | CreateOffer p created applied m reapplied =>
      (createOffer p created applied m reapplied s).2
  | CreateAnswer p o applied created appliedLocal =>
      (createAnswer p o applied created appliedLocal s).2
  | HandleAnswer p a applied => (handleAnswer p a applied s).2
  | AddIceCandidate p c added => addIceCandidate p c added s
  | ReplaceVideoTrack t replaced => replaceVideoTrack t replaced s
  | StopScreenShare replaced => stopScreenShare replaced s
  | ToggleAudio b => toggleAudio b s
  | ToggleVideo b => toggleVideo b s
  | EnableViewerAudio p t attached created applied =>
      (enableViewerAudio p t attached created applied s).2
  | DisableViewerAudio p created applied =>
      (disableViewerAudio p created applied s).2
  | CleanupViewerAudioElement p => cleanupViewerAudioElement p s
  | RemovePeer p => removePeer p s
  | GetStreamStats p => getStreamStats p s
  | Cleanup g => cleanup g s
  | OnTrack h t st played => if is_open h s then ontrack h t st played s else s
  | TrackUnmute h t st => if is_open h s then track_onunmute h t st s else s
  | OnIceCandidate h c => if is_open h s then onicecandidate h c s else s
  | IceConnectionStateChange h st =>
      if is_open h s
      then oniceconnectionstatechange h (updatePc h (pc_set_iceConnectionState st) s)
      else s
  | ConnectionStateChange h st =>
      if is_open h s
      then onconnectionstatechange h (updatePc h (pc_set_connectionState st) s)
      else s
  | OnDataChannel h => if is_open h s then ondatachannel h s else s
  | ChannelOpen ch => channel_onopen ch s
  | ChannelClose ch => channel_onclose ch s
  | ScreenTrackEnded replaced => stopScreenShare replaced s
  | TimerFires id => fireTimer id s
  end.

(** A run of the service: the events, first to last. *)
Definition run (es : list Event) (s : State) : State :=
  foldl (λ s e, step e s) s es.

(** The connections on which [pc.restartIce()] was called. *)
Definition restartIceCalls (s : State) : list Handle :=
  omap (λ e, match e with PcRestartIce h => Some h | _ => None end) (trace s).

Definition ok : Settled unit := Resolves ().

Example first_connection_handle :
  let s := (createPeerConnection "v1" true (initial false)).2 in
  peerConnections s !! "v1" = Some 1.
Proof. vm_compute. reflexivity. Qed.

(** * Properties *)

(** ** Deduplication of ICE candidates *)

Lemma dedupKey_fingerprint c c' :
  dedupKey c = dedupKey c' → candidateFingerprint c = candidateFingerprint c'.
Proof.
  unfold dedupKey, candidateFingerprint. intros [=-> -> ->]. reflexivity.
Qed.

(** A candidate whose fingerprint is recorded for the peer is dropped:
    the state, trace included, is as before. *)
Lemma addIceCandidate_seen peerId c added s set :
  processedCandidates s !! peerId = Some set →
  candidateFingerprint c ∈ set →
  addIceCandidate peerId c added s = s.
Proof.
  intros Hset Hin. unfold addIceCandidate.
  destruct (getPc peerId s) as [[h pc]|]; [|reflexivity].
  rewrite Hset. rewrite decide_True by assumption. reflexivity.
Qed.

(** [addIceCandidate] leaves the registry and the connections alone. *)
Lemma addIceCandidate_getPc peerId c added s q :
  getPc q (addIceCandidate peerId c added s) = getPc q s.
Proof.
  unfold addIceCandidate.
  destruct (getPc peerId s) as [[h pc]|]; [|reflexivity].
  destruct (processedCandidates s !! peerId) as [set|];
    (case_decide; [reflexivity|]);
    destruct (remoteDescription pc); simpl;
    repeat (match goal with |- context [if ?b then _ else _] => destruct b end);
    try destruct added; simpl;
    repeat (match goal with |- context [if ?b then _ else _] => destruct b end);
    reflexivity.
Qed.

(** Once delivered to a known peer, the fingerprint is recorded. *)
Lemma addIceCandidate_records peerId c added s h pc :
  getPc peerId s = Some (h, pc) →
  ∃ set, processedCandidates (addIceCandidate peerId c added s) !! peerId = Some set
         ∧ candidateFingerprint c ∈ set.
Proof.
  intros Hpc. unfold addIceCandidate. rewrite Hpc.
  destruct (processedCandidates s !! peerId) as [set|] eqn:Hset.
  - case_decide as Hin; [eauto|].
    exists (set ∪ {[candidateFingerprint c]}). split; [|set_solver].
    destruct (remoteDescription pc); simpl;
    repeat (match goal with |- context [if ?b then _ else _] => destruct b end);
    try destruct added; simpl;
    repeat (match goal with |- context [if ?b then _ else _] => destruct b end);
    simpl; apply lookup_insert_eq.
  - rewrite decide_False by set_solver.
    exists (∅ ∪ {[candidateFingerprint c]}). split; [|set_solver].
    destruct (remoteDescription pc); simpl;
    repeat (match goal with |- context [if ?b then _ else _] => destruct b end);
    try destruct added; simpl;
    repeat (match goal with |- context [if ?b then _ else _] => destruct b end);
    simpl; apply lookup_insert_eq.
Qed.

(** C7.  Redelivery is idempotent.  A candidate whose deduplication key
    (candidate string, sdpMLineIndex, sdpMid) equals that of a candidate
    already processed for the peer is dropped: delivering it changes
    nothing, neither the queue, nor the calls made on the connection, nor
    anything else of the state.  In particular a second delivery right
    after the first has no effect. *)
Theorem redelivery_is_idempotent peerId c c' added' s :
  dedupKey c = dedupKey c' →
  (∀ set, processedCandidates s !! peerId = Some set →
          candidateFingerprint c ∈ set →
          addIceCandidate peerId c' added' s = s)
  ∧ (∀ added,
       addIceCandidate peerId c' added' (addIceCandidate peerId c added s)
       = addIceCandidate peerId c added s).
Proof.
  intros Hkey. apply dedupKey_fingerprint in Hkey. split.
  - intros set Hset Hin. rewrite Hkey in Hin.
    eapply addIceCandidate_seen; eassumption.
  - intros added. destruct (getPc peerId s) as [[h pc]|] eqn:Hpc.
    + destruct (addIceCandidate_records peerId c added s h pc Hpc)
        as (set & Hset & Hin).
      rewrite Hkey in Hin. eapply addIceCandidate_seen; eassumption.
    + assert (Hs : addIceCandidate peerId c added s = s)
        by (unfold addIceCandidate; rewrite Hpc; reflexivity).
      rewrite Hs. unfold addIceCandidate. rewrite Hpc. reflexivity.
Qed.

Definition host_candidate (ufrag : JsOpt string) : RTCIceCandidateInit :=
  {| candidate := Val "candidate:1 1 UDP 2122260223 192.168.1.7 54321 typ host";
     sdpMLineIndex := Val 0%N; sdpMid := Val "0"; usernameFragment := ufrag |}.

Lemma redelivery_is_idempotent_witness :
  let s := (createPeerConnection "viewer-1" false (initial false)).2 in
  addIceCandidate "viewer-1" (host_candidate (Val "u1")) ok
    (addIceCandidate "viewer-1" (host_candidate Undefined) ok s)
  = addIceCandidate "viewer-1" (host_candidate Undefined) ok s.
Proof.
  intros s.
  apply (redelivery_is_idempotent "viewer-1" (host_candidate Undefined)
           (host_candidate (Val "u1")) ok s).
  reflexivity.
Defined.

(** ** The ICE candidate queue *)

(** The queue and the set of fingerprints of a peer; both are empty when
    the map has no entry. *)
Definition queue (peerId : string) (s : State) : list RTCIceCandidateInit :=
  default [] (queuedIceCandidates s !! peerId).

Definition seen (peerId : string) (s : State) : gset string :=
  default ∅ (processedCandidates s !! peerId).

(** The candidates of a delivery that [addIceCandidate] lets through: the
    first one of each fingerprint not seen before, in arrival order. *)
Fixpoint accepted (seen : gset string) (cs : list RTCIceCandidateInit)
    : list RTCIceCandidateInit :=
  match cs with
  | [] => []
  | c :: r =>
      if decide (candidateFingerprint c ∈ seen) then accepted seen r
      else c :: accepted (seen ∪ {[candidateFingerprint c]}) r
  end.

(** Candidates arriving one after the other for the same peer, each with
    the answer the browser would give to a direct application. *)
Definition deliver (peerId : string) (cs : list (RTCIceCandidateInit * Settled unit))
    (s : State) : State :=
  foldl (λ s ca, addIceCandidate peerId ca.1 ca.2 s) s cs.

Ltac case_ifs :=
  repeat match goal with
         | |- context [if ?b then _ else _] => destruct b
         end.

Lemma accepted_all sn cs :
  NoDup (candidateFingerprint <$> cs) →
  (∀ c, c ∈ cs → candidateFingerprint c ∉ sn) →
  accepted sn cs = cs.
Proof.
  revert sn. induction cs as [|c r IH]; intros sn Hnd Hfresh; [reflexivity|].
  simpl. rewrite decide_False by (apply Hfresh; left).
  f_equal. apply IH.
  - rewrite fmap_cons in Hnd. by apply NoDup_cons in Hnd as [_ ?].
  - intros c' Hc'. rewrite fmap_cons in Hnd. apply NoDup_cons in Hnd as [Hc _].
    rewrite elem_of_union, elem_of_singleton. intros [Hin|Heq].
    + apply (Hfresh c'); [by right|done].
    + apply Hc. rewrite <- Heq. apply list_elem_of_fmap. eauto.
Qed.

(** The fingerprints of the accepted candidates are pairwise different:
    no candidate is let through twice. *)
Lemma accepted_NoDup sn cs :
  NoDup (candidateFingerprint <$> accepted sn cs)
  ∧ (∀ c, c ∈ accepted sn cs → candidateFingerprint c ∉ sn).
Proof.
  revert sn. induction cs as [|c r IH]; intros sn; simpl.
  - split; [constructor|]. intros c Hc. by apply elem_of_nil in Hc.
  - case_decide as Hin; [apply IH|].
    destruct (IH (sn ∪ {[candidateFingerprint c]})) as [Hnd Hfresh].
    split.
    + rewrite fmap_cons. apply NoDup_cons. split; [|done].
      intros Hc. apply list_elem_of_fmap in Hc as (c' & Heq & Hc').
      apply Hfresh in Hc'. set_solver.
    + intros c' Hc'. apply elem_of_cons in Hc' as [->|Hc']; [done|].
      apply Hfresh in Hc'. set_solver.
Qed.

(** One delivery before the remote description is set: the candidate is
    appended to the queue if its fingerprint is new, dropped otherwise;
    nothing is applied. *)
Lemma addIceCandidate_queues peerId c added s h pc :
  getPc peerId s = Some (h, pc) →
  remoteDescription pc = None →
  let s' := addIceCandidate peerId c added s in
  trace s' = trace s
  ∧ queue peerId s' = queue peerId s ++ accepted (seen peerId s) [c]
  ∧ seen peerId s' = seen peerId s ∪ {[candidateFingerprint c]}.
Proof.
  intros Hpc Hrd. unfold addIceCandidate, queue, seen. rewrite Hpc, Hrd. simpl.
  destruct (processedCandidates s !! peerId) as [set|] eqn:Hset; simpl.
  - case_decide as Hin.
    + rewrite Hset. simpl. rewrite app_nil_r. repeat split. set_solver.
    + simpl. rewrite !lookup_insert_eq. simpl. repeat split.
  - rewrite decide_False by set_solver. simpl.
    rewrite !lookup_insert_eq. simpl. rewrite decide_False by set_solver.
    repeat split.
Qed.

Lemma accepted_app sn cs cs' :
  accepted sn (cs ++ cs') =
  accepted sn cs ++
  accepted (sn ∪ list_to_set (candidateFingerprint <$> accepted sn cs)) cs'.
Proof.
  revert sn. induction cs as [|c r IH]; intros sn; simpl.
  - f_equal. set_solver.
  - case_decide as Hin; [apply IH|].
    simpl. f_equal. rewrite IH. do 2 f_equal. set_solver.
Qed.

(** A whole delivery before the remote description is set. *)
Lemma deliver_queues peerId cs s h pc :
  getPc peerId s = Some (h, pc) →
  remoteDescription pc = None →
  let s' := deliver peerId cs s in
  getPc peerId s' = Some (h, pc)
  ∧ trace s' = trace s
  ∧ queue peerId s' = queue peerId s ++ accepted (seen peerId s) cs.*1
  ∧ seen peerId s' =
      seen peerId s ∪ list_to_set (candidateFingerprint <$> accepted (seen peerId s) cs.*1).
Proof.
  revert s. induction cs as [|[c added] r IH]; intros s Hpc Hrd; simpl.
  - rewrite app_nil_r. repeat split; [done|]. set_solver.
  - destruct (addIceCandidate_queues peerId c added s h pc Hpc Hrd)
      as (Htr & Hq & Hseen).
    assert (Hpc' : getPc peerId (addIceCandidate peerId c added s) = Some (h, pc))
      by (rewrite addIceCandidate_getPc; exact Hpc).
    destruct (IH _ Hpc' Hrd) as (Hpc2 & Htr2 & Hq2 & Hseen2).
    unfold deliver in *. simpl in *.
    split; [exact Hpc2|]. split; [congruence|].
    rewrite Hq2, Hseen2, Hq, Hseen. clear.
    case_decide as Hin.
    + rewrite app_nil_r.
      replace (seen peerId s ∪ {[candidateFingerprint c]}) with (seen peerId s)
        by set_solver.
      done.
    + rewrite <- app_assoc. simpl. split; [done|]. set_solver.
Qed.

Lemma trace_foldl_emit {A} (f : A → Effect) (l : list A) s :
  trace (foldl (λ s x, emit (f x) s) s l) = trace s ++ (f <$> l).
Proof.
  revert s. induction l as [|x l IH]; intros s; simpl.
  - by rewrite app_nil_r.
  - rewrite IH. simpl. by rewrite <- app_assoc.
Qed.

Lemma queue_foldl_emit {A} (f : A → Effect) (l : list A) s :
  queuedIceCandidates (foldl (λ s x, emit (f x) s) s l) = queuedIceCandidates s.
Proof. revert s. induction l as [|x l IH]; intros s; simpl; [done|]. by rewrite IH. Qed.

(** The flush, once the remote description is there: every queued
    candidate is applied, in queue order, and the queue is dropped. *)
Lemma processQueuedIceCandidates_flushes peerId s h pc d :
  getPc peerId s = Some (h, pc) →
  remoteDescription pc = Some d →
  let s' := processQueuedIceCandidates peerId s in
  trace s' = trace s ++ (PcAddIceCandidate h <$> queue peerId s)
  ∧ queue peerId s' = [].
Proof.
  intros Hpc Hrd. unfold processQueuedIceCandidates, queue.
  destruct (queuedIceCandidates s !! peerId) as [[|c q]|] eqn:Hq; simpl.
  - rewrite Hq. simpl. by rewrite app_nil_r.
  - rewrite Hpc, Hrd. simpl. rewrite lookup_delete_eq. simpl.
    split; [|done].
    rewrite (trace_foldl_emit (PcAddIceCandidate h) q). simpl.
    by rewrite <- app_assoc.
  - rewrite Hq. simpl. by rewrite app_nil_r.
Qed.

(** Setting the remote description of the registered connection. *)
Lemma getPc_setRemoteDescription peerId s h pc d :
  getPc peerId s = Some (h, pc) →
  getPc peerId (updatePc h (pc_setRemoteDescription d) s)
  = Some (h, pc_setRemoteDescription d pc).
Proof.
  unfold getPc, updatePc. simpl.
  destruct (peerConnections s !! peerId) as [h'|]; [|done].
  destruct (pcs s !! h') as [pc'|] eqn:Hh; [|done].
  intros [= -> ->]. rewrite lookup_alter_eq, Hh. reflexivity.
Qed.

(** The candidates handed to [pc.addIceCandidate] of the connection [h],
    in the order of the calls. *)
Definition appliedCandidates (h : Handle) (s : State) : list RTCIceCandidateInit :=
  omap (λ e, match e with
             | PcAddIceCandidate h' c => if decide (h' = h) then Some c else None
             | _ => None
             end) (trace s).

(** The end-of-candidates indication of one media section: a candidate
    with an empty candidate string. *)
Definition end_of_candidates (index : N) (mid : string) : RTCIceCandidateInit :=
  {| candidate := Val ""; sdpMLineIndex := Val index; sdpMid := Val mid;
     usernameFragment := Undefined |}.

Definition an_offer : RTCSessionDescriptionInit := {| sdp_type := offer; sdp := "v=0 offer" |}.
Definition an_answer : RTCSessionDescriptionInit := {| sdp_type := answer; sdp := "v=0 answer" |}.

(** A broadcaster that created a connection to a viewer and sent it an
    offer: the connection is in [have-local-offer], no remote description. *)
Definition offered : State :=
  (createOffer "viewer-1" (Resolves an_offer) ok "" ok
     (createPeerConnection "viewer-1" true (initial false)).2).2.

(** C1, as stated, fails.  Two different candidates arrive before the
    remote description is set: the end-of-candidates indications of media
    sections 0 and 1.  Both have the fingerprint ['null-candidate'], so
    the second is dropped on arrival: after the answer is applied only the
    first has been handed to the connection, and the second is neither
    queued nor applied. *)
Lemma every_candidate_applied_counterexample :
  let c0 := end_of_candidates 0 "0" in
  let c1 := end_of_candidates 1 "1" in
  let s1 := deliver "viewer-1" [(c0, ok); (c1, ok)] offered in
  let s2 := (handleAnswer "viewer-1" an_answer ok s1).2 in
  (remoteDescription <$> (snd <$> getPc "viewer-1" offered) = Some None)
  ∧ (signalingState <$> (snd <$> getPc "viewer-1" offered) = Some have_local_offer)
  ∧ c0 ≠ c1
  ∧ dedupKey c0 ≠ dedupKey c1
  ∧ queue "viewer-1" s1 = [c0]
  ∧ (remoteDescription <$> (snd <$> getPc "viewer-1" s2) = Some (Some an_answer))
  ∧ appliedCandidates 1 s2 = [c0]
  ∧ queue "viewer-1" s2 = [].
Proof.
  vm_compute. repeat split; discriminate.
Qed.

(** C1, amended.  For a peer whose connection is in the registry and has
    no remote description yet: of the candidates delivered, those whose
    fingerprint was not seen before for the peer are queued, in arrival
    order, and none is applied; the others are dropped.  When the remote
    description is then set, by [handleAnswer] (from [have-local-offer])
    or by [createAnswer] (from [stable] or [have-local-offer]), the calls
    on the connection are [setRemoteDescription] followed at once by
    [addIceCandidate] for every queued candidate, in queue order, once
    each, and the queue of the peer is empty afterwards.  No fingerprint
    is let through twice, and a delivery whose fingerprints are pairwise
    different and new is queued whole. *)
Theorem queued_candidates_applied_in_order peerId cs s h pc :
  getPc peerId s = Some (h, pc) →
  remoteDescription pc = None →
  let s1 := deliver peerId cs s in
  let pending := queue peerId s ++ accepted (seen peerId s) cs.*1 in
  (trace s1 = trace s ∧ queue peerId s1 = pending)
  ∧ (∀ a, signalingState pc = have_local_offer →
       let s2 := (handleAnswer peerId a ok s1).2 in
       trace s2 = trace s ++ PcSetRemoteDescription h a
                               :: (PcAddIceCandidate h <$> pending)
       ∧ queue peerId s2 = [])
  ∧ (∀ o created appliedLocal,
       signalingState pc = stable ∨ signalingState pc = have_local_offer →
       let s2 := (createAnswer peerId o ok created appliedLocal s1).2 in
       trace s2 = trace s ++ PcSetRemoteDescription h o
                               :: (PcAddIceCandidate h <$> pending)
                               ++ match created with
                                  | Resolves a => [PcSetLocalDescription h a]
                                  | Rejects _ => []
                                  end
       ∧ queue peerId s2 = [])
  ∧ NoDup (candidateFingerprint <$> accepted (seen peerId s) cs.*1)
  ∧ (NoDup (candidateFingerprint <$> cs.*1) →
     (∀ c, c ∈ cs.*1 → candidateFingerprint c ∉ seen peerId s) →
     accepted (seen peerId s) cs.*1 = cs.*1).
Proof.
  intros Hpc Hrd s1 pending.
  destruct (deliver_queues peerId cs s h pc Hpc Hrd) as (Hpc1 & Htr1 & Hq1 & _).
  fold s1 in Hpc1, Htr1, Hq1.
  split; [done|].
  assert (Hflush : ∀ d,
    let s' := processQueuedIceCandidates peerId
                (updatePc h (pc_setRemoteDescription d)
                   (emit (PcSetRemoteDescription h d) s1)) in
    trace s' = trace s ++ PcSetRemoteDescription h d
                            :: (PcAddIceCandidate h <$> pending)
    ∧ queue peerId s' = []).
  { intros d.
    pose proof (processQueuedIceCandidates_flushes peerId
      (updatePc h (pc_setRemoteDescription d) (emit (PcSetRemoteDescription h d) s1))
      h (pc_setRemoteDescription d pc) d) as Hfl.
    simpl in Hfl. destruct Hfl as [Htr Hq]; [|done|].
    - apply (getPc_setRemoteDescription peerId (emit (PcSetRemoteDescription h d) s1)).
      exact Hpc1.
    - split; [|exact Hq]. rewrite Htr. simpl. rewrite Htr1.
      rewrite <- app_assoc. simpl. do 3 f_equal. exact Hq1. }
  split; [|split; [|split]].
  - intros a Hst. unfold handleAnswer. rewrite Hpc1.
    rewrite decide_False by (intros Hne; by apply Hne). simpl.
    apply Hflush.
  - intros o created appliedLocal Hst. unfold createAnswer. rewrite Hpc1.
    rewrite decide_False by (destruct Hst as [-> | ->]; discriminate).
    rewrite decide_True by exact Hst. simpl.
    destruct (Hflush o) as [Htr Hq]. simpl in Htr, Hq.
    destruct created as [a|msg]; simpl.
    + destruct appliedLocal; simpl; unfold queue in *; simpl;
        rewrite Htr, <- ?app_assoc; simpl; rewrite <- ?app_assoc; done.
    + rewrite app_nil_r. done.
  - apply accepted_NoDup.
  - apply accepted_all.
Qed.

Lemma queued_candidates_applied_in_order_witness :
  let cs := [(host_candidate Undefined, ok); (end_of_candidates 0 "0", ok);
             (host_candidate (Val "u1"), ok)] in
  let s2 := (handleAnswer "viewer-1" an_answer ok (deliver "viewer-1" cs offered)).2 in
  trace s2 = trace offered ++
    [PcSetRemoteDescription 1 an_answer;
     PcAddIceCandidate 1 (host_candidate Undefined);
     PcAddIceCandidate 1 (end_of_candidates 0 "0")]
  ∧ queue "viewer-1" s2 = [].
Proof.
  intros cs s2.
  destruct (queued_candidates_applied_in_order "viewer-1" cs offered 1
              (pc_setLocalDescription an_offer (new_RTCPeerConnection "viewer-1" 2 []))
              ltac:(vm_compute; reflexivity) ltac:(reflexivity))
    as (_ & Hanswer & _).
  exact (Hanswer an_answer ltac:(reflexivity)).
Defined.

(** ** Answers outside [have-local-offer] *)

(** C3, as stated, fails for an unknown peer: [handleAnswer] throws. *)
Lemma handleAnswer_unknown_peer_counterexample :
  getPc "ghost" (initial false) = None
  ∧ (handleAnswer "ghost" an_answer ok (initial false)).1
    = Threw "Peer connection not found for peerId: ghost".
Proof. split; reflexivity. Qed.

(** The same call on a connection holding a remote offer. *)
Example handleAnswer_have_remote_offer :
  let s := (createAnswer "b" an_offer ok (Rejects "no answer") ok
              (createPeerConnection "b" false (initial false)).2).2 in
  (signalingState <$> (snd <$> getPc "b" s)) = Some have_remote_offer
  ∧ handleAnswer "b" an_answer ok s
    = (Threw "Cannot set answer - peer connection in have-remote-offer state", s).
Proof. vm_compute. split; reflexivity. Qed.

(** C3, amended.  Whenever the peer is unknown or its connection is not
    in [have-local-offer], [handleAnswer] leaves the whole state as it is:
    the answer is not applied and nothing is recorded.  It returns
    normally when the connection is [stable] or [closed], and throws
    "Peer connection not found" when the peer is unknown. *)
Theorem handleAnswer_outside_have_local_offer peerId a applied s :
  (∀ h pc, getPc peerId s = Some (h, pc) → signalingState pc ≠ have_local_offer) →
  (handleAnswer peerId a applied s).2 = s
  ∧ (∀ h pc, getPc peerId s = Some (h, pc) →
       signalingState pc = stable ∨ signalingState pc = signaling_closed →
       (handleAnswer peerId a applied s).1 = Returned ())
  ∧ (getPc peerId s = None →
       (handleAnswer peerId a applied s).1
       = Threw ("Peer connection not found for peerId: " +:+ peerId)).
Proof.
  intros Hstate. unfold handleAnswer.
  destruct (getPc peerId s) as [[h pc]|] eqn:Hpc.
  - specialize (Hstate h pc eq_refl).
    rewrite decide_True by exact Hstate.
    split; [by repeat case_decide|]. split; [|done].
    intros h' pc' [= <- <-] [Hst|Hst]; rewrite Hst; reflexivity.
  - split; [done|]. split; [intros ? ? [=]|done].
Qed.

Lemma handleAnswer_outside_have_local_offer_witness :
  let s := (createPeerConnection "viewer-1" true (initial false)).2 in
  handleAnswer "viewer-1" an_answer ok s = (Returned (), s).
Proof.
  intros s.
  assert (Hpc : getPc "viewer-1" s
                = Some (1, new_RTCPeerConnection "viewer-1" 2 []))
    by (vm_compute; reflexivity).
  destruct (handleAnswer_outside_have_local_offer "viewer-1" an_answer ok s)
    as (Hs & Hret & _).
  - intros h pc. rewrite Hpc. intros [= <- <-]. discriminate.
  - rewrite (surjective_pairing (handleAnswer "viewer-1" an_answer ok s)).
    rewrite Hs, (Hret _ _ Hpc); [reflexivity|]. left. reflexivity.
Defined.

(** ** Toggling video during a screen share *)

(** C10.  While a screen share is active, [toggleVideo] changes nothing:
    the state after the call is the state before it, so every track keeps
    its [enabled] flag. *)
Theorem toggleVideo_during_screen_share enabled_ screen s :
  screenStream s = Some screen →
  toggleVideo enabled_ s = s
  ∧ ∀ t, enabled t (toggleVideo enabled_ s) = enabled t s.
Proof.
  intros Hscreen. unfold toggleVideo. rewrite Hscreen.
  destruct (localStream s); done.
Qed.

Definition camera : MediaStreamTrack := {| track_id := 1; track_kind := video |}.
Definition microphone : MediaStreamTrack := {| track_id := 2; track_kind := audio |}.
Definition display : MediaStreamTrack := {| track_id := 3; track_kind := video |}.
Definition camera_stream : MediaStream :=
  {| stream_id := "local"; getTracks := [microphone; camera] |}.
Definition display_stream : MediaStream :=
  {| stream_id := "screen"; getTracks := [display] |}.

(** A broadcaster with camera and microphone and one viewer connected. *)
Definition broadcasting : State :=
  (createPeerConnection "viewer-1" true
     (initializeLocalStream (GotStream camera_stream) (GotStream camera_stream)
        (GotStream camera_stream) (initial false)).2).2.

Definition all_replaced : Handle → Settled unit := λ _, ok.

Definition sharing : State :=
  (initializeScreenShare (Resolves display_stream) all_replaced broadcasting).2.

Lemma toggleVideo_during_screen_share_witness :
  toggleVideo false sharing = sharing
  ∧ enabled camera (toggleVideo false sharing) = true.
Proof.
  destruct (toggleVideo_during_screen_share false display_stream sharing
              ltac:(reflexivity)) as [Hs Ht].
  split; [exact Hs|]. rewrite Ht. vm_compute. reflexivity.
Defined.

(** ** The registry: one connection per peer id *)

(** C2, as stated, fails: a second [createPeerConnection] for a peer id
    that is in the registry, with no [removePeer] in between, is not
    rejected.  It returns a new connection (handle 4), stores it under the
    peer id in place of the first (handle 1), and leaves the first open. *)
Lemma second_create_not_rejected_counterexample :
  let s1 := (createPeerConnection "viewer-1" true (initial false)).2 in
  let r := createPeerConnection "viewer-1" true s1 in
  peerConnections s1 !! "viewer-1" = Some 1
  ∧ r.1 = 4
  ∧ peerConnections r.2 !! "viewer-1" = Some 4
  ∧ is_open 4 r.2 = true
  ∧ is_open 1 r.2 = true.
Proof. vm_compute. repeat split. Qed.

(** *** Normal forms: what a block writes, field by field *)

(** From [H : s' = set_a va (set_b vb s)], the value of every field of
    [s'] in terms of the fields of [s]. *)
Ltac field_of f H :=
  let E := fresh "E" in pose proof (f_equal f H) as E; simpl in E.

Ltac fields_of H :=
  field_of peerConnections H; field_of localStream H; field_of screenStream H;
  field_of dataChannels H; field_of myAddress H; field_of currentStreamId H;
  field_of myClientId H; field_of serverClientId H; field_of isFirefox H;
  field_of onMessageCallback H; field_of onStreamCallback H;
  field_of onPeerStateCallback H; field_of healthCheckIntervals H;
  field_of queuedIceCandidates H; field_of processedCandidates H;
  field_of viewerAudioTracks H; field_of viewerAudioElements H;
  field_of pcs H; field_of channels H; field_of timers H; field_of nextHandle H;
  field_of trackEnabled H; field_of trackEnded H; field_of audioElements H;
  field_of body H; field_of trace H; clear H.

(** Name the state a block of a method ends in, and read off its fields
    from the normal form [nf] of the block. *)
Ltac stage t nf :=
  let s' := fresh "s" in
  let E := fresh "Es" in
  remember t as s' eqn:E; rewrite nf in E; fields_of E.

(** Rewrite the fields of the intermediate states down to the first. *)
Ltac chase :=
  repeat match goal with
         | |- context [?f ?x] =>
             is_var x;
             lazymatch type of x with State => idtac end;
             match goal with H : f x = _ |- _ => rewrite H end
         end.

Lemma setEnabled_nf b ts s :
  setEnabled b ts s =
  set_trackEnabled (foldl (λ m t, <[track_id t := b]> m) (trackEnabled s) ts) s.
Proof.
  unfold setEnabled. revert s. induction ts as [|t ts IH]; intros s; cbn [foldl].
  - by destruct s.
  - rewrite IH. reflexivity.
Qed.

Lemma stopTracks_nf ts s :
  stopTracks ts s =
  set_trackEnded (foldl (λ m t, m ∪ {[track_id t]}) (trackEnded s) ts) s.
Proof.
  unfold stopTracks. revert s. induction ts as [|t ts IH]; intros s; cbn [foldl].
  - by destruct s.
  - rewrite IH. reflexivity.
Qed.

Lemma addLocalTracks_nf isInitiator s :
  ∃ trs v, addLocalTracks isInitiator s = (trs, set_trackEnabled v s).
Proof.
  unfold addLocalTracks. destruct (localStream s) as [ls|].
  - rewrite setEnabled_nf. eauto.
  - exists (if negb isInitiator
            then [ {| receiver_kind := audio; direction := sendrecv; sender_track := None |};
                   {| receiver_kind := video; direction := recvonly; sender_track := None |} ]
            else []), (trackEnabled s).
    destruct isInitiator; by destruct s.
Qed.

Lemma createPeerConnection_spec peerId isInitiator s :
  let r := createPeerConnection peerId isInitiator s in
  r.1 = nextHandle s
  ∧ peerConnections r.2 = <[peerId := nextHandle s]> (peerConnections s)
  ∧ ∃ trs, pcs r.2 = <[nextHandle s :=
                        new_RTCPeerConnection peerId (S (nextHandle s)) trs]> (pcs s).
Proof.
  unfold createPeerConnection, setTimer, fresh. simpl.
  destruct (addLocalTracks_nf isInitiator (set_nextHandle (S (nextHandle s)) s))
    as (trs & v & ->). simpl.
  unfold createDataChannel, storePeerConnection, storePc, fresh.
  destruct isInitiator; simpl; eauto.
Qed.

Lemma closePeerConnection_nf peerId s :
  closePeerConnection peerId s =
  set_peerConnections (delete peerId (peerConnections s))
    (set_pcs (match peerConnections s !! peerId with
              | Some h => alter pc_close h (pcs s)
              | None => pcs s
              end) s).
Proof.
  unfold closePeerConnection, updatePc.
  destruct (peerConnections s !! peerId) eqn:H; [done|].
  rewrite (delete_id _ _ H). by destruct s.
Qed.

Lemma closeDataChannel_nf peerId s :
  closeDataChannel peerId s =
  set_dataChannels (delete peerId (dataChannels s))
    (set_channels (match dataChannels s !! peerId with
                   | Some ch => alter channel_close ch (channels s)
                   | None => channels s
                   end) s).
Proof.
  unfold closeDataChannel.
  destruct (dataChannels s !! peerId) eqn:H; [done|].
  rewrite (delete_id _ _ H). by destruct s.
Qed.

Lemma clearHealthCheck_nf peerId s :
  clearHealthCheck peerId s =
  set_healthCheckIntervals (delete peerId (healthCheckIntervals s))
    (set_timers (match healthCheckIntervals s !! peerId with
                 | Some id => delete id (timers s)
                 | None => timers s
                 end) s).
Proof.
  unfold clearHealthCheck, clearTimer.
  destruct (healthCheckIntervals s !! peerId) eqn:H; [done|].
  rewrite (delete_id _ _ H). by destruct s.
Qed.

Lemma forgetCandidates_nf peerId s :
  forgetCandidates peerId s =
  set_processedCandidates (delete peerId (processedCandidates s))
    (set_queuedIceCandidates (delete peerId (queuedIceCandidates s)) s).
Proof. reflexivity. Qed.

Lemma removeAudioElement_nf peerId s :
  removeAudioElement peerId s =
  set_viewerAudioElements (delete peerId (viewerAudioElements s))
    (set_body (match viewerAudioElements s !! peerId with
               | Some el => List.filter (λ e, negb (Nat.eqb e el)) (body s)
               | None => body s
               end)
       (set_audioElements (match viewerAudioElements s !! peerId with
                           | Some el => alter pause_and_detach el (audioElements s)
                           | None => audioElements s
                           end) s)).
Proof.
  unfold removeAudioElement, detachAudioElement.
  destruct (viewerAudioElements s !! peerId) eqn:H; [done|].
  rewrite (delete_id _ _ H). by destruct s.
Qed.

(** What [removePeer] does to each part of the state. *)
Lemma removePeer_spec peerId s :
  let s' := removePeer peerId s in
  peerConnections s' = delete peerId (peerConnections s)
  ∧ pcs s' = match peerConnections s !! peerId with
             | Some h => alter pc_close h (pcs s)
             | None => pcs s
             end
  ∧ dataChannels s' = delete peerId (dataChannels s)
  ∧ healthCheckIntervals s' = delete peerId (healthCheckIntervals s)
  ∧ timers s' = match healthCheckIntervals s !! peerId with
                | Some id => delete id (timers s)
                | None => timers s
                end
  ∧ queuedIceCandidates s' = delete peerId (queuedIceCandidates s)
  ∧ processedCandidates s' = delete peerId (processedCandidates s)
  ∧ viewerAudioElements s' = delete peerId (viewerAudioElements s)
  ∧ viewerAudioTracks s' = delete peerId (viewerAudioTracks s)
  ∧ body s' = match viewerAudioElements s !! peerId with
              | Some el => List.filter (λ e, negb (Nat.eqb e el)) (body s)
              | None => body s
              end
  ∧ trace s' = trace s
  ∧ isFirefox s' = isFirefox s
  ∧ nextHandle s' = nextHandle s.
Proof.
  unfold removePeer. cbv zeta.
  stage (closePeerConnection peerId s) closePeerConnection_nf.
  stage (closeDataChannel peerId s0) closeDataChannel_nf.
  stage (clearHealthCheck peerId s1) clearHealthCheck_nf.
  stage (forgetCandidates peerId s2) forgetCandidates_nf.
  stage (removeAudioElement peerId s3) removeAudioElement_nf.
  unfold forgetViewerAudioTrack. simpl.
  repeat split; chase; reflexivity.
Qed.

(** C2, amended.  The registry maps a peer id to at most one connection.
    [createPeerConnection] looks nothing up and never rejects: whatever
    the registry holds for the peer id, it makes a new connection (stable,
    new), stores it under the peer id, and changes no other entry of the
    registry and no other connection, so that a connection stored before
    under the same id is replaced in the registry without being closed.
    [removePeer] closes the registered connection and deletes the entry. *)
Theorem createPeerConnection_replaces peerId isInitiator s :
  let r := createPeerConnection peerId isInitiator s in
  let h := r.1 in
  h = nextHandle s
  ∧ peerConnections r.2 !! peerId = Some h
  ∧ (∀ q, q ≠ peerId → peerConnections r.2 !! q = peerConnections s !! q)
  ∧ (∃ pc, pcs r.2 !! h = Some pc ∧ pc_peerId pc = peerId
           ∧ signalingState pc = stable ∧ connectionState pc = state_new
           ∧ remoteDescription pc = None)
  ∧ (∀ h', h' ≠ h → pcs r.2 !! h' = pcs s !! h')
  ∧ peerConnections (removePeer peerId r.2) !! peerId = None
  ∧ is_open h (removePeer peerId r.2) = false.
Proof.
  intros r h.
  destruct (createPeerConnection_spec peerId isInitiator s)
    as (Hh & Hreg & trs & Hpcs).
  fold r in Hh, Hreg, Hpcs. subst h. rewrite Hh.
  split; [done|]. split; [by rewrite Hreg, lookup_insert_eq|].
  split; [by intros q Hq; rewrite Hreg, lookup_insert_ne|].
  split; [rewrite Hpcs, lookup_insert_eq; eauto 10|].
  split; [by intros h' Hh'; rewrite Hpcs, lookup_insert_ne|].
  destruct (removePeer_spec peerId r.2) as (Hreg' & Hpcs' & _).
  split; [by rewrite Hreg', lookup_delete_eq|].
  unfold is_open. rewrite Hpcs', Hreg, lookup_insert_eq.
  rewrite lookup_alter_eq, Hpcs, lookup_insert_eq. reflexivity.
Qed.

(** ** Losing a connection *)

Lemma startHealthCheck_nf h peerId s :
  startHealthCheck h peerId s =
  set_healthCheckIntervals (<[peerId := nextHandle s]> (healthCheckIntervals s))
    (set_timers (<[nextHandle s := HealthCheck h]> (timers s))
       (set_nextHandle (S (nextHandle s)) s)).
Proof. reflexivity. Qed.

Lemma reportPeerState_nf peerId st s :
  reportPeerState peerId st s =
  set_trace (if onPeerStateCallback s then trace s ++ [CbPeerState peerId st]
             else trace s) s.
Proof. unfold reportPeerState, emit. destruct (onPeerStateCallback s); by destruct s. Qed.

Lemma updatePc_nf h f s : updatePc h f s = set_pcs (alter f h (pcs s)) s.
Proof. reflexivity. Qed.

Lemma step_disconnected h pc s :
  pcs s !! h = Some pc →
  signalingState pc ≠ signaling_closed →
  step (ConnectionStateChange h disconnected) s =
  removePeer (pc_peerId pc)
    (reportPeerState (pc_peerId pc) disconnected
       (startHealthCheck h (pc_peerId pc)
          (updatePc h (pc_set_connectionState disconnected) s))).
Proof.
  intros Hpc Hopen. unfold step, is_open. rewrite Hpc.
  rewrite bool_decide_eq_false_2 by exact Hopen. simpl negb. cbv iota.
  unfold onconnectionstatechange.
  replace (pcs (updatePc h (pc_set_connectionState disconnected) s) !! h)
    with (Some (pc_set_connectionState disconnected pc))
    by (unfold updatePc; simpl; by rewrite lookup_alter_eq, Hpc).
  reflexivity.
Qed.

(** X14.  When the browser reports [disconnected] for an open connection,
    the callback removes the peer on the spot: the registered connection
    of the peer is closed and the peer id is gone from the registry; its
    data channel is closed and forgotten; its queued candidates, its set
    of fingerprints, its audio element (taken out of the document) and its
    audio track are dropped.  Nothing waits for the connection to come
    back.  Of the health check intervals, the one cancelled is the one
    stored at that moment, which the callback itself has just created
    (timer [nextHandle s]); nothing is said here about the intervals of
    earlier state changes, which the next section is about. *)
Theorem disconnected_removes_peer h pc s :
  pcs s !! h = Some pc →
  signalingState pc ≠ signaling_closed →
  let peerId := pc_peerId pc in
  let s' := step (ConnectionStateChange h disconnected) s in
  peerConnections s' !! peerId = None
  ∧ (∀ h', peerConnections s !! peerId = Some h' → is_open h' s' = false)
  ∧ dataChannels s' !! peerId = None
  ∧ (∀ ch c, dataChannels s !! peerId = Some ch → channels s !! ch = Some c →
             channels s' !! ch = Some (channel_close c))
  ∧ healthCheckIntervals s' !! peerId = None
  ∧ timers s' !! nextHandle s = None
  ∧ queuedIceCandidates s' !! peerId = None
  ∧ processedCandidates s' !! peerId = None
  ∧ viewerAudioElements s' !! peerId = None
  ∧ (∀ el, viewerAudioElements s !! peerId = Some el → el ∉ body s')
  ∧ viewerAudioTracks s' !! peerId = None.
Proof.
  intros Hpc Hopen peerId s'. subst s'.
  rewrite (step_disconnected h pc s Hpc Hopen). fold peerId.
  unfold is_open, removePeer. cbv zeta.
  stage (updatePc h (pc_set_connectionState disconnected) s) updatePc_nf.
  stage (startHealthCheck h peerId s0) startHealthCheck_nf.
  stage (reportPeerState peerId disconnected s1) reportPeerState_nf.
  stage (closePeerConnection peerId s2) closePeerConnection_nf.
  stage (closeDataChannel peerId s3) closeDataChannel_nf.
  stage (clearHealthCheck peerId s4) clearHealthCheck_nf.
  stage (forgetCandidates peerId s5) forgetCandidates_nf.
  stage (removeAudioElement peerId s6) removeAudioElement_nf.
  unfold forgetViewerAudioTrack. simpl.
  repeat split; chase; rewrite ?lookup_delete_eq; try reflexivity.
  - intros h' Hh'. rewrite Hh'.
    destruct (decide (h' = h)) as [->|Hne].
    + rewrite !lookup_alter_eq, Hpc. reflexivity.
    + rewrite lookup_alter_eq, lookup_alter_ne by done.
      destruct (pcs s !! h'); reflexivity.
  - intros ch c Hch Hc. rewrite Hch, lookup_alter_eq, Hc. reflexivity.
  - by rewrite lookup_insert_eq, lookup_delete_eq.
  - intros el Hel. rewrite Hel. rewrite list_elem_of_In, filter_In.
    intros [_ Hne]. rewrite Nat.eqb_refl in Hne. discriminate.
Qed.

Lemma disconnected_removes_peer_witness :
  let s' := step (ConnectionStateChange 1 disconnected) offered in
  peerConnections s' !! "viewer-1" = None ∧ is_open 1 s' = false.
Proof.
  destruct (disconnected_removes_peer 1
              (pc_setLocalDescription an_offer (new_RTCPeerConnection "viewer-1" 2 []))
              offered ltac:(vm_compute; reflexivity) ltac:(discriminate))
    as (Hgone & Hclosed & _).
  split; [exact Hgone|]. apply Hclosed. vm_compute. reflexivity.
Defined.

(** ** Health check intervals *)

(** C6 fails on the code.  A viewer connects ([connecting], then
    [connected]) and is then removed.  Each of the two state changes
    created a health check interval (timers 5 and 6) and stored it under
    the peer id, the second over the first; [removePeer] cancels the one
    it finds stored (6).  The interval created first (5) is still
    scheduled after [removePeer], although the peer is gone from the
    registry and its connection is closed. *)
Theorem health_interval_survives_removePeer :
  let s := run [CreatePeerConnection "viewer-1" true;
                ConnectionStateChange 1 connecting;
                ConnectionStateChange 1 connected;
                RemovePeer "viewer-1"] (initial false) in
  peerConnections s !! "viewer-1" = None
  ∧ is_open 1 s = false
  ∧ healthCheckIntervals s !! "viewer-1" = None
  ∧ timers s !! 6 = None
  ∧ timers s !! 5 = Some (HealthCheck 1).
Proof. vm_compute. repeat split. Qed.

(** C9 fails on the code, by the same defect.  A viewer connects
    ([connecting], then [connected]) and the browser then reports
    [disconnected].  The callback removes the peer: the peer id is gone
    from the registry and the connection is closed.  Before that it has
    created one more health check interval (timer 7) and stored it over
    the interval of [connected] (timer 6), which had been stored over the
    interval of [connecting] (timer 5).  [removePeer] cancels the
    interval it finds stored, timer 7.  The intervals that were running
    for the peer while it was connecting and connected, timers 5 and 6,
    are still scheduled: the peer is not removed along with its health
    timer. *)
Theorem disconnected_leaves_health_intervals :
  let s := run [CreatePeerConnection "viewer-1" true;
                ConnectionStateChange 1 connecting;
                ConnectionStateChange 1 connected;
                ConnectionStateChange 1 disconnected] (initial false) in
  peerConnections s !! "viewer-1" = None
  ∧ is_open 1 s = false
  ∧ healthCheckIntervals s !! "viewer-1" = None
  ∧ timers s !! 7 = None
  ∧ timers s !! 6 = Some (HealthCheck 1)
  ∧ timers s !! 5 = Some (HealthCheck 1).
Proof. vm_compute. repeat split. Qed.

(** What is left of the claims: an interval that outlives its connection
    does not poll.  At its next tick it finds the connection closed, asks
    for no statistics and cancels itself. *)
Lemma stale_health_check_cancels_itself id h pc s :
  timers s !! id = Some (HealthCheck h) →
  pcs s !! h = Some pc →
  connectionState pc = state_closed →
  trace (fireTimer id s) = trace s ∧ timers (fireTimer id s) !! id = None.
Proof.
  intros Hid Hpc Hst. unfold fireTimer. rewrite Hid. simpl.
  rewrite Hpc, Hst. simpl. split; [done|]. apply lookup_delete_eq.
Qed.

(** ** No automatic ICE restart *)

(** [quiet s s']: going from [s] to [s'] made no call of
    [pc.restartIce()] (and the browser is still the same). *)
Definition quiet (s s' : State) : Prop :=
  restartIceCalls s' = restartIceCalls s ∧ isFirefox s' = isFirefox s.

Lemma quiet_refl s : quiet s s.
Proof. by split. Qed.

Lemma quiet_then m s s' : quiet m s' → quiet s m → quiet s s'.
Proof. intros [? ?] [? ?]. split; congruence. Qed.

Definition is_restart (e : Effect) : bool :=
  match e with PcRestartIce _ => true | _ => false end.

Lemma quiet_emit e s : is_restart e = false → quiet s (emit e s).
Proof.
  intros He. split; [|done]. unfold restartIceCalls, emit. simpl.
  rewrite omap_app. simpl. destruct e; try discriminate; by rewrite app_nil_r.
Qed.

Lemma quiet_foldl {A} (f : State → A → State) (l : list A) s :
  (∀ s x, quiet s (f s x)) → quiet s (foldl f s l).
Proof.
  intros Hf. revert s. induction l as [|x l IH]; intros s; simpl.
  - apply quiet_refl.
  - eapply quiet_then; [apply IH|apply Hf].
Qed.

Lemma quiet_forEach {V} (m : gmap string V) body s :
  (∀ k v s, quiet s (body k v s)) → quiet s (forEach m body s).
Proof. intros Hb. unfold forEach. apply quiet_foldl. intros; apply Hb. Qed.

Lemma quiet_forEachOf {V} (m : State → gmap string V) body s :
  (∀ k v s, quiet s (body k v s)) → quiet s (forEachOf m body s).
Proof. intros Hb. unfold forEachOf. by apply quiet_forEach. Qed.

(** One step of a proof that a method is quiet: split on the next test of
    the method, or peel its last state change off. *)
Ltac quiet_step :=
  lazymatch goal with
  | |- quiet ?s ?s => apply quiet_refl
  | |- quiet _ (snd (_, _)) => cbn [snd]
  | |- quiet _ (match (_, _) with _ => _ end) => cbv beta iota
  | |- quiet _ (match (match ?x with _ => _ end) with _ => _ end) =>
      destruct x eqn:?; cbv beta iota
  | |- quiet _ (snd (match (match ?x with _ => _ end) with _ => _ end)) =>
      destruct x eqn:?; cbv beta iota
  | |- quiet _ (snd (match ?x with _ => _ end)) => destruct x eqn:?; cbv beta iota
  | |- quiet _ (match ?x with _ => _ end) => destruct x eqn:?; cbv beta iota
  | |- quiet ?s (snd (?g ?s0)) =>
      lazymatch type of s0 with State => idtac end;
      apply (quiet_then s0);
      [ generalize s0; intros ?; solve [ eauto 2 with quiet nocore ] | ]
  | |- quiet ?s (?g ?s0) =>
      lazymatch type of s0 with State => idtac end;
      apply (quiet_then s0);
      [ generalize s0; intros ?;
        first [ solve [ eauto 2 with quiet nocore ] | by split ] | ]
  end.

Ltac quiet := cbv zeta; repeat quiet_step.

Create HintDb quiet.
#[local] Hint Resolve quiet_emit quiet_refl : quiet.
#[local] Hint Extern 0 (is_restart _ = false) => reflexivity : quiet.

Lemma quiet_setTimer cb s : quiet s (setTimer cb s).2.
Proof. by split. Qed.
Lemma quiet_clearTimer id s : quiet s (clearTimer id s).
Proof. by split. Qed.
Lemma quiet_updatePc h f s : quiet s (updatePc h f s).
Proof. by split. Qed.
#[local] Hint Resolve quiet_setTimer quiet_clearTimer quiet_updatePc : quiet.

Lemma quiet_setEnabled b ts s : quiet s (setEnabled b ts s).
Proof. rewrite setEnabled_nf. by split. Qed.
Lemma quiet_stopTracks ts s : quiet s (stopTracks ts s).
Proof. rewrite stopTracks_nf. by split. Qed.
#[local] Hint Resolve quiet_setEnabled quiet_stopTracks : quiet.

Lemma quiet_processQueuedIceCandidates peerId s :
  quiet s (processQueuedIceCandidates peerId s).
Proof.
  unfold processQueuedIceCandidates. quiet.
  apply quiet_foldl. intros. by apply quiet_emit.
Qed.
#[local] Hint Resolve quiet_processQueuedIceCandidates : quiet.

Lemma quiet_addIceCandidate peerId c added s :
  quiet s (addIceCandidate peerId c added s).
Proof. unfold addIceCandidate. quiet. Qed.

Lemma quiet_createOffer peerId created applied m reapplied s :
  quiet s (createOffer peerId created applied m reapplied s).2.
Proof. unfold createOffer. quiet. Qed.

Lemma quiet_handleAnswer peerId a applied s :
  quiet s (handleAnswer peerId a applied s).2.
Proof. unfold handleAnswer. quiet. Qed.

Lemma quiet_createAnswer peerId o applied created appliedLocal s :
  quiet s (createAnswer peerId o applied created appliedLocal s).2.
Proof. unfold createAnswer. quiet. Qed.

Lemma quiet_renegotiate peerId created applied s :
  quiet s (renegotiate peerId created applied s).2.
Proof. unfold renegotiate. quiet. Qed.
#[local] Hint Resolve quiet_renegotiate : quiet.

Lemma quiet_enableViewerAudio peerId t attached created applied s :
  quiet s (enableViewerAudio peerId t attached created applied s).2.
Proof. unfold enableViewerAudio. quiet. Qed.

Lemma quiet_disableViewerAudio peerId created applied s :
  quiet s (disableViewerAudio peerId created applied s).2.
Proof. unfold disableViewerAudio. quiet. Qed.

Lemma quiet_removePeer peerId s : quiet s (removePeer peerId s).
Proof. destruct (removePeer_spec peerId s) as (_&_&_&_&_&_&_&_&_&_&Ht&Hf&_).
  split; [|done]. unfold restartIceCalls. by rewrite Ht. Qed.
#[local] Hint Resolve quiet_removePeer : quiet.

Lemma quiet_replaceVideoTrack t replaced s : quiet s (replaceVideoTrack t replaced s).
Proof.
  unfold replaceVideoTrack. apply quiet_forEach. intros.
  unfold replaceVideoTrackOn. quiet.
Qed.
#[local] Hint Resolve quiet_replaceVideoTrack : quiet.

Lemma quiet_stopScreenShare replaced s : quiet s (stopScreenShare replaced s).
Proof. unfold stopScreenShare. quiet. Qed.

Lemma quiet_initializeScreenShare captured replaced s :
  quiet s (initializeScreenShare captured replaced s).2.
Proof. unfold initializeScreenShare. quiet. Qed.

Lemma quiet_initializeLocalStream r1 r2 r3 s :
  quiet s (initializeLocalStream r1 r2 r3 s).2.
Proof. unfold initializeLocalStream. quiet. Qed.

Lemma quiet_toggleAudio b s : quiet s (toggleAudio b s).
Proof. unfold toggleAudio. quiet. Qed.

Lemma quiet_toggleVideo b s : quiet s (toggleVideo b s).
Proof. unfold toggleVideo. quiet. Qed.

Lemma quiet_setCallbacks a b c s : quiet s (setCallbacks a b c s).
Proof. by split. Qed.

Lemma quiet_setClientInfo a b c d s : quiet s (setClientInfo a b c d s).
Proof. unfold setClientInfo. destruct (truthy c); by split. Qed.

Lemma quiet_setServerClientId c s : quiet s (setServerClientId c s).
Proof. by split. Qed.

Lemma quiet_createPeerConnection peerId isInitiator s :
  quiet s (createPeerConnection peerId isInitiator s).2.
Proof.
  unfold createPeerConnection, setTimer, fresh. simpl.
  destruct (addLocalTracks_nf isInitiator (set_nextHandle (S (nextHandle s)) s))
    as (trs & v & ->). simpl.
  unfold createDataChannel, fresh. destruct isInitiator; by split.
Qed.

Lemma quiet_removeAudioElement peerId s : quiet s (removeAudioElement peerId s).
Proof. rewrite removeAudioElement_nf. by split. Qed.

Lemma quiet_getStreamStats peerId s : quiet s (getStreamStats peerId s).
Proof. unfold getStreamStats. quiet. Qed.

Lemma quiet_stopLocalStream s : quiet s (stopLocalStream s).
Proof. unfold stopLocalStream. quiet. Qed.

Lemma quiet_stopScreenStream s : quiet s (stopScreenStream s).
Proof. unfold stopScreenStream. quiet. Qed.
#[local] Hint Resolve quiet_stopLocalStream quiet_stopScreenStream : quiet.

Lemma quiet_cleanup g s : quiet s (cleanup g s).
Proof.
  unfold cleanup. cbv zeta.
  repeat first
    [ lazymatch goal with
      | |- quiet ?s (forEachOf ?m ?b ?s0) =>
          apply (quiet_then s0);
          [generalize s0; intros ?; apply quiet_forEachOf; intros; by split|]
      end
    | quiet_step ].
Qed.

Lemma quiet_checkVideoStats h t s : quiet s (checkVideoStats h t s).
Proof. by split. Qed.

Lemma quiet_createAudioElement peerId st p s :
  quiet s (createAudioElement peerId st p s).
Proof. by split. Qed.

Lemma quiet_updateAudioElement el st p s : quiet s (updateAudioElement el st p s).
Proof. by split. Qed.
#[local] Hint Resolve quiet_createAudioElement quiet_updateAudioElement : quiet.

Lemma quiet_playViewerAudio peerId st played s :
  quiet s (playViewerAudio peerId st played s).
Proof. unfold playViewerAudio. quiet. Qed.

Lemma quiet_notifyStream peerId st s : quiet s (notifyStream peerId st s).
Proof. unfold notifyStream. quiet. Qed.
#[local] Hint Resolve quiet_checkVideoStats quiet_playViewerAudio quiet_notifyStream : quiet.

Lemma quiet_ontrack h t st played s : quiet s (ontrack h t st played s).
Proof. unfold ontrack. quiet. Qed.

Lemma quiet_track_onunmute h t st s : quiet s (track_onunmute h t st s).
Proof. unfold track_onunmute. quiet. Qed.

Lemma quiet_onicecandidate h c s : quiet s (onicecandidate h c s).
Proof. unfold onicecandidate. quiet. Qed.

Lemma quiet_oniceconnectionstatechange h s : quiet s (oniceconnectionstatechange h s).
Proof. unfold oniceconnectionstatechange. quiet. Qed.

Lemma quiet_clearConnectionTimeout pc s : quiet s (clearConnectionTimeout pc s).
Proof. unfold clearConnectionTimeout. quiet. Qed.

Lemma quiet_watchStuckConnection h pc s : quiet s (watchStuckConnection h pc s).
Proof. unfold watchStuckConnection. quiet. Qed.

Lemma quiet_startHealthCheck h peerId s : quiet s (startHealthCheck h peerId s).
Proof. by split. Qed.

Lemma quiet_reportPeerState peerId st s : quiet s (reportPeerState peerId st s).
Proof. unfold reportPeerState. quiet. Qed.

Lemma quiet_removeLostPeer peerId st s : quiet s (removeLostPeer peerId st s).
Proof. unfold removeLostPeer. quiet. Qed.
#[local] Hint Resolve quiet_clearConnectionTimeout quiet_watchStuckConnection
  quiet_startHealthCheck quiet_reportPeerState quiet_removeLostPeer : quiet.

Lemma quiet_onconnectionstatechange h s : quiet s (onconnectionstatechange h s).
Proof. unfold onconnectionstatechange. quiet. Qed.

Lemma quiet_ondatachannel h s : quiet s (ondatachannel h s).
Proof. unfold ondatachannel. destruct (pcs s !! h); by split. Qed.

Lemma quiet_channel_onopen h s : quiet s (channel_onopen h s).
Proof. unfold channel_onopen. quiet. Qed.

Lemma quiet_channel_onclose h s : quiet s (channel_onclose h s).
Proof. unfold channel_onclose. quiet. Qed.

Lemma quiet_fireTimer_other id s :
  (∀ h, timers s !! id ≠ Some (ConnectionTimeout h)) →
  quiet s (fireTimer id s).
Proof.
  intros Hid. unfold fireTimer.
  destruct (timers s !! id) as [cb|] eqn:Hcb; [|apply quiet_refl].
  destruct cb; try (by destruct (Hid pc)); cbn [is_interval]; quiet.
Qed.

(** The automatic restart of the source: the connection timeout of a
    connection fires on Firefox while the connection is still
    [connecting] or its ICE agent still [checking]. *)
Definition automaticRestart (e : Event) (s : State) : list Handle :=
  match e with
  | TimerFires id =>
      match timers s !! id with
      | Some (ConnectionTimeout h) =>
          match pcs s !! h with
          | Some pc =>
              if decide (connectionState pc = connecting ∨
                         iceConnectionState pc = ice_checking)
              then if isFirefox s then [h] else []
              else []
          | None => []
          end
      | _ => []
      end
  | _ => []
  end.

Lemma quiet_no_restart s s' :
  quiet s s' →
  restartIceCalls s' = restartIceCalls s ++ [] ∧ isFirefox s' = isFirefox s.
Proof. intros [? ?]. by rewrite app_nil_r. Qed.

Lemma fireTimer_restarts id s :
  restartIceCalls (fireTimer id s)
  = restartIceCalls s ++ automaticRestart (TimerFires id) s
  ∧ isFirefox (fireTimer id s) = isFirefox s.
Proof.
  destruct (timers s !! id) as [cb|] eqn:Hcb.
  - destruct cb as [h| | | | |];
      try (cbn [automaticRestart]; rewrite Hcb; apply quiet_no_restart;
           apply quiet_fireTimer_other; intros ?; rewrite Hcb; discriminate).
    unfold fireTimer. cbn [automaticRestart]. rewrite Hcb. cbn [is_interval].
    change (pcs (clearTimer id s)) with (pcs s).
    change (isFirefox (clearTimer id s)) with (isFirefox s).
    destruct (pcs s !! h) as [pc|]; [|by rewrite app_nil_r].
    case_decide; [|by rewrite app_nil_r].
    destruct (isFirefox s) eqn:Hff; [|by rewrite app_nil_r].
    split; [|exact Hff].
    unfold restartIceCalls, emit. simpl. by rewrite omap_app.
  - cbn [automaticRestart]. rewrite Hcb. unfold fireTimer. rewrite Hcb.
    by rewrite app_nil_r.
Qed.

(** Every event but the firing of a timer is quiet. *)
Lemma step_quiet e s :
  (∀ id, e ≠ TimerFires id) → quiet s (step e s).
Proof.
  intros He. destruct e; cbn [step];
    try (by destruct (He id));
    try (destruct (is_open pc s); [|apply quiet_refl]).
  - apply quiet_setCallbacks.
  - apply quiet_setClientInfo.
  - apply quiet_setServerClientId.
  - apply quiet_initializeLocalStream.
  - apply quiet_initializeScreenShare.
  - apply quiet_createPeerConnection.
  - apply quiet_createOffer.
  - apply quiet_createAnswer.
  - apply quiet_handleAnswer.
  - apply quiet_addIceCandidate.
  - apply quiet_replaceVideoTrack.
  - apply quiet_stopScreenShare.
  - apply quiet_toggleAudio.
  - apply quiet_toggleVideo.
  - apply quiet_enableViewerAudio.
  - apply quiet_disableViewerAudio.
  - apply quiet_removeAudioElement.
  - apply quiet_removePeer.
  - apply quiet_getStreamStats.
  - apply quiet_cleanup.
  - apply quiet_ontrack.
  - apply quiet_track_onunmute.
  - apply quiet_onicecandidate.
  - eapply quiet_then; [apply quiet_oniceconnectionstatechange|by split].
  - eapply quiet_then; [apply quiet_onconnectionstatechange|by split].
  - apply quiet_ondatachannel.
  - apply quiet_channel_onopen.
  - apply quiet_channel_onclose.
  - apply quiet_stopScreenShare.
Qed.

Lemma step_restarts e s :
  restartIceCalls (step e s) = restartIceCalls s ++ automaticRestart e s
  ∧ isFirefox (step e s) = isFirefox s.
Proof.
  destruct e;
    try (cbn [automaticRestart]; apply quiet_no_restart; apply step_quiet;
         discriminate).
  apply fireTimer_restarts.
Qed.

(** C4, as stated, fails on Firefox.  A connection is created and starts
    connecting; nothing else happens until its connection timeout (timer
    2) fires.  The callback of the timer calls [pc.restartIce()] on its
    own: no call of the UI layer asked for a restart. *)
Lemma automatic_restart_on_firefox_counterexample :
  let s := run [CreatePeerConnection "viewer-1" true;
                ConnectionStateChange 1 connecting] (initial true) in
  timers s !! 2 = Some (ConnectionTimeout 1)
  ∧ restartIceCalls s = []
  ∧ restartIceCalls (step (TimerFires 2) s) = [1].
Proof. vm_compute. repeat split. Qed.

(** C4, amended.  When the browser is not Firefox, the service never
    restarts ICE on its own: whatever the UI layer calls and whatever the
    browser calls back (state changes, timers, tracks, channels), no
    [pc.restartIce()] is made.  In general, an event adds exactly the
    calls of [automaticRestart]: one call, when the connection timeout of
    a connection fires on Firefox while the connection is still
    connecting or its ICE agent still checking, and none otherwise. *)
Theorem no_automatic_restart_but_firefox_timeout es s :
  isFirefox s = false →
  restartIceCalls (run es s) = restartIceCalls s
  ∧ (∀ e s', restartIceCalls (step e s')
             = restartIceCalls s' ++ automaticRestart e s')
  ∧ (∀ e s' h, h ∈ automaticRestart e s' →
       isFirefox s' = true
       ∧ ∃ id pc, e = TimerFires id
                  ∧ timers s' !! id = Some (ConnectionTimeout h)
                  ∧ pcs s' !! h = Some pc
                  ∧ (connectionState pc = connecting ∨
                     iceConnectionState pc = ice_checking)).
Proof.
  intros Hff. split; [|split].
  - revert s Hff. induction es as [|e es IH]; intros s Hff; [done|].
    cbn [run foldl]. destruct (step_restarts e s) as [Hr Hf].
    unfold run in IH. rewrite IH by congruence. rewrite Hr.
    assert (automaticRestart e s = []) as ->; [|by rewrite app_nil_r].
    destruct e; try reflexivity. cbn [automaticRestart].
    destruct (timers s !! id) as [[]|]; try reflexivity.
    destruct (pcs s !! pc); [|reflexivity].
    case_decide; [|reflexivity]. by rewrite Hff.
  - intros e s'. apply step_restarts.
  - intros e s' h Hin. destruct e; try (by apply elem_of_nil in Hin).
    cbn [automaticRestart] in Hin.
    destruct (timers s' !! id) as [[h'| | | | |]|] eqn:Hid;
      try (by apply elem_of_nil in Hin).
    destruct (pcs s' !! h') as [pc|] eqn:Hpc; [|by apply elem_of_nil in Hin].
    case_decide as Hst; [|by apply elem_of_nil in Hin].
    destruct (isFirefox s') eqn:Hf; [|by apply elem_of_nil in Hin].
    apply list_elem_of_singleton in Hin as ->. eauto 10.
Qed.

Lemma no_automatic_restart_but_firefox_timeout_witness :
  restartIceCalls
    (run [CreatePeerConnection "viewer-1" true;
          ConnectionStateChange 1 connecting;
          TimerFires 2] (initial false)) = [].
Proof.
  apply (no_automatic_restart_but_firefox_timeout
           [CreatePeerConnection "viewer-1" true;
            ConnectionStateChange 1 connecting;
            TimerFires 2] (initial false)).
  reflexivity.
Defined.

(** ** Viewer audio: renegotiation and playback sinks *)

(** The renegotiation offers sent to a peer, in order. *)
Definition renegotiationOffers (peerId : string) (s : State)
    : list RTCSessionDescriptionInit :=
  omap (λ e, match e with
             | CbMessage (webrtc_offer _ to o _ true) =>
                 if decide (to = peerId) then Some o else None
             | _ => None
             end) (trace s).

Definition offer_number (n : string) : RTCSessionDescriptionInit :=
  {| sdp_type := offer; sdp := "v=0 offer " +:+ n |}.

Definition microphone' : MediaStreamTrack := {| track_id := 4; track_kind := audio |}.

(** A viewer, with its callbacks registered and a connection to the
    broadcaster. *)
Definition viewing : State :=
  (createPeerConnection "broadcaster" false
     (setCallbacks true true true (initial false))).2.

(** C5, as stated, fails.  The viewer enables the microphone, disables
    it and enables it again before any answer has arrived.  Each of the
    three calls creates its own offer and sends it: three renegotiation
    offers go to the peer, the second and the third while the first is
    still unanswered (the connection is in [have-local-offer]). *)
Lemma rapid_toggle_sends_three_offers_counterexample :
  let s1 := (enableViewerAudio "broadcaster" microphone ok
               (Resolves (offer_number "1")) ok viewing).2 in
  let s2 := (disableViewerAudio "broadcaster"
               (Resolves (offer_number "2")) ok s1).2 in
  let s3 := (enableViewerAudio "broadcaster" microphone' ok
               (Resolves (offer_number "3")) ok s2).2 in
  (signalingState <$> (snd <$> getPc "broadcaster" s1)) = Some have_local_offer
  ∧ (signalingState <$> (snd <$> getPc "broadcaster" s2)) = Some have_local_offer
  ∧ renegotiationOffers "broadcaster" s1 = [offer_number "1"]
  ∧ renegotiationOffers "broadcaster" s3
    = [offer_number "1"; offer_number "2"; offer_number "3"].
Proof. vm_compute. repeat split. Qed.

Lemma getPc_updatePc peerId h pc f s s' :
  getPc peerId s = Some (h, pc) →
  peerConnections s' = peerConnections s →
  pcs s' = pcs s →
  getPc peerId (updatePc h f s') = Some (h, f pc).
Proof.
  unfold getPc, updatePc. simpl. intros Hpc -> ->.
  destruct (peerConnections s !! peerId) as [h'|]; [|done].
  destruct (pcs s !! h') as [pc'|] eqn:Hh; [|done].
  injection Hpc as -> ->. by rewrite lookup_alter_eq, Hh.
Qed.

Lemma renegotiate_sends_one_offer peerId h pc o s :
  getPc peerId s = Some (h, pc) →
  onMessageCallback s = true →
  let r := renegotiate peerId (Resolves o) ok s in
  r.1 = Returned ()
  ∧ trace r.2 = trace s ++
      [PcSetLocalDescription h o;
       CbMessage (webrtc_offer (myClientId s) peerId o (currentStreamId s) true)]
  ∧ viewerAudioTracks r.2 = viewerAudioTracks s
  ∧ getPc peerId r.2 = Some (h, pc_setLocalDescription o pc).
Proof.
  intros Hpc Hcb. unfold renegotiate. rewrite Hpc. simpl. rewrite Hcb. simpl.
  split; [done|]. split; [by rewrite <- app_assoc|]. split; [done|].
  apply (getPc_updatePc peerId h pc _ s); done.
Qed.

(** C5, amended.  For a peer with a connection in the registry (and the
    message callback set, the browser accepting every call), each call of
    [enableViewerAudio] and each call of [disableViewerAudio] (with a
    track enabled) creates exactly one offer, applies it locally and sends
    it as a renegotiation offer to the peer.  There is no test of the
    signaling state, so a call made while an earlier offer is unanswered
    sends one more.  On the broadcaster side, an incoming audio track with
    a stream creates an audio element for the peer id of the connection
    only when none is stored; when one is stored, it gets the new stream
    and neither the map of elements nor the document changes. *)
Theorem viewer_audio_offers_and_sinks peerId h pc s :
  getPc peerId s = Some (h, pc) →
  (onMessageCallback s = true →
   ∀ t o,
     let s' := (enableViewerAudio peerId t ok (Resolves o) ok s).2 in
     trace s' = trace s ++
       [PcSetLocalDescription h o;
        CbMessage (webrtc_offer (myClientId s) peerId o (currentStreamId s) true)]
     ∧ viewerAudioTracks s' !! peerId = Some t)
  ∧ (onMessageCallback s = true →
     ∀ t o, viewerAudioTracks s !! peerId = Some t →
       let s' := (disableViewerAudio peerId (Resolves o) ok s).2 in
       trace s' = trace s ++
         [PcSetLocalDescription h o;
          CbMessage (webrtc_offer (myClientId s) peerId o (currentStreamId s) true)]
       ∧ viewerAudioTracks s' !! peerId = None)
  ∧ (∀ track stream played ls,
       track_kind track = audio → localStream s = Some ls →
       let s' := ontrack h track (Some stream) played s in
       match viewerAudioElements s !! pc_peerId pc with
       | Some el =>
           viewerAudioElements s' = viewerAudioElements s
           ∧ body s' = body s
           ∧ (srcObject <$> audioElements s' !! el)
             = ((λ _, Some stream) <$> audioElements s !! el)
       | None =>
           viewerAudioElements s' = <[pc_peerId pc := nextHandle s]> (viewerAudioElements s)
           ∧ body s' = body s ++ [nextHandle s]
           ∧ (srcObject <$> audioElements s' !! nextHandle s) = Some (Some stream)
       end).
Proof.
  intros Hpc. split; [|split].
  - intros Hcb t o. unfold enableViewerAudio. rewrite Hpc. simpl.
    set (s1 := updatePc h (attachAudio t)
                 (set_viewerAudioTracks (<[peerId:=t]> (viewerAudioTracks s)) s)).
    destruct (renegotiate_sends_one_offer peerId h (attachAudio t pc) o s1)
      as (_ & Htr & Hvt & _).
    { apply (getPc_updatePc peerId h pc _ s); done. }
    { exact Hcb. }
    rewrite Htr, Hvt. split; [done|]. subst s1. simpl. apply lookup_insert_eq.
  - intros Hcb t o Ht. unfold disableViewerAudio. rewrite Hpc, Ht.
    rewrite stopTracks_nf. cbv zeta.
    set (f := λ pc0, pc_set_transceivers (pc_removeTrack t (getTransceivers pc0)) pc0).
    match goal with
    | |- context [renegotiate _ _ _ ?s0] => set (s1 := s0)
    end.
    destruct (renegotiate_sends_one_offer peerId h (f pc) o s1)
      as (_ & Htr & Hvt & _).
    { subst s1. unfold getPc. simpl.
      unfold getPc in Hpc.
      destruct (peerConnections s !! peerId) as [h'|]; [|done].
      destruct (pcs s !! h') as [pc'|] eqn:Hh; [|done].
      injection Hpc as -> ->. by rewrite lookup_alter_eq, Hh. }
    { exact Hcb. }
    rewrite Htr, Hvt. split; [done|]. subst s1. simpl. apply lookup_delete_eq.
  - intros track stream played ls Hkind Hls.
    assert (Hh : pcs s !! h = Some pc).
    { unfold getPc in Hpc.
      destruct (peerConnections s !! peerId) as [h'|]; [|done].
      destruct (pcs s !! h') as [pc'|] eqn:Hh; [|done].
      by injection Hpc as -> ->. }
    unfold ontrack. rewrite Hh, Hkind. cbv zeta.
    unfold playViewerAudio. rewrite Hls.
    destruct (viewerAudioElements s !! pc_peerId pc) as [el|] eqn:Hel.
    + unfold notifyStream, updateAudioElement.
      destruct (onStreamCallback _); simpl;
        (split; [done|split; [done|]]); rewrite lookup_alter_eq;
        by destruct (audioElements s !! el).
    + unfold notifyStream, createAudioElement, fresh.
      destruct (onStreamCallback _); simpl;
        (split; [done|split; [done|]]); by rewrite lookup_insert_eq.
Qed.

Lemma viewer_audio_offers_and_sinks_witness :
  trace (enableViewerAudio "broadcaster" microphone ok
           (Resolves (offer_number "1")) ok viewing).2
  = trace viewing ++
      [PcSetLocalDescription 1 (offer_number "1");
       CbMessage (webrtc_offer "" "broadcaster" (offer_number "1") "" true)].
Proof.
  destruct (viewer_audio_offers_and_sinks "broadcaster" 1
              (new_RTCPeerConnection "broadcaster" 2
                 [ {| receiver_kind := audio; direction := sendrecv; sender_track := None |};
                   {| receiver_kind := video; direction := recvonly; sender_track := None |} ])
              viewing ltac:(vm_compute; reflexivity)) as (Henable & _).
  exact (proj1 (Henable ltac:(reflexivity) microphone (offer_number "1"))).
Defined.

(** ** Screen share: one outbound video sender *)



















(** * Further properties of the service *)

(** ** Candidates and the life of a connection *)

(** Everything [createPeerConnection] writes. *)
Lemma createPeerConnection_nf peerId isInitiator s :
  ∃ trs enabled_ chs n,
    (createPeerConnection peerId isInitiator s).2 =
    set_peerConnections (<[peerId := nextHandle s]> (peerConnections s))
      (set_channels chs
         (set_pcs (<[nextHandle s :=
                       new_RTCPeerConnection peerId (S (nextHandle s)) trs]> (pcs s))
            (set_timers (<[S (nextHandle s) := ConnectionTimeout (nextHandle s)]> (timers s))
               (set_trackEnabled enabled_
                  (set_nextHandle n s)))))
    ∧ S (nextHandle s) < n.
Proof.
  unfold createPeerConnection, setTimer, fresh. simpl.
  destruct (addLocalTracks_nf isInitiator (set_nextHandle (S (nextHandle s)) s))
    as (trs & v & ->). simpl.
  unfold createDataChannel, storePeerConnection, storePc, fresh.
  destruct isInitiator; simpl.
  - eexists trs, v, _, _. split; [reflexivity|]. lia.
  - exists trs, v, (channels s), (S (S (nextHandle s))). split; [|lia].
    by destruct s.
Qed.

(** X1.  A candidate that arrives for a peer without a connection is
    dropped and leaves no trace: the state is unchanged, its fingerprint
    is not recorded.  So when the connection is created afterwards and
    the candidate is delivered again, it is taken as new and queued. *)
Theorem candidate_for_unknown_peer_is_forgotten peerId c added s :
  peerConnections s !! peerId = None →
  addIceCandidate peerId c added s = s
  ∧ (processedCandidates s !! peerId = None →
     queuedIceCandidates s !! peerId = None →
     ∀ isInitiator added',
       let s1 := (createPeerConnection peerId isInitiator
                    (addIceCandidate peerId c added s)).2 in
       let s2 := addIceCandidate peerId c added' s1 in
       queue peerId s2 = [c] ∧ trace s2 = trace s).
Proof.
  intros Hnone.
  assert (Hs : addIceCandidate peerId c added s = s)
    by (unfold addIceCandidate, getPc; by rewrite Hnone).
  split; [exact Hs|]. intros Hp Hq isInitiator added' s1 s2.
  subst s2 s1. rewrite Hs.
  destruct (createPeerConnection_nf peerId isInitiator s)
    as (trs & v & chs & n & Hnf & _).
  set (pc := new_RTCPeerConnection peerId (S (nextHandle s)) trs).
  destruct (addIceCandidate_queues peerId c added'
              (createPeerConnection peerId isInitiator s).2 (nextHandle s) pc)
    as (Htr & Hqueue & _).
  - rewrite Hnf. unfold getPc. simpl. by rewrite !lookup_insert_eq.
  - reflexivity.
  - rewrite Htr, Hqueue. rewrite Hnf. unfold queue, seen. simpl.
    rewrite Hp, Hq. simpl. by rewrite decide_False by set_solver.
Qed.

Lemma candidate_for_unknown_peer_is_forgotten_witness :
  addIceCandidate "viewer-1" (host_candidate Undefined) ok (initial false)
  = initial false.
Proof.
  apply (candidate_for_unknown_peer_is_forgotten "viewer-1"
           (host_candidate Undefined) ok (initial false)).
  reflexivity.
Defined.

(** X2.  Once the remote description is set, a candidate with a new
    fingerprint goes straight to the connection, one call, and the queue
    is not touched; its fingerprint is recorded.  This holds on every
    browser but Firefox, and on Firefox for the candidates that pass
    [isValidFirefoxCandidate] (an empty candidate string is not tested). *)
Theorem candidate_after_remote_description_is_applied peerId h pc d c added s :
  getPc peerId s = Some (h, pc) →
  remoteDescription pc = Some d →
  candidateFingerprint c ∉ seen peerId s →
  (isFirefox s = true → truthy (candidate c) = true →
   isValidFirefoxCandidate (template id (candidate c)) = true) →
  let s' := addIceCandidate peerId c added s in
  trace s' = trace s ++ [PcAddIceCandidate h c]
  ∧ queuedIceCandidates s' = queuedIceCandidates s
  ∧ candidateFingerprint c ∈ seen peerId s'.
Proof.
  intros Hpc Hrd Hnew Hvalid. unfold addIceCandidate, seen in *.
  rewrite Hpc, Hrd.
  assert (Hskip : isFirefox s && truthy (candidate c) &&
                  negb (isValidFirefoxCandidate (template id (candidate c))) = false).
  { destruct (isFirefox s); [|done]. destruct (truthy (candidate c)); [|done].
    simpl. by rewrite Hvalid. }
  destruct (processedCandidates s !! peerId) as [set|] eqn:Hset; cbn [default] in Hnew.
  - rewrite decide_False by done. cbn [isFirefox set_processedCandidates].
    rewrite Hskip.
    destruct added as [|message]; [|destruct (isFirefox _ && includes _ message)];
      simpl; rewrite lookup_insert_eq; simpl; (split; [done|split; [done|set_solver]]).
  - rewrite decide_False by set_solver. cbn [isFirefox set_processedCandidates].
    rewrite Hskip.
    destruct added as [|message]; [|destruct (isFirefox _ && includes _ message)];
      simpl; rewrite lookup_insert_eq; simpl; (split; [done|split; [done|set_solver]]).
Qed.

(** The viewer of [viewing] after the broadcaster's offer was answered. *)
Definition answered : State :=
  (createAnswer "broadcaster" an_offer ok (Resolves an_answer) ok viewing).2.

Lemma candidate_after_remote_description_is_applied_witness :
  appliedCandidates 1 (addIceCandidate "broadcaster" (host_candidate Undefined) ok answered)
  = [host_candidate Undefined].
Proof.
  pose proof (candidate_after_remote_description_is_applied "broadcaster" 1
                (pc_setLocalDescription an_answer
                   (pc_setRemoteDescription an_offer
                      (new_RTCPeerConnection "broadcaster" 2
                         [ {| receiver_kind := audio; direction := sendrecv;
                              sender_track := None |};
                           {| receiver_kind := video; direction := recvonly;
                              sender_track := None |} ])))
                an_offer (host_candidate Undefined) ok answered
                ltac:(vm_compute; reflexivity) ltac:(reflexivity)
                ltac:(vm_compute; set_solver) ltac:(discriminate)) as [Htr _].
  unfold appliedCandidates. rewrite Htr. vm_compute. reflexivity.
Defined.





(** X4.  The retry of Firefox.  When the browser rejects a direct
    [pc.addIceCandidate] with an error that mentions [InvalidStateError],
    Firefox gets one retry: a timer is set, and when it fires the same
    candidate is handed to the same connection once more and the timer is
    gone.  On other browsers the rejection is only logged: no timer. *)
Theorem rejected_candidate_is_retried_on_firefox peerId h pc d c message s :
  getPc peerId s = Some (h, pc) →
  remoteDescription pc = Some d →
  candidateFingerprint c ∉ seen peerId s →
  (isFirefox s = true → truthy (candidate c) = true →
   isValidFirefoxCandidate (template id (candidate c)) = true) →
  includes "InvalidStateError" message = true →
  let s' := addIceCandidate peerId c (Rejects message) s in
  trace s' = trace s ++ [PcAddIceCandidate h c]
  ∧ (isFirefox s = false → timers s' = timers s)
  ∧ (isFirefox s = true →
     timers s' = <[nextHandle s := IceRetry h c]> (timers s)
     ∧ trace (fireTimer (nextHandle s) s')
       = trace s ++ [PcAddIceCandidate h c; PcAddIceCandidate h c]
     ∧ timers (fireTimer (nextHandle s) s') !! nextHandle s = None).
Proof.
  intros Hpc Hrd Hnew Hvalid Hmsg s'.
  destruct (candidate_after_remote_description_is_applied peerId h pc d c
              (Rejects message) s Hpc Hrd Hnew Hvalid) as (Htr & _).
  fold s' in Htr. split; [exact Htr|].
  assert (Hskip : isFirefox s && truthy (candidate c) &&
                  negb (isValidFirefoxCandidate (template id (candidate c))) = false).
  { destruct (isFirefox s); [|done]. destruct (truthy (candidate c)); [|done].
    simpl. by rewrite Hvalid. }
  assert (Htimers : timers s' = if isFirefox s
                                then <[nextHandle s := IceRetry h c]> (timers s)
                                else timers s).
  { subst s'. clear Htr. unfold seen in Hnew. unfold addIceCandidate.
    rewrite Hpc, Hrd.
    destruct (processedCandidates s !! peerId) as [set|]; cbn [default] in Hnew;
      rewrite decide_False by set_solver;
      cbn [isFirefox set_processedCandidates]; rewrite Hskip, Hmsg;
      simpl; by destruct (isFirefox s). }
  split; [by intros Hff; rewrite Htimers, Hff|].
  intros Hff. rewrite Hff in Htimers. split; [exact Htimers|].
  unfold fireTimer. rewrite Htimers, lookup_insert_eq. cbn [is_interval].
  split.
  - unfold emit, clearTimer. simpl. rewrite Htr. by rewrite <- app_assoc.
  - unfold emit, clearTimer. simpl. apply lookup_delete_eq.
Qed.

Lemma rejected_candidate_is_retried_on_firefox_witness :
  let s' := addIceCandidate "broadcaster" (host_candidate Undefined)
              (Rejects "InvalidStateError: not ready") answered in
  appliedCandidates 1 s' = [host_candidate Undefined] ∧ timers s' = timers answered.
Proof.
  intros s'.
  pose proof (rejected_candidate_is_retried_on_firefox "broadcaster" 1
                (pc_setLocalDescription an_answer
                   (pc_setRemoteDescription an_offer
                      (new_RTCPeerConnection "broadcaster" 2
                         [ {| receiver_kind := audio; direction := sendrecv;
                              sender_track := None |};
                           {| receiver_kind := video; direction := recvonly;
                              sender_track := None |} ])))
                an_offer (host_candidate Undefined) "InvalidStateError: not ready"
                answered
                ltac:(vm_compute; reflexivity) ltac:(reflexivity)
                ltac:(vm_compute; set_solver) ltac:(discriminate)
                ltac:(vm_compute; reflexivity)) as (Htr & Hother & _).
  split; [|exact (Hother eq_refl)].
  unfold appliedCandidates. subst s'. rewrite Htr. vm_compute. reflexivity.
Defined.

(** ** Offers and answers, the other cases *)

(** X5.  [createOffer] for a peer of the registry, off Firefox, when the
    browser accepts: there is one [setLocalDescription], with the offer
    of the browser, which is also the value returned; the connection
    holds it as local description and is in the signaling state an offer
    leads to.  Nothing else of the connection changes. *)
Theorem createOffer_sets_local_description peerId h pc o modified reapplied s :
  getPc peerId s = Some (h, pc) →
  isFirefox s = false →
  let r := createOffer peerId (Resolves o) ok modified reapplied s in
  r.1 = Returned o
  ∧ trace r.2 = trace s ++ [PcSetLocalDescription h o]
  ∧ getPc peerId r.2 = Some (h, pc_setLocalDescription o pc)
  ∧ (sdp_type o = offer →
     (signalingState <$> (snd <$> getPc peerId r.2)) = Some have_local_offer).
Proof.
  intros Hpc Hff. unfold createOffer. rewrite Hpc. simpl.
  rewrite Hff. simpl.
  assert (Hpc' : getPc peerId (updatePc h (pc_setLocalDescription o)
                                 (emit (PcSetLocalDescription h o) s))
                 = Some (h, pc_setLocalDescription o pc))
    by (apply (getPc_updatePc peerId h pc _ s); done).
  repeat split; [exact Hpc'|]. intros Ho. rewrite Hpc'. simpl. by rewrite Ho.
Qed.

Lemma createOffer_sets_local_description_witness :
  (signalingState <$> (snd <$> getPc "viewer-1" offered)) = Some have_local_offer.
Proof.
  destruct (createOffer_sets_local_description "viewer-1" 1
              (new_RTCPeerConnection "viewer-1" 2 []) an_offer "" ok
              (createPeerConnection "viewer-1" true (initial false)).2
              ltac:(vm_compute; reflexivity) ltac:(reflexivity))
    as (_ & _ & _ & Hst).
  exact (Hst eq_refl).
Defined.

(** X6.  [createAnswer] while a remote offer is already pending
    ([have-remote-offer]): the offer passed in is not applied.  There is
    no call of [setRemoteDescription], the remote description stays the
    one held before and the queue is not flushed; an answer is
    nevertheless created and set locally. *)
Theorem createAnswer_with_pending_remote_offer peerId h pc o applied a s :
  getPc peerId s = Some (h, pc) →
  signalingState pc = have_remote_offer →
  let r := createAnswer peerId o applied (Resolves a) ok s in
  r.1 = Returned a
  ∧ trace r.2 = trace s ++ [PcSetLocalDescription h a]
  ∧ queuedIceCandidates r.2 = queuedIceCandidates s
  ∧ (remoteDescription <$> (snd <$> getPc peerId r.2)) = Some (remoteDescription pc).
Proof.
  intros Hpc Hst. unfold createAnswer. rewrite Hpc, Hst. simpl.
  repeat split.
  rewrite (getPc_updatePc peerId h pc _ s); done.
Qed.

Definition another_offer : RTCSessionDescriptionInit :=
  {| sdp_type := offer; sdp := "v=0 second offer" |}.

(** A viewer that applied the broadcaster's offer but could not yet make
    its answer. *)
Definition holding_remote_offer : State :=
  (createAnswer "broadcaster" an_offer ok (Rejects "not ready") ok viewing).2.

Lemma createAnswer_with_pending_remote_offer_witness :
  let r := createAnswer "broadcaster" another_offer ok (Resolves an_answer) ok
             holding_remote_offer in
  (remoteDescription <$> (snd <$> getPc "broadcaster" r.2)) = Some (Some an_offer).
Proof.
  intros r.
  destruct (createAnswer_with_pending_remote_offer "broadcaster" 1
              (pc_setRemoteDescription an_offer
                 (new_RTCPeerConnection "broadcaster" 2
                    [ {| receiver_kind := audio; direction := sendrecv;
                         sender_track := None |};
                      {| receiver_kind := video; direction := recvonly;
                         sender_track := None |} ]))
              another_offer ok an_answer holding_remote_offer
              ltac:(vm_compute; reflexivity) ltac:(reflexivity))
    as (_ & _ & _ & Hrd).
  exact Hrd.
Defined.

(** X7.  What the methods do for a peer id that is not in the registry:
    [createOffer] and [createAnswer] throw "Peer connection not found",
    the other methods return normally, and in every case the state is
    left exactly as it was (nothing is sent, queued or recorded). *)
Theorem unknown_peer_changes_nothing peerId s :
  peerConnections s !! peerId = None →
  (∀ created applied modified reapplied,
     createOffer peerId created applied modified reapplied s
     = (Threw "Peer connection not found", s))
  ∧ (∀ o applied created appliedLocal,
       createAnswer peerId o applied created appliedLocal s
       = (Threw "Peer connection not found", s))
  ∧ (∀ c added, addIceCandidate peerId c added s = s)
  ∧ processQueuedIceCandidates peerId s = s
  ∧ (∀ t attached created applied,
       enableViewerAudio peerId t attached created applied s = (Returned (), s))
  ∧ (∀ created applied,
       disableViewerAudio peerId created applied s = (Returned (), s))
  ∧ getStreamStats peerId s = s.
Proof.
  intros Hnone.
  assert (Hpc : getPc peerId s = None) by (unfold getPc; by rewrite Hnone).
  unfold createOffer, createAnswer, addIceCandidate, processQueuedIceCandidates,
    enableViewerAudio, disableViewerAudio, getStreamStats.
  rewrite Hpc. repeat split.
  by destruct (queuedIceCandidates s !! peerId) as [[|]|].
Qed.

Lemma unknown_peer_changes_nothing_witness :
  enableViewerAudio "nobody" microphone ok (Resolves an_offer) ok viewing
  = (Returned (), viewing).
Proof.
  destruct (unknown_peer_changes_nothing "nobody" viewing ltac:(vm_compute; reflexivity))
    as (_ & _ & _ & _ & Henable & _).
  apply Henable.
Defined.


(** ** Toggling and acquiring local media *)

Lemma foldl_insert_lookup (b : bool) (ts : list MediaStreamTrack)
    (m : gmap nat bool) (k : nat) :
  foldl (λ m t, <[track_id t := b]> m) m ts !! k
  = if decide (k ∈ track_id <$> ts) then Some b else m !! k.
Proof.
  revert m. induction ts as [|t ts IH]; intros m; cbn [foldl].
  - rewrite decide_False; [done|]. apply not_elem_of_nil.
  - rewrite IH, fmap_cons.
    destruct (decide (k ∈ track_id <$> ts)) as [Hin|Hin].
    + rewrite decide_True; [done|]. by right.
    + destruct (decide (k = track_id t)) as [->|Hne].
      * rewrite decide_True by left. by rewrite lookup_insert_eq.
      * rewrite decide_False by (by intros [?|?]%elem_of_cons).
        by rewrite lookup_insert_ne.
Qed.

Lemma setEnabled_enabled b ts t s :
  enabled t (setEnabled b ts s)
  = if decide (track_id t ∈ track_id <$> ts) then b else enabled t s.
Proof.
  rewrite setEnabled_nf. unfold enabled. cbn [trackEnabled set_trackEnabled].
  rewrite foldl_insert_lookup. by case_decide.
Qed.

(** X8.  [toggleAudio] and [toggleVideo] only write [enabled] flags.
    With a local stream, [toggleAudio] gives the flag to every audio
    track of the stream and [toggleVideo] (when no screen is shared) to
    every video track; the flag of any other track is as before, no
    connection is touched and nothing is sent to the browser or to the
    peer: no renegotiation. *)
Theorem toggle_writes_only_enabled_flags b ls s :
  localStream s = Some ls →
  (let s' := toggleAudio b s in
   trace s' = trace s ∧ pcs s' = pcs s
   ∧ ∀ t, enabled t s' = if decide (track_id t ∈ track_id <$> getAudioTracks ls)
                         then b else enabled t s)
  ∧ (screenStream s = None →
     let s' := toggleVideo b s in
     trace s' = trace s ∧ pcs s' = pcs s
     ∧ ∀ t, enabled t s' = if decide (track_id t ∈ track_id <$> getVideoTracks ls)
                           then b else enabled t s).
Proof.
  intros Hls. split.
  - unfold toggleAudio. rewrite Hls. cbv zeta.
    split; [by rewrite setEnabled_nf|]. split; [by rewrite setEnabled_nf|].
    intros t. apply setEnabled_enabled.
  - intros Hno. unfold toggleVideo. rewrite Hls, Hno. cbv zeta.
    split; [by rewrite setEnabled_nf|]. split; [by rewrite setEnabled_nf|].
    intros t. apply setEnabled_enabled.
Qed.

Lemma toggle_writes_only_enabled_flags_witness :
  enabled microphone (toggleAudio false broadcasting) = false
  ∧ enabled camera (toggleAudio false broadcasting) = true.
Proof.
  destruct (toggle_writes_only_enabled_flags false camera_stream broadcasting
              ltac:(reflexivity)) as [(_ & _ & Hflag) _].
  split; rewrite Hflag; vm_compute; reflexivity.
Defined.

(** X9.  [initializeLocalStream] either gets a stream, stores it as the
    local stream with every track of it enabled, and returns it; or it
    throws and leaves the state as it was.  Off Firefox the outcome is
    the browser's answer to the one [getUserMedia] call; on Firefox a
    first failure is followed by a second attempt, and by a third when
    the first failure was [OverconstrainedError] and the second attempt
    failed too. *)
Theorem initializeLocalStream_outcomes first second third s :
  let r := initializeLocalStream first second third s in
  match acquireUserMedia (isFirefox s) first second third with
  | GotStream m =>
      r.1 = Returned m
      ∧ localStream r.2 = Some m
      ∧ (∀ t, t ∈ getTracks m → enabled t r.2 = true)
      ∧ trace r.2 = trace s ∧ peerConnections r.2 = peerConnections s
  | MediaError name message =>
      r = (Threw (classifyMediaError (isFirefox s) name message), s)
  end
  ∧ (isFirefox s = false → acquireUserMedia (isFirefox s) first second third = first)
  ∧ (isFirefox s = true → ∀ m,
       acquireUserMedia (isFirefox s) first second third = GotStream m ↔
       first = GotStream m
       ∨ (∃ name message, first = MediaError name message ∧ second = GotStream m)
       ∨ (∃ message name2 message2,
            first = MediaError "OverconstrainedError" message
            ∧ second = MediaError name2 message2 ∧ third = GotStream m)).
Proof.
  split; [|split].
  - unfold initializeLocalStream.
    destruct (acquireUserMedia (isFirefox s) first second third) as [m|name message];
      [|done].
    cbv zeta. cbn [fst snd]. rewrite setEnabled_nf. cbn.
    repeat split. intros t Ht. unfold enabled. cbn.
    rewrite foldl_insert_lookup, decide_True; [done|].
    apply list_elem_of_fmap. eauto.
  - by intros ->.
  - intros -> m. cbn [acquireUserMedia]. split.
    + destruct first as [m1|name message]; [intros [= ->]; by left|].
      destruct (String.eqb name "OverconstrainedError") eqn:Hname.
      * apply String.eqb_eq in Hname as ->.
        destruct second as [m2|name2 message2]; [intros [= ->]; right; left; eauto|].
        intros ->. right; right. eauto 10.
      * intros ->. right; left. eauto.
    + intros [->|[(name & message & -> & ->)|(message & name2 & message2 & -> & -> & ->)]];
        [done| |done].
      by destruct (String.eqb name "OverconstrainedError").
Qed.

(** ** Connection state changes *)

Lemma clearConnectionTimeout_nf pc s :
  clearConnectionTimeout pc s =
  set_timers (match connectionState pc with
              | connected | failed => delete (pc_connectionTimeout pc) (timers s)
              | _ => timers s
              end) s.
Proof.
  unfold clearConnectionTimeout, clearTimer.
  destruct (connectionState pc); try done; by destruct s.
Qed.

Lemma watchStuckConnection_nf h pc s :
  watchStuckConnection h pc s =
  set_timers (match connectionState pc with
              | connecting => <[nextHandle s := StuckConnecting h]> (timers s)
              | _ => timers s
              end)
    (set_nextHandle (match connectionState pc with
                     | connecting => S (nextHandle s)
                     | _ => nextHandle s
                     end) s).
Proof.
  unfold watchStuckConnection, setTimer, fresh.
  destruct (connectionState pc); try done; by destruct s.
Qed.

(** The callback of a connection state change, block by block. *)
Lemma step_connectionStateChange h pc st s :
  pcs s !! h = Some pc →
  signalingState pc ≠ signaling_closed →
  step (ConnectionStateChange h st) s =
  let pc' := pc_set_connectionState st pc in
  removeLostPeer (pc_peerId pc) st
    (reportPeerState (pc_peerId pc) st
       (startHealthCheck h (pc_peerId pc)
          (watchStuckConnection h pc'
             (clearConnectionTimeout pc'
                (updatePc h (pc_set_connectionState st) s))))).
Proof.
  intros Hpc Hopen. unfold step, is_open. rewrite Hpc.
  rewrite bool_decide_eq_false_2 by exact Hopen. simpl negb. cbv iota.
  unfold onconnectionstatechange.
  replace (pcs (updatePc h (pc_set_connectionState st) s) !! h)
    with (Some (pc_set_connectionState st pc))
    by (unfold updatePc; simpl; by rewrite lookup_alter_eq, Hpc).
  reflexivity.
Qed.



(** X11.  Every state change of a connection orphans the health check
    interval stored for its peer.  When the connection moves to a state
    other than [failed] and [disconnected] while an interval is stored,
    a new interval is created and stored in its place; the old one is
    not cleared and keeps running, and a later [removePeer] cancels the
    new one only. *)
Theorem state_change_orphans_stored_interval h pc st old cb s :
  pcs s !! h = Some pc →
  signalingState pc ≠ signaling_closed →
  st ≠ failed → st ≠ disconnected →
  healthCheckIntervals s !! pc_peerId pc = Some old →
  timers s !! old = Some cb →
  old < nextHandle s →
  old ≠ pc_connectionTimeout pc →
  let peerId := pc_peerId pc in
  let s' := step (ConnectionStateChange h st) s in
  ∃ new,
    healthCheckIntervals s' !! peerId = Some new
    ∧ new ≠ old
    ∧ timers s' !! new = Some (HealthCheck h)
    ∧ timers s' !! old = Some cb
    ∧ timers (removePeer peerId s') !! new = None
    ∧ timers (removePeer peerId s') !! old = Some cb.
Proof.
  intros Hpc Hopen Hf Hd Hold Hcb Hlt Hne peerId s'. subst s'.
  rewrite (step_connectionStateChange h pc st s Hpc Hopen). cbv zeta.
  fold peerId.
  assert (Hkeep : removeLostPeer peerId st = λ s, s)
    by (by destruct st).
  rewrite Hkeep.
  stage (updatePc h (pc_set_connectionState st) s) updatePc_nf.
  stage (clearConnectionTimeout (pc_set_connectionState st pc) s0)
    clearConnectionTimeout_nf.
  stage (watchStuckConnection h (pc_set_connectionState st pc) s1)
    watchStuckConnection_nf.
  stage (startHealthCheck h peerId s2) startHealthCheck_nf.
  stage (reportPeerState peerId st s3) reportPeerState_nf.
  destruct (removePeer_spec peerId s4) as (_ & _ & _ & _ & Htimers & _).
  exists (nextHandle s2). rewrite Htimers. chase.
  rewrite !lookup_insert_eq.
  assert (Hnew : nextHandle s ≤ match st with
                                | connecting => S (nextHandle s)
                                | _ => nextHandle s
                                end) by (destruct st; lia).
  assert (Hold1 : match st with
                  | connected | failed => delete (pc_connectionTimeout pc) (timers s)
                  | _ => timers s
                  end !! old = Some cb)
    by (destruct st; rewrite ?lookup_delete_ne by done; done).
  assert (Hold2 : match st with
                  | connecting =>
                      <[nextHandle s := StuckConnecting h]>
                        match st with
                        | connected | failed =>
                            delete (pc_connectionTimeout pc) (timers s)
                        | _ => timers s
                        end
                  | _ => match st with
                         | connected | failed =>
                             delete (pc_connectionTimeout pc) (timers s)
                         | _ => timers s
                         end
                  end !! old = Some cb)
    by (destruct st; rewrite ?lookup_insert_ne by lia; done).
  split; [done|]. split; [lia|]. split; [done|].
  split; [by rewrite lookup_insert_ne by lia|].
  split; [apply lookup_delete_eq|].
  rewrite lookup_delete_ne by lia. by rewrite lookup_insert_ne by lia.
Qed.

(** The viewer of [offered], connecting. *)
Definition connecting_viewer : State :=
  step (ConnectionStateChange 1 connecting) offered.

Lemma state_change_orphans_stored_interval_witness :
  ∃ new, new ≠ 5
         ∧ timers (removePeer "viewer-1"
                     (step (ConnectionStateChange 1 connected) connecting_viewer))
           !! 5 = Some (HealthCheck 1).
Proof.
  destruct (state_change_orphans_stored_interval 1
              (pc_set_connectionState connecting
                 (pc_setLocalDescription an_offer
                    (new_RTCPeerConnection "viewer-1" 2 [])))
              connected 5 (HealthCheck 1) connecting_viewer
              ltac:(vm_compute; reflexivity) ltac:(discriminate)
              ltac:(discriminate) ltac:(discriminate)
              ltac:(vm_compute; reflexivity) ltac:(vm_compute; reflexivity)
              ltac:(vm_compute; lia) ltac:(vm_compute; lia))
    as (new & _ & Hne & _ & _ & _ & Hleft).
  exists new. split; [exact Hne|exact Hleft].
Defined.

(** X12.  Reaching [connected] cancels the connection timeout: it is no
    longer scheduled, and if the browser still reports its firing nothing
    happens, so the restart of Firefox cannot come after the connection
    was established. *)
Theorem connected_cancels_connection_timeout h pc s :
  pcs s !! h = Some pc →
  signalingState pc ≠ signaling_closed →
  pc_connectionTimeout pc < nextHandle s →
  let s' := step (ConnectionStateChange h connected) s in
  timers s' !! pc_connectionTimeout pc = None
  ∧ fireTimer (pc_connectionTimeout pc) s' = s'
  ∧ restartIceCalls s' = restartIceCalls s.
Proof.
  intros Hpc Hopen Hlt s'.
  assert (Htimer : timers s' !! pc_connectionTimeout pc = None).
  { subst s'. rewrite (step_connectionStateChange h pc connected s Hpc Hopen).
    cbv zeta. unfold removeLostPeer.
    stage (updatePc h (pc_set_connectionState connected) s) updatePc_nf.
    stage (clearConnectionTimeout (pc_set_connectionState connected pc) s0)
      clearConnectionTimeout_nf.
    stage (watchStuckConnection h (pc_set_connectionState connected pc) s1)
      watchStuckConnection_nf.
    stage (startHealthCheck h (pc_peerId pc) s2) startHealthCheck_nf.
    stage (reportPeerState (pc_peerId pc) connected s3) reportPeerState_nf.
    chase. rewrite lookup_insert_ne by lia. apply lookup_delete_eq. }
  split; [exact Htimer|]. split.
  - unfold fireTimer. by rewrite Htimer.
  - destruct (quiet_no_restart s s') as [Hq _];
      [apply step_quiet; intros id; discriminate|].
    by rewrite Hq, app_nil_r.
Qed.


(** A connection to a viewer, connecting, in Firefox. *)
Definition connecting_in_firefox : State :=
  run [CreatePeerConnection "viewer-1" true;
       ConnectionStateChange 1 connecting] (initial true).

Lemma connected_cancels_connection_timeout_witness :
  fireTimer 2 (step (ConnectionStateChange 1 connected) connecting_in_firefox)
  = step (ConnectionStateChange 1 connected) connecting_in_firefox
  ∧ restartIceCalls (step (ConnectionStateChange 1 connected) connecting_in_firefox)
    = [].
Proof.
  destruct (connected_cancels_connection_timeout 1
              (pc_set_connectionState connecting
                 (new_RTCPeerConnection "viewer-1" 2 []))
              connecting_in_firefox ltac:(vm_compute; reflexivity) ltac:(discriminate)
              ltac:(vm_compute; lia)) as (_ & Hfire & Hquiet).
  split; [exact Hfire|].
  rewrite Hquiet. vm_compute. reflexivity.
Defined.

(** ** Teardown *)

Lemma stopLocalStream_nf s :
  stopLocalStream s =
  set_localStream None
    (set_trackEnded (match localStream s with
                     | Some ls => foldl (λ m t, m ∪ {[track_id t]})
                                    (trackEnded s) (getTracks ls)
                     | None => trackEnded s
                     end) s).
Proof.
  unfold stopLocalStream. destruct (localStream s) eqn:H.
  - by rewrite stopTracks_nf.
  - destruct s; simpl in *; by subst.
Qed.

Lemma stopScreenStream_nf s :
  stopScreenStream s =
  set_screenStream None
    (set_trackEnded (match screenStream s with
                     | Some screen => foldl (λ m t, m ∪ {[track_id t]})
                                        (trackEnded s) (getTracks screen)
                     | None => trackEnded s
                     end) s).
Proof.
  unfold stopScreenStream. destruct (screenStream s) eqn:H.
  - by rewrite stopTracks_nf.
  - destruct s; simpl in *; by subst.
Qed.

Lemma closeConnections_nf s :
  forEachOf peerConnections (λ _ h, updatePc h pc_close) s =
  set_pcs (foldl (λ P kv, alter pc_close kv.2 P) (pcs s)
             (map_to_list (peerConnections s))) s.
Proof.
  unfold forEachOf, forEach. generalize (map_to_list (peerConnections s)).
  intros l. revert s. induction l as [|kv l IH]; intros s; cbn [foldl].
  - by destruct s.
  - rewrite IH. reflexivity.
Qed.

Lemma closeChannels_nf s :
  forEachOf dataChannels (λ _ ch, closeChannel ch) s =
  set_channels (foldl (λ C kv, alter channel_close kv.2 C) (channels s)
                  (map_to_list (dataChannels s))) s.
Proof.
  unfold forEachOf, forEach. generalize (map_to_list (dataChannels s)).
  intros l. revert s. induction l as [|kv l IH]; intros s; cbn [foldl].
  - by destruct s.
  - rewrite IH. reflexivity.
Qed.

Lemma clearIntervals_nf s :
  forEachOf healthCheckIntervals (λ _ interval, clearTimer interval) s =
  set_timers (foldl (λ T kv, delete kv.2 T) (timers s)
                (map_to_list (healthCheckIntervals s))) s.
Proof.
  unfold forEachOf, forEach. generalize (map_to_list (healthCheckIntervals s)).
  intros l. revert s. induction l as [|kv l IH]; intros s; cbn [foldl].
  - by destruct s.
  - rewrite IH. reflexivity.
Qed.

Lemma detachElements_nf s :
  forEachOf viewerAudioElements (λ _ el, detachAudioElement el) s =
  set_body (foldl (λ B kv, List.filter (λ e, negb (Nat.eqb e kv.2)) B) (body s)
              (map_to_list (viewerAudioElements s)))
    (set_audioElements
       (foldl (λ A kv, alter pause_and_detach kv.2 A) (audioElements s)
          (map_to_list (viewerAudioElements s))) s).
Proof.
  unfold forEachOf, forEach. generalize (map_to_list (viewerAudioElements s)).
  intros l. revert s. induction l as [|kv l IH]; intros s; cbn [foldl].
  - by destruct s.
  - rewrite IH. reflexivity.
Qed.

Lemma stopViewerTracks_nf s :
  forEachOf viewerAudioTracks (λ _ track, stopTracks [track]) s =
  set_trackEnded (foldl (λ m kv, m ∪ {[track_id kv.2]}) (trackEnded s)
                    (map_to_list (viewerAudioTracks s))) s.
Proof.
  unfold forEachOf, forEach. generalize (map_to_list (viewerAudioTracks s)).
  intros l. revert s. induction l as [|kv l IH]; intros s; cbn [foldl].
  - by destruct s.
  - rewrite IH. reflexivity.
Qed.

Lemma foldl_alter_lookup {K A} (f : A → A) (l : list (K * Handle))
    (P : gmap Handle A) (h : Handle) :
  (∀ x, f (f x) = f x) →
  foldl (λ P kv, alter f kv.2 P) P l !! h
  = if decide (h ∈ l.*2) then f <$> P !! h else P !! h.
Proof.
  intros Hf. revert P. induction l as [|kv l IH]; intros P; cbn [foldl].
  - rewrite decide_False; [done|]. rewrite fmap_nil. apply not_elem_of_nil.
  - rewrite IH, fmap_cons.
    destruct (decide (h = kv.2)) as [->|Hne].
    + rewrite lookup_alter_eq. rewrite (decide_True (P := _ ∈ _ :: _)) by left.
      destruct (P !! kv.2); simpl; [|by case_decide].
      rewrite Hf. by case_decide.
    + rewrite lookup_alter_ne by done.
      destruct (decide (h ∈ l.*2)) as [Hin|Hin].
      * by rewrite decide_True by (by right).
      * rewrite decide_False; [done|].
        intros [?|?]%elem_of_cons; done.
Qed.

Lemma foldl_delete_lookup {K A} (l : list (K * Handle)) (T : gmap Handle A)
    (t : Handle) :
  foldl (λ T kv, delete kv.2 T) T l !! t
  = if decide (t ∈ l.*2) then None else T !! t.
Proof.
  revert T. induction l as [|kv l IH]; intros T; cbn [foldl].
  - rewrite decide_False; [done|]. rewrite fmap_nil. apply not_elem_of_nil.
  - rewrite IH, fmap_cons.
    destruct (decide (t = kv.2)) as [->|Hne].
    + rewrite lookup_delete_eq. rewrite (decide_True (P := _ ∈ _ :: _)) by left.
      by case_decide.
    + rewrite lookup_delete_ne by done.
      destruct (decide (t ∈ l.*2)) as [Hin|Hin].
      * by rewrite decide_True by (by right).
      * rewrite decide_False; [done|].
        intros [?|?]%elem_of_cons; done.
Qed.

Lemma foldl_filter_elem_of {K} (l : list (K * Handle)) (B : list Handle)
    (el : Handle) :
  el ∈ foldl (λ B kv, List.filter (λ e, negb (Nat.eqb e kv.2)) B) B l
  ↔ el ∈ B ∧ el ∉ l.*2.
Proof.
  revert B. induction l as [|kv l IH]; intros B; cbn [foldl].
  - rewrite fmap_nil. split; [|by intros [? _]].
    intros ?. split; [done|apply not_elem_of_nil].
  - rewrite IH, fmap_cons, not_elem_of_cons.
    rewrite !list_elem_of_In, filter_In, <- !list_elem_of_In.
    rewrite negb_true_iff, Nat.eqb_neq. tauto.
Qed.

Lemma foldl_union_elem_of {A} (f : A → nat) (l : list A) (m : gset nat)
    (x : nat) :
  x ∈ foldl (λ m a, m ∪ {[f a]}) m l ↔ x ∈ m ∨ x ∈ f <$> l.
Proof.
  revert m. induction l as [|a l IH]; intros m; cbn [foldl].
  - rewrite fmap_nil. set_solver.
  - rewrite IH, fmap_cons. set_solver.
Qed.

Lemma elem_of_map_to_list_2 {A} (m : gmap string A) (k : string) (x : A) :
  m !! k = Some x → x ∈ (map_to_list m).*2.
Proof.
  intros H. apply list_elem_of_fmap. exists (k, x). split; [done|].
  by apply elem_of_map_to_list.
Qed.

Lemma not_elem_of_map_to_list_2 {A} (m : gmap string A) (x : A) :
  (∀ k, m !! k ≠ Some x) → x ∉ (map_to_list m).*2.
Proof.
  intros H [[k y] [-> Hin]]%list_elem_of_fmap.
  apply elem_of_map_to_list in Hin. by apply (H k).
Qed.

Lemma live_false t s : live t s = false ↔ track_id t ∈ trackEnded s.
Proof.
  unfold live. rewrite bool_decide_eq_false. split; [apply dec_stable|].
  intros H Hn. by apply Hn.
Qed.

Lemma ended_by_cleanup (ended : gset nat) (ls screen : option MediaStream)
    (viewers : gmap string MediaStreamTrack) (x : nat) :
  x ∈ foldl (λ m kv, m ∪ {[track_id kv.2]})
        (match screen with
         | Some sc =>
             foldl (λ m t, m ∪ {[track_id t]})
               (match ls with
                | Some l => foldl (λ m t, m ∪ {[track_id t]}) ended (getTracks l)
                | None => ended
                end) (getTracks sc)
         | None =>
             match ls with
             | Some l => foldl (λ m t, m ∪ {[track_id t]}) ended (getTracks l)
             | None => ended
             end
         end) (map_to_list viewers)
  ↔ x ∈ ended
    ∨ (∃ l, ls = Some l ∧ x ∈ track_id <$> getTracks l)
    ∨ (∃ sc, screen = Some sc ∧ x ∈ track_id <$> getTracks sc)
    ∨ (∃ peerId t', viewers !! peerId = Some t' ∧ track_id t' = x).
Proof.
  rewrite (foldl_union_elem_of (λ kv : string * MediaStreamTrack, track_id kv.2)).
  assert (Hviewers :
    x ∈ (λ kv : string * MediaStreamTrack, track_id kv.2) <$> map_to_list viewers
    ↔ ∃ peerId t', viewers !! peerId = Some t' ∧ track_id t' = x).
  { rewrite list_elem_of_fmap. split.
    - intros [[k t'] [-> Hin]]. apply elem_of_map_to_list in Hin. eauto.
    - intros (k & t' & Hin & Heq). exists (k, t'). split; [done|].
      by apply elem_of_map_to_list. }
  rewrite Hviewers.
  destruct ls as [l|], screen as [sc|];
    rewrite ?(foldl_union_elem_of track_id); naive_solver.
Qed.

Lemma pc_close_idemp pc : pc_close (pc_close pc) = pc_close pc.
Proof. reflexivity. Qed.

(** What [cleanup] does to each part of the state. *)
Lemma cleanup_spec generated s :
  let s' := cleanup generated s in
  (peerConnections s' = ∅ ∧ dataChannels s' = ∅ ∧ healthCheckIntervals s' = ∅
   ∧ queuedIceCandidates s' = ∅ ∧ processedCandidates s' = ∅
   ∧ viewerAudioElements s' = ∅ ∧ viewerAudioTracks s' = ∅
   ∧ localStream s' = None ∧ screenStream s' = None
   ∧ currentStreamId s' = "" ∧ serverClientId s' = ""
   ∧ myClientId s' = generated)
  ∧ pcs s' = foldl (λ P kv, alter pc_close kv.2 P) (pcs s)
               (map_to_list (peerConnections s))
  ∧ timers s' = foldl (λ T kv, delete kv.2 T) (timers s)
                  (map_to_list (healthCheckIntervals s))
  ∧ body s' = foldl (λ B kv, List.filter (λ e, negb (Nat.eqb e kv.2)) B) (body s)
                (map_to_list (viewerAudioElements s))
  ∧ trackEnded s' =
      foldl (λ m kv, m ∪ {[track_id kv.2]})
        (match screenStream s with
         | Some sc =>
             foldl (λ m t, m ∪ {[track_id t]})
               (match localStream s with
                | Some l => foldl (λ m t, m ∪ {[track_id t]}) (trackEnded s)
                              (getTracks l)
                | None => trackEnded s
                end) (getTracks sc)
         | None =>
             match localStream s with
             | Some l => foldl (λ m t, m ∪ {[track_id t]}) (trackEnded s)
                           (getTracks l)
             | None => trackEnded s
             end
         end) (map_to_list (viewerAudioTracks s))
  ∧ nextHandle s' = nextHandle s
  ∧ trace s' = trace s.
Proof.
  intros s'. subst s'. unfold cleanup.
  stage (stopLocalStream s) stopLocalStream_nf.
  stage (stopScreenStream s0) stopScreenStream_nf.
  stage (forEachOf peerConnections (λ _ h, updatePc h pc_close) s1)
    closeConnections_nf.
  remember (set_peerConnections ∅ s2) as s3 eqn:Heq3. fields_of Heq3.
  stage (forEachOf dataChannels (λ _ ch, closeChannel ch) s3) closeChannels_nf.
  remember (set_dataChannels ∅ s4) as s5 eqn:Heq5. fields_of Heq5.
  stage (forEachOf healthCheckIntervals (λ _ interval, clearTimer interval) s5)
    clearIntervals_nf.
  remember (set_healthCheckIntervals ∅ s6) as s7 eqn:Heq7. fields_of Heq7.
  remember (set_queuedIceCandidates ∅ s7) as s8 eqn:Heq8. fields_of Heq8.
  remember (set_processedCandidates ∅ s8) as s9 eqn:Heq9. fields_of Heq9.
  stage (forEachOf viewerAudioElements (λ _ el, detachAudioElement el) s9)
    detachElements_nf.
  remember (set_viewerAudioElements ∅ s10) as s11 eqn:Heq11. fields_of Heq11.
  stage (forEachOf viewerAudioTracks (λ _ track, stopTracks [track]) s11)
    stopViewerTracks_nf.
  remember (set_viewerAudioTracks ∅ s12) as s13 eqn:Heq13. fields_of Heq13.
  remember (set_currentStreamId "" s13) as s14 eqn:Heq14. fields_of Heq14.
  remember (set_serverClientId "" s14) as s15 eqn:Heq15. fields_of Heq15.
  remember (set_myClientId generated s15) as s16 eqn:Heq16. fields_of Heq16.
  split; [repeat split; by chase|].
  repeat split; by chase.
Qed.

(** X13.  [cleanup] empties every registry of the service and releases
    what the registries referred to: every registered connection is
    closed, every stored health check interval is cancelled, every
    registered audio element is taken out of the document, and the tracks
    of the local stream, of the screen stream and of the viewers are
    stopped.  It cancels no other timer: a connection timeout, a stuck
    connection check or an interval that is no longer stored stays
    scheduled; and it sends nothing. *)
Theorem cleanup_releases_what_is_registered generated s :
  let s' := cleanup generated s in
  (peerConnections s' = ∅ ∧ dataChannels s' = ∅ ∧ healthCheckIntervals s' = ∅
   ∧ queuedIceCandidates s' = ∅ ∧ processedCandidates s' = ∅
   ∧ viewerAudioElements s' = ∅ ∧ viewerAudioTracks s' = ∅
   ∧ localStream s' = None ∧ screenStream s' = None
   ∧ currentStreamId s' = "" ∧ serverClientId s' = ""
   ∧ myClientId s' = generated)
  ∧ (∀ peerId h, peerConnections s !! peerId = Some h →
       pcs s' !! h = pc_close <$> pcs s !! h)
  ∧ (∀ h, (∀ peerId, peerConnections s !! peerId ≠ Some h) →
       pcs s' !! h = pcs s !! h)
  ∧ (∀ peerId interval, healthCheckIntervals s !! peerId = Some interval →
       timers s' !! interval = None)
  ∧ (∀ id, (∀ peerId, healthCheckIntervals s !! peerId ≠ Some id) →
       timers s' !! id = timers s !! id)
  ∧ (∀ peerId el, viewerAudioElements s !! peerId = Some el → el ∉ body s')
  ∧ (∀ t, live t s' = false ↔
          live t s = false
          ∨ (∃ ls, localStream s = Some ls ∧ track_id t ∈ track_id <$> getTracks ls)
          ∨ (∃ screen, screenStream s = Some screen
                       ∧ track_id t ∈ track_id <$> getTracks screen)
          ∨ (∃ peerId t', viewerAudioTracks s !! peerId = Some t'
                          ∧ track_id t' = track_id t))
  ∧ trace s' = trace s.
Proof.
  intros s'.
  destruct (cleanup_spec generated s)
    as (Hmaps & Hpcs & Htimers & Hbody & Hended & _ & Htrace).
  fold s' in Hmaps, Hpcs, Htimers, Hbody, Hended, Htrace.
  split; [exact Hmaps|].
  split; [|split; [|split; [|split; [|split; [|split]]]]].
  - intros peerId h Hh. rewrite Hpcs.
    rewrite foldl_alter_lookup by apply pc_close_idemp.
    by rewrite decide_True by (by eapply elem_of_map_to_list_2).
  - intros h Hh. rewrite Hpcs.
    rewrite foldl_alter_lookup by apply pc_close_idemp.
    by rewrite decide_False by (by apply not_elem_of_map_to_list_2).
  - intros peerId interval Hi. rewrite Htimers, foldl_delete_lookup.
    by rewrite decide_True by (by eapply elem_of_map_to_list_2).
  - intros id Hid. rewrite Htimers, foldl_delete_lookup.
    by rewrite decide_False by (by apply not_elem_of_map_to_list_2).
  - intros peerId el Hel. rewrite Hbody, foldl_filter_elem_of.
    intros [_ Hout]. apply Hout. by eapply elem_of_map_to_list_2.
  - intros t. rewrite !live_false, Hended. apply ended_by_cleanup.
  - exact Htrace.
Qed.

(** ** What holds in every state the service reaches *)

(** [pc'] is the connection [pc] at a later moment: made for the same
    peer, and closed only if [pc] was. *)
Definition same_connection (pc pc' : RTCPeerConnection) : Prop :=
  pc_peerId pc' = pc_peerId pc
  ∧ (signalingState pc' = signaling_closed → signalingState pc = signaling_closed).

Definition gentle (f : RTCPeerConnection → RTCPeerConnection) : Prop :=
  ∀ pc, same_connection pc (f pc).

(** [tame s s']: going from [s] to [s'] left the registry and the audio
    elements as they were, closed no connection and made none. *)
Definition tame (s s' : State) : Prop :=
  nextHandle s ≤ nextHandle s'
  ∧ peerConnections s' = peerConnections s
  ∧ viewerAudioElements s' = viewerAudioElements s
  ∧ body s' = body s
  ∧ ∀ h, option_Forall2 same_connection (pcs s !! h) (pcs s' !! h).

Lemma same_connection_refl pc : same_connection pc pc.
Proof. by split. Qed.

Lemma same_connection_then pc1 pc2 pc3 :
  same_connection pc1 pc2 → same_connection pc2 pc3 → same_connection pc1 pc3.
Proof. intros [E1 C1] [E2 C2]. split; [congruence|tauto]. Qed.

Lemma tame_frame s s' :
  nextHandle s ≤ nextHandle s' →
  peerConnections s' = peerConnections s →
  viewerAudioElements s' = viewerAudioElements s →
  body s' = body s →
  pcs s' = pcs s →
  tame s s'.
Proof.
  intros Hn Hreg Hel Hbody Hpcs. repeat split; try done.
  intros h. rewrite Hpcs. destruct (pcs s !! h); constructor.
  apply same_connection_refl.
Qed.

Lemma tame_refl s : tame s s.
Proof. by apply tame_frame. Qed.

Lemma tame_then m s s' : tame m s' → tame s m → tame s s'.
Proof.
  intros (Hn2 & Hreg2 & Hel2 & Hbody2 & Hpcs2) (Hn1 & Hreg1 & Hel1 & Hbody1 & Hpcs1).
  repeat split; [lia|congruence..|].
  intros h. specialize (Hpcs1 h). specialize (Hpcs2 h).
  destruct Hpcs1 as [pc1 pc2 H12|]; inversion Hpcs2; subst; constructor.
  by eapply same_connection_then.
Qed.

Lemma tame_updatePc h f s : gentle f → tame s (updatePc h f s).
Proof.
  intros Hf. repeat split; try done. intros h'. unfold updatePc. simpl.
  destruct (decide (h' = h)) as [->|Hne].
  - rewrite lookup_alter_eq. destruct (pcs s !! h); constructor. apply Hf.
  - rewrite lookup_alter_ne by done. destruct (pcs s !! h'); constructor.
    apply same_connection_refl.
Qed.

Lemma tame_emit e s : tame s (emit e s).
Proof. by apply tame_frame. Qed.

Lemma tame_setTimer cb s : tame s (setTimer cb s).2.
Proof. apply tame_frame; try done. simpl. lia. Qed.

Lemma tame_clearTimer id s : tame s (clearTimer id s).
Proof. by apply tame_frame. Qed.

Lemma tame_foldl {A} (f : State → A → State) (l : list A) s :
  (∀ s x, tame s (f s x)) → tame s (foldl f s l).
Proof.
  intros Hf. revert s. induction l as [|x l IH]; intros s; simpl.
  - apply tame_refl.
  - eapply tame_then; [apply IH|apply Hf].
Qed.

Lemma tame_forEach {V} (m : gmap string V) body s :
  (∀ k v s, tame s (body k v s)) → tame s (forEach m body s).
Proof. intros Hb. unfold forEach. apply tame_foldl. intros; apply Hb. Qed.

Ltac solve_gentle :=
  intros ?; split;
  [ repeat (simpl; try reflexivity; case_match)
  | repeat (simpl; try tauto; try discriminate; case_match) ].

Lemma gentle_setLocalDescription d : gentle (pc_setLocalDescription d).
Proof. solve_gentle. Qed.
Lemma gentle_setRemoteDescription d : gentle (pc_setRemoteDescription d).
Proof. solve_gentle. Qed.
Lemma gentle_set_connectionState st : gentle (pc_set_connectionState st).
Proof. solve_gentle. Qed.
Lemma gentle_set_iceConnectionState st : gentle (pc_set_iceConnectionState st).
Proof. solve_gentle. Qed.
Lemma gentle_set_transceivers (g : RTCPeerConnection → list RTCRtpTransceiver) :
  gentle (λ pc, pc_set_transceivers (g pc) pc).
Proof. solve_gentle. Qed.
Lemma gentle_attachAudio t : gentle (attachAudio t).
Proof. intros pc. unfold attachAudio, pc_addTrack. repeat case_match; by split. Qed.

Create HintDb tame.
#[local] Hint Resolve tame_refl tame_emit tame_setTimer tame_clearTimer : tame.
#[local] Hint Resolve gentle_setLocalDescription gentle_setRemoteDescription
  gentle_set_connectionState gentle_set_iceConnectionState gentle_attachAudio : tame.
#[local] Hint Extern 1 (tame _ (updatePc _ _ _)) => apply tame_updatePc : tame.
#[local] Hint Extern 1 (gentle (λ pc, pc_set_transceivers _ pc)) =>
  apply (gentle_set_transceivers _) : tame.

(** One step of a proof that a method is tame: split on the next test of
    the method, or peel its last state change off. *)
Ltac tame_leaf :=
  first [ solve [ eauto 3 with tame nocore ]
        | solve [ apply tame_frame; [simpl; lia|reflexivity..] ] ].

Ltac tame_step :=
  lazymatch goal with
  | |- tame ?s ?s => apply tame_refl
  | |- tame _ (snd (_, _)) => cbn [snd]
  | |- tame _ (match (_, _) with _ => _ end) => cbv beta iota
  | |- tame _ (match (match ?x with _ => _ end) with _ => _ end) =>
      destruct x eqn:?; cbv beta iota
  | |- tame _ (snd (match (match ?x with _ => _ end) with _ => _ end)) =>
      destruct x eqn:?; cbv beta iota
  | |- tame _ (snd (match ?x with _ => _ end)) => destruct x eqn:?; cbv beta iota
  | |- tame _ (match ?x with _ => _ end) => destruct x eqn:?; cbv beta iota
  | |- tame ?s (snd (?g ?s0)) =>
      lazymatch type of s0 with State => idtac end;
      apply (tame_then s0); [ generalize s0; intros ?; tame_leaf | ]
  | |- tame ?s (?g ?s0) =>
      lazymatch type of s0 with State => idtac end;
      apply (tame_then s0); [ generalize s0; intros ?; tame_leaf | ]
  end.

Ltac tame := cbv zeta; repeat tame_step.

Lemma tame_setEnabled b ts s : tame s (setEnabled b ts s).
Proof. rewrite setEnabled_nf. by apply tame_frame. Qed.
Lemma tame_stopTracks ts s : tame s (stopTracks ts s).
Proof. rewrite stopTracks_nf. by apply tame_frame. Qed.
#[local] Hint Resolve tame_setEnabled tame_stopTracks : tame.

Lemma tame_processQueuedIceCandidates peerId s :
  tame s (processQueuedIceCandidates peerId s).
Proof.
  unfold processQueuedIceCandidates. tame.
  apply tame_foldl. intros. apply tame_emit.
Qed.
#[local] Hint Resolve tame_processQueuedIceCandidates : tame.

Lemma tame_addIceCandidate peerId c added s :
  tame s (addIceCandidate peerId c added s).
Proof. unfold addIceCandidate. tame. Qed.

Lemma tame_createOffer peerId created applied m reapplied s :
  tame s (createOffer peerId created applied m reapplied s).2.
Proof. unfold createOffer. tame. Qed.

Lemma tame_handleAnswer peerId a applied s :
  tame s (handleAnswer peerId a applied s).2.
Proof. unfold handleAnswer. tame. Qed.

Lemma tame_createAnswer peerId o applied created appliedLocal s :
  tame s (createAnswer peerId o applied created appliedLocal s).2.
Proof. unfold createAnswer. tame. Qed.

Lemma tame_renegotiate peerId created applied s :
  tame s (renegotiate peerId created applied s).2.
Proof. unfold renegotiate. tame. Qed.
#[local] Hint Resolve tame_renegotiate : tame.

Lemma tame_enableViewerAudio peerId t attached created applied s :
  tame s (enableViewerAudio peerId t attached created applied s).2.
Proof. unfold enableViewerAudio. tame. Qed.

Lemma tame_disableViewerAudio peerId created applied s :
  tame s (disableViewerAudio peerId created applied s).2.
Proof. unfold disableViewerAudio. tame. Qed.

Lemma tame_replaceVideoTrack t replaced s : tame s (replaceVideoTrack t replaced s).
Proof.
  unfold replaceVideoTrack. apply tame_forEach. intros.
  unfold replaceVideoTrackOn. tame.
Qed.
#[local] Hint Resolve tame_replaceVideoTrack : tame.

Lemma tame_stopScreenShare replaced s : tame s (stopScreenShare replaced s).
Proof. unfold stopScreenShare. tame. Qed.

Lemma tame_initializeScreenShare captured replaced s :
  tame s (initializeScreenShare captured replaced s).2.
Proof. unfold initializeScreenShare. tame. Qed.

Lemma tame_initializeLocalStream r1 r2 r3 s :
  tame s (initializeLocalStream r1 r2 r3 s).2.
Proof. unfold initializeLocalStream. tame. Qed.

Lemma tame_toggleAudio b s : tame s (toggleAudio b s).
Proof. unfold toggleAudio. tame. Qed.

Lemma tame_toggleVideo b s : tame s (toggleVideo b s).
Proof. unfold toggleVideo. tame. Qed.

Lemma tame_setCallbacks a b c s : tame s (setCallbacks a b c s).
Proof. by apply tame_frame. Qed.

Lemma tame_setClientInfo a b c d s : tame s (setClientInfo a b c d s).
Proof. unfold setClientInfo. destruct (truthy c); by apply tame_frame. Qed.

Lemma tame_setServerClientId c s : tame s (setServerClientId c s).
Proof. by apply tame_frame. Qed.

Lemma tame_getStreamStats peerId s : tame s (getStreamStats peerId s).
Proof. unfold getStreamStats. tame. Qed.

Lemma tame_track_onunmute h t st s : tame s (track_onunmute h t st s).
Proof. unfold track_onunmute. tame. Qed.

Lemma tame_onicecandidate h c s : tame s (onicecandidate h c s).
Proof. unfold onicecandidate. tame. Qed.

Lemma tame_oniceconnectionstatechange h s : tame s (oniceconnectionstatechange h s).
Proof. unfold oniceconnectionstatechange. tame. Qed.

Lemma tame_ondatachannel h s : tame s (ondatachannel h s).
Proof.
  unfold ondatachannel. destruct (pcs s !! h); [|apply tame_refl].
  apply tame_frame; try done. simpl. lia.
Qed.

Lemma tame_channel_onopen h s : tame s (channel_onopen h s).
Proof. unfold channel_onopen. tame. Qed.

Lemma tame_channel_onclose h s : tame s (channel_onclose h s).
Proof. unfold channel_onclose. tame. Qed.

Lemma tame_fireTimer id s : tame s (fireTimer id s).
Proof.
  unfold fireTimer.
  destruct (timers s !! id) as [cb|] eqn:Hcb; [|apply tame_refl].
  destruct cb; cbn [is_interval]; tame.
Qed.

Lemma tame_clearConnectionTimeout pc s : tame s (clearConnectionTimeout pc s).
Proof. unfold clearConnectionTimeout. tame. Qed.

Lemma tame_watchStuckConnection h pc s : tame s (watchStuckConnection h pc s).
Proof. unfold watchStuckConnection. tame. Qed.

Lemma tame_startHealthCheck h peerId s : tame s (startHealthCheck h peerId s).
Proof. apply tame_frame; try done. simpl. lia. Qed.

Lemma tame_reportPeerState peerId st s : tame s (reportPeerState peerId st s).
Proof. unfold reportPeerState. tame. Qed.

Lemma tame_checkVideoStats h t s : tame s (checkVideoStats h t s).
Proof. apply tame_frame; try done. simpl. lia. Qed.

Lemma tame_notifyStream peerId st s : tame s (notifyStream peerId st s).
Proof. unfold notifyStream. tame. Qed.

(** The registry and the connections: handles are given out in order,
    and an entry of the registry refers to a connection made for that
    peer id and not closed. *)
Definition connections_ok (s : State) : Prop :=
  (∀ h, nextHandle s ≤ h → pcs s !! h = None)
  ∧ (∀ peerId h, peerConnections s !! peerId = Some h →
       ∃ pc, pcs s !! h = Some pc ∧ pc_peerId pc = peerId
             ∧ signalingState pc ≠ signaling_closed).

(** The audio elements: the document holds the registered elements, each
    once, and no two peers share an element. *)
Definition elements_ok (s : State) : Prop :=
  (∀ el, el ∈ body s → el < nextHandle s)
  ∧ (∀ el, el ∈ body s ↔ ∃ peerId, viewerAudioElements s !! peerId = Some el)
  ∧ (∀ p q el, viewerAudioElements s !! p = Some el →
               viewerAudioElements s !! q = Some el → p = q)
  ∧ NoDup (body s).

Definition well_formed (s : State) : Prop := connections_ok s ∧ elements_ok s.

Lemma connections_ok_tame s s' : tame s s' → connections_ok s → connections_ok s'.
Proof.
  intros (Hn & Hreg & _ & _ & Hpcs) [Halloc Hregd]. split.
  - intros h Hh. specialize (Hpcs h). rewrite Halloc in Hpcs by lia.
    by inversion Hpcs.
  - intros p h Hp. rewrite Hreg in Hp.
    destruct (Hregd p h Hp) as (pc & Hpc & Hid & Hopen).
    specialize (Hpcs h). rewrite Hpc in Hpcs.
    inversion Hpcs as [? pc' [Hid' Hcl] |]; subst.
    exists pc'. split; [done|]. split; [done|].
    intros Hc. by apply Hopen, Hcl.
Qed.

Lemma elements_ok_frame s s' :
  nextHandle s ≤ nextHandle s' →
  viewerAudioElements s' = viewerAudioElements s →
  body s' = body s →
  elements_ok s → elements_ok s'.
Proof.
  intros Hn Hel Hbody (Halloc & Hregd & Hinj & Hnodup).
  unfold elements_ok. rewrite Hel, Hbody.
  split; [|by split]. intros el Hin. apply Halloc in Hin. lia.
Qed.

Lemma connections_ok_frame s s' :
  nextHandle s ≤ nextHandle s' →
  peerConnections s' = peerConnections s →
  pcs s' = pcs s →
  connections_ok s → connections_ok s'.
Proof.
  intros Hn Hreg Hpcs [Halloc Hregd].
  unfold connections_ok. rewrite Hreg, Hpcs. split; [|done].
  intros h Hh. apply Halloc. lia.
Qed.

Lemma well_formed_tame s s' : tame s s' → well_formed s → well_formed s'.
Proof.
  intros Ht [Hc He]. split; [by eapply connections_ok_tame|].
  destruct Ht as (Hn & _ & Hel & Hbody & _). by eapply elements_ok_frame.
Qed.

Lemma well_formed_initial firefox : well_formed (initial firefox).
Proof.
  split; [split|split; [|split; [|split]]]; simpl.
  - intros. apply lookup_empty.
  - intros p h H. by rewrite lookup_empty in H.
  - intros el H. by apply elem_of_nil in H.
  - intros el. split.
    + intros H. by apply elem_of_nil in H.
    + intros [p H]. by rewrite lookup_empty in H.
  - intros p q el H. by rewrite lookup_empty in H.
  - constructor.
Qed.

(** *** The events that change the registry or the audio elements *)

Lemma well_formed_createPeerConnection peerId isInitiator s :
  well_formed s → well_formed (createPeerConnection peerId isInitiator s).2.
Proof.
  intros [[Halloc Hregd] He].
  destruct (createPeerConnection_nf peerId isInitiator s)
    as (trs & en & chs & n & -> & Hn).
  split.
  - split; simpl.
    + intros h Hh. rewrite lookup_insert_ne by lia. apply Halloc. lia.
    + intros p h Hp. destruct (decide (p = peerId)) as [->|Hne].
      * rewrite lookup_insert_eq in Hp. injection Hp as <-.
        rewrite lookup_insert_eq. eexists. split; [done|]. by split.
      * rewrite lookup_insert_ne in Hp by done.
        destruct (Hregd p h Hp) as (pc & Hpc & Hid & Hopen).
        assert (h ≠ nextHandle s).
        { intros ->. rewrite Halloc in Hpc by lia. done. }
        rewrite lookup_insert_ne by done. eauto.
  - eapply elements_ok_frame; [| | |exact He]; simpl; [lia|done..].
Qed.

Lemma connections_ok_remove peerId s s' :
  nextHandle s ≤ nextHandle s' →
  peerConnections s' = delete peerId (peerConnections s) →
  pcs s' = match peerConnections s !! peerId with
           | Some h => alter pc_close h (pcs s)
           | None => pcs s
           end →
  connections_ok s → connections_ok s'.
Proof.
  intros Hn Hreg Hpcs [Halloc Hregd]. split.
  - intros h Hh. rewrite Hpcs.
    assert (pcs s !! h = None) as Hnone by (apply Halloc; lia).
    destruct (peerConnections s !! peerId) as [h0|]; [|done].
    destruct (decide (h = h0)) as [->|Hne].
    + by rewrite lookup_alter_eq, Hnone.
    + by rewrite lookup_alter_ne.
  - intros q h Hq. rewrite Hreg in Hq.
    destruct (decide (q = peerId)) as [->|Hne];
      [by rewrite lookup_delete_eq in Hq|].
    rewrite lookup_delete_ne in Hq by done.
    destruct (Hregd q h Hq) as (pc & Hpc & Hid & Hopen).
    exists pc. split; [|done]. rewrite Hpcs.
    destruct (peerConnections s !! peerId) as [h0|] eqn:Hp; [|done].
    destruct (Hregd peerId h0 Hp) as (pc0 & Hpc0 & Hid0 & _).
    rewrite lookup_alter_ne; [done|]. intros <-. congruence.
Qed.

Lemma NoDup_List_filter {A} (f : A → bool) (l : list A) :
  NoDup l → NoDup (List.filter f l).
Proof.
  induction 1 as [|x l Hx Hl IH]; simpl; [constructor|].
  destruct (f x); [|done]. constructor; [|done].
  rewrite list_elem_of_In, filter_In, <- list_elem_of_In. by intros [? _].
Qed.

Lemma elements_ok_remove peerId s s' :
  nextHandle s ≤ nextHandle s' →
  viewerAudioElements s' = delete peerId (viewerAudioElements s) →
  body s' = match viewerAudioElements s !! peerId with
            | Some el => List.filter (λ e, negb (Nat.eqb e el)) (body s)
            | None => body s
            end →
  elements_ok s → elements_ok s'.
Proof.
  intros Hn Hel Hbody (Halloc & Hregd & Hinj & Hnodup).
  destruct (viewerAudioElements s !! peerId) as [el0|] eqn:Hp.
  - assert (Hin : ∀ el, el ∈ body s' ↔ el ∈ body s ∧ el ≠ el0).
    { intros el. rewrite Hbody, !list_elem_of_In, filter_In.
      by rewrite negb_true_iff, Nat.eqb_neq. }
    repeat split.
    + intros el [H _]%Hin. apply Halloc in H. lia.
    + intros [H Hne]%Hin. apply Hregd in H as [q Hq]. exists q.
      rewrite Hel, lookup_delete_ne; [done|]. intros <-. congruence.
    + intros [q Hq]. rewrite Hel in Hq.
      destruct (decide (q = peerId)) as [->|Hne];
        [by rewrite lookup_delete_eq in Hq|].
      rewrite lookup_delete_ne in Hq by done. apply Hin. split.
      * apply Hregd. eauto.
      * intros ->. by apply Hne, (Hinj q peerId el0).
    + intros p q el. rewrite Hel. intros H1 H2.
      destruct (decide (p = peerId)) as [->|]; [by rewrite lookup_delete_eq in H1|].
      destruct (decide (q = peerId)) as [->|]; [by rewrite lookup_delete_eq in H2|].
      rewrite lookup_delete_ne in H1, H2 by done. by eapply Hinj.
    + rewrite Hbody. by apply NoDup_List_filter.
  - rewrite delete_id in Hel by done. by eapply elements_ok_frame.
Qed.

Lemma well_formed_removePeer peerId s :
  well_formed s → well_formed (removePeer peerId s).
Proof.
  intros [Hc He].
  destruct (removePeer_spec peerId s)
    as (Hreg & Hpcs & _ & _ & _ & _ & _ & Hel & _ & Hbody & _ & _ & Hn).
  split.
  - eapply connections_ok_remove; [|exact Hreg|exact Hpcs|exact Hc]. lia.
  - eapply elements_ok_remove; [|exact Hel|exact Hbody|exact He]. lia.
Qed.

Lemma well_formed_removeAudioElement peerId s :
  well_formed s → well_formed (removeAudioElement peerId s).
Proof.
  intros [Hc He]. rewrite removeAudioElement_nf. split.
  - by eapply connections_ok_frame; [| | |exact Hc].
  - by eapply elements_ok_remove; [| | |exact He].
Qed.

Lemma well_formed_cleanup generated s :
  well_formed s → well_formed (cleanup generated s).
Proof.
  intros [[Halloc Hregd] (Hballoc & Hbregd & Hinj & Hnodup)].
  destruct (cleanup_spec generated s)
    as ((Hreg & _ & _ & _ & _ & Hel & _) & Hpcs & _ & Hbody & _ & Hn & _).
  assert (Hempty : body (cleanup generated s) = []).
  { apply elem_of_nil_inv. intros el. rewrite Hbody, foldl_filter_elem_of.
    intros [Hin Hout]. apply Hbregd in Hin as [p Hp].
    by apply Hout, (elem_of_map_to_list_2 _ p). }
  split; [split|repeat split].
  - intros h Hh. rewrite Hpcs, foldl_alter_lookup by apply pc_close_idemp.
    rewrite Halloc by lia. by case_decide.
  - intros p h Hp. by rewrite Hreg, lookup_empty in Hp.
  - rewrite Hempty. intros el H. by apply elem_of_nil in H.
  - rewrite Hempty. intros H. by apply elem_of_nil in H.
  - intros [p Hp]. by rewrite Hel, lookup_empty in Hp.
  - intros p q el Hp. by rewrite Hel, lookup_empty in Hp.
  - rewrite Hempty. constructor.
Qed.

Lemma well_formed_createAudioElement peerId stream is_paused s :
  viewerAudioElements s !! peerId = None →
  well_formed s → well_formed (createAudioElement peerId stream is_paused s).
Proof.
  intros Hnone [Hc (Hballoc & Hbregd & Hinj & Hnodup)].
  assert (Hfresh : nextHandle s ∉ body s).
  { intros Hin%Hballoc. lia. }
  assert (Hunused : ∀ q, viewerAudioElements s !! q ≠ Some (nextHandle s)).
  { intros q Hq. apply Hfresh, Hbregd. eauto. }
  unfold createAudioElement, fresh. simpl. split.
  - eapply connections_ok_frame; [| | |exact Hc]; simpl; [lia|done..].
  - repeat split; simpl.
    + intros el [Hin| ->%list_elem_of_singleton]%elem_of_app; [|lia].
      apply Hballoc in Hin. lia.
    + intros [Hin| ->%list_elem_of_singleton]%elem_of_app.
      * apply Hbregd in Hin as [q Hq]. exists q.
        rewrite lookup_insert_ne; [done|]. intros <-. congruence.
      * exists peerId. by rewrite lookup_insert_eq.
    + intros [q Hq]. apply elem_of_app.
      destruct (decide (q = peerId)) as [->|Hne].
      * rewrite lookup_insert_eq in Hq. injection Hq as <-.
        right. by apply list_elem_of_singleton.
      * rewrite lookup_insert_ne in Hq by done. left. apply Hbregd. eauto.
    + intros p q el H1 H2.
      destruct (decide (p = peerId)) as [->|Hp], (decide (q = peerId)) as [->|Hq];
        [done| | |].
      * rewrite lookup_insert_eq in H1. rewrite lookup_insert_ne in H2 by done.
        injection H1 as <-. by destruct (Hunused q).
      * rewrite lookup_insert_eq in H2. rewrite lookup_insert_ne in H1 by done.
        injection H2 as <-. by destruct (Hunused p).
      * rewrite lookup_insert_ne in H1, H2 by done. by eapply Hinj.
    + apply NoDup_app. split; [done|]. split; [|apply NoDup_singleton].
      intros el Hin ->%list_elem_of_singleton. by apply Hfresh.
Qed.

Lemma well_formed_playViewerAudio peerId stream0 played s :
  well_formed s → well_formed (playViewerAudio peerId stream0 played s).
Proof.
  intros Hwf. unfold playViewerAudio.
  destruct (localStream s); [|done]. destruct stream0 as [stream|]; [|done].
  destruct (viewerAudioElements s !! peerId) eqn:Hel.
  - eapply well_formed_tame; [|exact Hwf]. by apply tame_frame.
  - by apply well_formed_createAudioElement.
Qed.

Lemma well_formed_ontrack h track stream0 played s :
  well_formed s → well_formed (ontrack h track stream0 played s).
Proof.
  intros Hwf. unfold ontrack. destruct (pcs s !! h) as [pc|]; [|done].
  cbv zeta. eapply well_formed_tame; [apply tame_notifyStream|].
  destruct (track_kind track).
  - by apply well_formed_playViewerAudio.
  - eapply well_formed_tame; [apply tame_checkVideoStats|done].
Qed.

Lemma well_formed_onconnectionstatechange h s :
  well_formed s → well_formed (onconnectionstatechange h s).
Proof.
  intros Hwf. unfold onconnectionstatechange.
  destruct (pcs s !! h) as [pc|]; [|done]. cbv zeta.
  assert (Hrest : ∀ s0, well_formed s0 →
            well_formed (removeLostPeer (pc_peerId pc) (connectionState pc) s0)).
  { intros s0 H0. unfold removeLostPeer.
    destruct (connectionState pc); try done; by apply well_formed_removePeer. }
  apply Hrest.
  eapply well_formed_tame; [apply tame_reportPeerState|].
  eapply well_formed_tame; [apply tame_startHealthCheck|].
  eapply well_formed_tame; [apply tame_watchStuckConnection|].
  eapply well_formed_tame; [apply tame_clearConnectionTimeout|done].
Qed.

(** Every event keeps the state well formed. *)
Lemma well_formed_step e s : well_formed s → well_formed (step e s).
Proof.
  intros Hwf.
  pose proof (λ s', well_formed_tame s s') as Htame.
  destruct e; cbn [step];
    try (destruct (is_open pc s); [|exact Hwf]).
  - eapply Htame; [apply tame_setCallbacks|done].
  - eapply Htame; [apply tame_setClientInfo|done].
  - eapply Htame; [apply tame_setServerClientId|done].
  - eapply Htame; [apply tame_initializeLocalStream|done].
  - eapply Htame; [apply tame_initializeScreenShare|done].
  - by apply well_formed_createPeerConnection.
  - eapply Htame; [apply tame_createOffer|done].
  - eapply Htame; [apply tame_createAnswer|done].
  - eapply Htame; [apply tame_handleAnswer|done].
  - eapply Htame; [apply tame_addIceCandidate|done].
  - eapply Htame; [apply tame_replaceVideoTrack|done].
  - eapply Htame; [apply tame_stopScreenShare|done].
  - eapply Htame; [apply tame_toggleAudio|done].
  - eapply Htame; [apply tame_toggleVideo|done].
  - eapply Htame; [apply tame_enableViewerAudio|done].
  - eapply Htame; [apply tame_disableViewerAudio|done].
  - by apply well_formed_removeAudioElement.
  - by apply well_formed_removePeer.
  - eapply Htame; [apply tame_getStreamStats|done].
  - by apply well_formed_cleanup.
  - by apply well_formed_ontrack.
  - eapply Htame; [apply tame_track_onunmute|done].
  - eapply Htame; [apply tame_onicecandidate|done].
  - eapply Htame; [|done].
    eapply tame_then; [apply tame_oniceconnectionstatechange|].
    apply tame_updatePc, gentle_set_iceConnectionState.
  - apply well_formed_onconnectionstatechange.
    eapply Htame; [|done].
    apply tame_updatePc, gentle_set_connectionState.
  - eapply Htame; [apply tame_ondatachannel|done].
  - eapply Htame; [apply tame_channel_onopen|done].
  - eapply Htame; [apply tame_channel_onclose|done].
  - eapply Htame; [apply tame_stopScreenShare|done].
  - eapply Htame; [apply tame_fireTimer|done].
Qed.

Lemma well_formed_run es s : well_formed s → well_formed (run es s).
Proof.
  revert s. induction es as [|e es IH]; intros s Hwf; [done|].
  apply IH. by apply well_formed_step.
Qed.

(** X15.  In every state the service reaches from its construction,
    whatever the calls and the callbacks, an entry of the registry
    refers to a connection that was made for that peer id and is not
    closed; so no two peer ids share a connection. *)
Theorem registered_connection_is_open es firefox peerId h :
  let s := run es (initial firefox) in
  peerConnections s !! peerId = Some h →
  (∃ pc, pcs s !! h = Some pc ∧ pc_peerId pc = peerId
         ∧ signalingState pc ≠ signaling_closed)
  ∧ is_open h s = true
  ∧ ∀ q, peerConnections s !! q = Some h → q = peerId.
Proof.
  intros s Hreg.
  destruct (well_formed_run es (initial firefox) (well_formed_initial firefox))
    as [[_ Hregd] _].
  fold s in Hregd.
  destruct (Hregd peerId h Hreg) as (pc & Hpc & Hid & Hopen).
  split; [eauto|]. split.
  - unfold is_open. rewrite Hpc. by rewrite bool_decide_eq_false_2.
  - intros q Hq. destruct (Hregd q h Hq) as (pc' & Hpc' & Hid' & _). congruence.
Qed.

Lemma registered_connection_is_open_witness :
  is_open 4 (run [CreatePeerConnection "viewer-1" true;
                  CreatePeerConnection "viewer-2" false;
                  RemovePeer "viewer-1"] (initial false)) = true.
Proof.
  destruct (registered_connection_is_open
              [CreatePeerConnection "viewer-1" true;
               CreatePeerConnection "viewer-2" false;
               RemovePeer "viewer-1"] false "viewer-2" 4
              ltac:(vm_compute; reflexivity)) as (_ & Hopen & _).
  exact Hopen.
Defined.

(** X16.  In every state the service reaches, the audio elements in the
    document are the registered ones, each of them once, and no two
    peers share an element: no element of a viewer stays in the document
    after its entry is gone. *)
Theorem document_holds_registered_audio_elements es firefox :
  let s := run es (initial firefox) in
  NoDup (body s)
  ∧ (∀ el, el ∈ body s ↔ ∃ peerId, viewerAudioElements s !! peerId = Some el)
  ∧ (∀ p q el, viewerAudioElements s !! p = Some el →
               viewerAudioElements s !! q = Some el → p = q).
Proof.
  intros s.
  destruct (well_formed_run es (initial firefox) (well_formed_initial firefox))
    as [_ (_ & Hregd & Hinj & Hnodup)].
  by repeat split; try apply Hregd.
Qed.

(** ** The viewer audio track *)

Lemma renegotiate_keeps_tracks peerId created applied s :
  let s' := (renegotiate peerId created applied s).2 in
  viewerAudioTracks s' = viewerAudioTracks s ∧ trackEnded s' = trackEnded s.
Proof.
  unfold renegotiate. destruct (getPc peerId s) as [[h pc]|]; [|done].
  destruct created; [|done]. destruct applied; [|done]. simpl.
  by destruct (onMessageCallback s).
Qed.

(** X17.  [disableViewerAudio] works once.  With a connection and a
    stored track, the call stops the track and forgets it, whether the
    renegotiation goes through or not; whatever the first call found, a
    second call finds nothing to do: it returns with the state as it is
    and sends no offer. *)
Theorem disableViewerAudio_twice peerId created applied created' applied' s :
  let r := disableViewerAudio peerId created applied s in
  disableViewerAudio peerId created' applied' r.2 = (Returned (), r.2)
  ∧ (∀ h pc track,
       getPc peerId s = Some (h, pc) →
       viewerAudioTracks s !! peerId = Some track →
       viewerAudioTracks r.2 !! peerId = None ∧ live track r.2 = false).
Proof.
  intros r.
  destruct (getPc peerId s) as [[h pc]|] eqn:Hpc.
  - destruct (viewerAudioTracks s !! peerId) as [track|] eqn:Htrack.
    + set (s0 := set_viewerAudioTracks
                   (delete peerId (viewerAudioTracks s))
                   (stopTracks [track]
                      (updatePc h
                         (λ pc, pc_set_transceivers
                                  (pc_removeTrack track (getTransceivers pc)) pc)
                         s))).
      assert (Hr : r = renegotiate peerId created applied s0).
      { unfold r, disableViewerAudio. rewrite Hpc, Htrack. cbv zeta.
        subst s0. by rewrite stopTracks_nf. }
      destruct (renegotiate_keeps_tracks peerId created applied s0)
        as [Htracks Hended].
      rewrite <- Hr in Htracks, Hended. clearbody r.
      assert (Hgone : viewerAudioTracks r.2 !! peerId = None).
      { rewrite Htracks. subst s0. simpl. apply lookup_delete_eq. }
      split.
      * unfold disableViewerAudio. rewrite Hgone.
        by destruct (getPc peerId r.2) as [[? ?]|].
      * intros ? ? ? [= <- <-] [= <-]. split; [done|].
        unfold live. rewrite Hended. subst s0. rewrite stopTracks_nf. simpl.
        apply bool_decide_eq_false_2. set_solver.
    + assert (Hr : r = (Returned (), s))
        by (unfold r, disableViewerAudio; by rewrite Hpc, Htrack).
      rewrite Hr. split; [|by intros ? ? ? _ [=]].
      simpl. unfold disableViewerAudio. by rewrite Hpc, Htrack.
  - assert (Hr : r = (Returned (), s))
      by (unfold r, disableViewerAudio; by rewrite Hpc).
    rewrite Hr. split; [|by intros ? ? ? [=]].
    simpl. unfold disableViewerAudio. by rewrite Hpc.
Qed.

(** ** Data channels *)

Lemma createPeerConnection_initiator_nf peerId s :
  ∃ trs enabled_,
    (createPeerConnection peerId true s).2 =
    set_peerConnections (<[peerId := nextHandle s]> (peerConnections s))
      (set_channels (<[S (S (nextHandle s)) :=
                         {| channel_peerId := peerId;
                            readyState := channel_connecting |}]> (channels s))
         (set_pcs (<[nextHandle s :=
                       new_RTCPeerConnection peerId (S (nextHandle s)) trs]> (pcs s))
            (set_timers (<[S (nextHandle s) := ConnectionTimeout (nextHandle s)]> (timers s))
               (set_trackEnabled enabled_
                  (set_nextHandle (S (S (S (nextHandle s)))) s))))).
Proof.
  unfold createPeerConnection, setTimer, fresh. simpl.
  destruct (addLocalTracks_nf true (set_nextHandle (S (nextHandle s)) s))
    as (trs & v & ->). simpl.
  unfold createDataChannel, storePeerConnection, storePc, fresh. simpl.
  by exists trs, v.
Qed.

Lemma channel_onopen_nf ch c s :
  channels s !! ch = Some c →
  channel_onopen ch s =
  set_dataChannels (<[channel_peerId c := ch]> (dataChannels s))
    (set_channels (<[ch := {| channel_peerId := channel_peerId c;
                              readyState := channel_open |}]> (channels s)) s).
Proof. intros H. unfold channel_onopen. by rewrite H. Qed.

Lemma channel_onclose_nf ch c s :
  channels s !! ch = Some c →
  channel_onclose ch s =
  set_dataChannels (delete (channel_peerId c) (dataChannels s))
    (set_channels (alter channel_close ch (channels s)) s).
Proof. intros H. unfold channel_onclose. by rewrite H. Qed.

(** X18.  The data channel registry is keyed by peer id, and the close
    callback of a channel deletes the entry of its peer id whichever
    channel the entry refers to.  So when a connection is made twice for
    a peer (as initiator) and both data channels open, the entry refers
    to the second channel; when the first channel then closes, the entry
    is deleted although the second channel is still open. *)
Theorem stale_channel_close_unregisters_new_channel peerId s :
  let ch1 := S (S (nextHandle s)) in
  let ch2 := S (S (S (S (S (nextHandle s))))) in
  let before := run [CreatePeerConnection peerId true; ChannelOpen ch1;
                     CreatePeerConnection peerId true; ChannelOpen ch2] s in
  let after := step (ChannelClose ch1) before in
  dataChannels before !! peerId = Some ch2
  ∧ channels before !! ch2 = Some {| channel_peerId := peerId;
                                     readyState := channel_open |}
  ∧ dataChannels after !! peerId = None
  ∧ channels after !! ch2 = Some {| channel_peerId := peerId;
                                    readyState := channel_open |}.
Proof.
  intros ch1 ch2 before after. subst after before. unfold run.
  cbn [foldl step].
  destruct (createPeerConnection_initiator_nf peerId s) as (trs1 & v1 & Hnf1).
  remember (createPeerConnection peerId true s).2 as s1 eqn:Hs1.
  clear Hs1. fields_of Hnf1.
  assert (Hch1 : channels s1 !! ch1
                 = Some {| channel_peerId := peerId;
                           readyState := channel_connecting |})
    by (chase; apply lookup_insert_eq).
  stage (channel_onopen ch1 s1) (channel_onopen_nf ch1 _ s1 Hch1).
  destruct (createPeerConnection_initiator_nf peerId s0) as (trs2 & v2 & Hnf2).
  remember (createPeerConnection peerId true s0).2 as s2 eqn:Hs2.
  clear Hs2. fields_of Hnf2.
  assert (Hn : nextHandle s0 = S (S (S (nextHandle s)))) by (by chase).
  assert (Hch2 : channels s2 !! ch2
                 = Some {| channel_peerId := peerId;
                           readyState := channel_connecting |}).
  { chase. subst ch2. apply lookup_insert_eq. }
  stage (channel_onopen ch2 s2) (channel_onopen_nf ch2 _ s2 Hch2).
  assert (Hch1' : channels s3 !! ch1
                  = Some {| channel_peerId := peerId; readyState := channel_open |}).
  { chase. subst ch1 ch2. simpl.
    rewrite !lookup_insert_ne by lia. apply lookup_insert_eq. }
  stage (channel_onclose ch1 s3) (channel_onclose_nf ch1 _ s3 Hch1').
  simpl in *.
  split; [chase; apply lookup_insert_eq|].
  split; [chase; apply lookup_insert_eq|].
  split; [chase; apply lookup_delete_eq|].
  chase. subst ch1 ch2. rewrite lookup_alter_ne by lia. apply lookup_insert_eq.
Qed.
